(** * ALM force-constant tables: symmetry orbits and symmetry constraints

    A shallow embedding of [src/fcs.cpp] (class [Fcs]): the component
    enumerator [get_xyzcomponent], the index helpers, the orbit builder
    [generate_force_constant_table] and the constraint deriver
    [get_constraint_symmetry], followed by the properties proved of them.

    C++ [int] and [size_t] indices are [nat] (they are never negative where
    the code uses them as array subscripts), the signed [order] is [Z],
    parameter identifiers ([size_t mother]) are [N] so that the sentinel
    [numeric_limits<size_t>::max()] is a number, and [double] is the
    kernel's IEEE 754 binary64 type [float]. *)

From Stdlib Require Import ZArith NArith Floats.
From stdpp Require Import gmap strings list sorting.

Open Scope nat_scope.

(** ** Combinatorics: the component enumerator *)

Module Combinatorics.

(** Modelled from the spec: [std::next_permutation] of the C++ standard
    library is not under src/. [swap_last_greater x l] finds the rightmost
    element of [l] that is greater than the pivot [x] and puts [x] in its
    place. *)
Fixpoint swap_last_greater (x : nat) (l : list nat) : option (nat * list nat) :=
  match l with
  | [] => None
  | y :: l' =>
      match swap_last_greater x l' with
      | Some (z, l'') => Some (z, y :: l'')
      | None => if x <? y then Some (y, x :: l') else None
      end
  end.

(** Modelled from the spec: [next_perm l] is the body of
    [std::next_permutation] when a pivot exists: the rightmost position [i]
    with [l[i] < l[i+1]] is swapped with the rightmost greater element of
    the suffix and the suffix is reversed. [None] when [l] is
    non-increasing. *)
Fixpoint next_perm (l : list nat) : option (list nat) :=
  match l with
  | [] => None
  | x :: xs =>
      match next_perm xs with
      | Some xs' => Some (x :: xs')
      | None =>
          match xs with
          | [] => None
          | y :: _ =>
              if x <? y then
                match swap_last_greater x xs with
                | Some (z, xs'') => Some (z :: reverse xs'')
                | None => None
                end
              else None
          end
      end
  end.

(** Modelled from the spec: [std::next_permutation] returns [false] and
    leaves the range sorted when it was the last permutation. *)
Definition next_permutation (l : list nat) : list nat * bool :=
  match next_perm l with
  | Some l' => (l', true)
  | None => (reverse l, false)
  end.

(** Modelled from the spec: [boost::next_partial_permutation(first, middle,
    last)] of external/combination.hpp is not under src/. It is the "next
    distinct arrangement" generator over the fixed multiset [v]: the tail
    behind the first [n] slots is reversed and the whole range advanced to
    its next permutation. *)
Definition next_partial_permutation (n : nat) (v : list nat) : list nat * bool :=
  next_permutation (take n v ++ reverse (drop n v)).

(** The do-while loop of [Fcs::get_xyzcomponent]: row [m] receives the first
    [n] elements of [v]. [rows] is the number of rows left in the caller's
    [xyz] buffer; [None] is a write behind the buffer. *)
Fixpoint xyz_loop (rows : nat) (n : nat) (v : list nat) : option (list (list nat)) :=
  match rows with
  | 0 => None
  | S rows' =>
      let row := take n v in
      let '(v', more) := next_partial_permutation n v in
      if more then cons row <$> xyz_loop rows' n v' else Some [row]
  end.

(** [Fcs::get_xyzcomponent(n, xyz)], with the [xyz] buffer of
    [nxyz = 3^n] rows that both callers allocate. *)
Definition get_xyzcomponent (n : nat) : option (list (list nat)) :=
  xyz_loop (3 ^ n) n (replicate n 0 ++ replicate n 1 ++ replicate n 2).

End Combinatorics.

Import Combinatorics.

(** ** Data model *)

(** Modelled from the spec: the two tolerances of constants.h, which is not
    under src/: the tight one, 1e-12, and the loose one, 1e-8, each as the
    binary64 value nearest to the decimal literal. *)
Definition eps12 : float := 0x1.19799812dea11p-40.
Definition eps8 : float := 0x1.5798ee2308c3ap-27.

(** [std::numeric_limits<size_t>::max()], the zero-sentinel. *)
Definition size_t_max : N := 18446744073709551615.

(** [FcProperty] (fcs.h): the flattened indices [3 * atom + xyz], the
    coefficient that converts the mother force constant to this one, and the
    identifier of the mother. *)
Record FcProperty : Type := mkFc {
  elems : list nat;
  sign : float;
  mother : N
}.

(** One record of [Symmetry::get_SymmData()] (symmetry.h), with the members
    that [get_available_symmop] reads. *)
Record SymmetryOperation : Type := mkSymmetryOperation {
  rotation : list (list Z);
  rotation_cart : list (list float);
  compatible_with_lattice : bool;
  compatible_with_cartesian : bool
}.

(** What the code reads of a [Symmetry] object. [get_map_sym[i][isym]] is
    the atom that operation [isym] sends atom [i] to, and
    [get_map_p2s[j][0]] is the [j]-th atom of the primitive cell. *)
Record Symmetry : Type := mkSymmetry {
  get_SymmData : list SymmetryOperation;
  get_map_sym : list (list nat);
  get_nat_prim : nat;
  get_map_p2s : list (list nat)
}.

(** A call either returns or ends in [exit(where, message)] (error.h). *)
Inductive outcome (A : Type) : Type :=
  | Ok (a : A)
  | Exit (where_ message : string).
Arguments Ok {A} a.
Arguments Exit {A} where_ message.

(** One column of the outputs of [get_available_symmop]: [rotation[isym]]
    and [mapping_symm[.][isym]]. *)
Record SymmOp : Type := mkSymmOp {
  rot : list (list float);
  mapping : list nat
}.

(** [static_cast<double>] of an [int]. *)
Definition Z_to_float (z : Z) : float :=
  match z with
  | Z0 => 0%float
  | Zpos _ => PrimFloat.of_uint63 (Uint63.of_Z z)
  | Zneg p => (- PrimFloat.of_uint63 (Uint63.of_Z (Zpos p)))%float
  end.

(** ** The helpers of [Fcs] *)

Section Helpers.

(** The loops of [get_available_symmop] over [get_SymmData()]: [counter]
    numbers every operation, the selected ones are copied. *)
Fixpoint select_symmop (nat_ : nat) (map_sym : list (list nat))
    (compatible : SymmetryOperation → bool)
    (matrix : SymmetryOperation → list (list float))
    (use_compatible : bool) (data : list SymmetryOperation) (counter : nat)
    : list SymmOp :=
  match data with
  | [] => []
  | it :: data' =>
      let rest := select_symmop nat_ map_sym compatible matrix use_compatible
                    data' (S counter) in
      if Bool.eqb (compatible it) use_compatible then
        {| rot := map (λ i, map (λ j, nth j (nth i (matrix it) []) 0%float)
                              (seq 0 3)) (seq 0 3);
           mapping := map (λ i, nth counter (nth i map_sym []) 0) (seq 0 nat_) |}
        :: rest
      else rest
  end.

Definition get_available_symmop (nat_ : nat) (symmetry : Symmetry)
    (basis : string) (use_compatible : bool) : outcome (list SymmOp) :=
  if String.eqb basis "Cartesian" then
    Ok (select_symmop nat_ (get_map_sym symmetry) compatible_with_cartesian
          rotation_cart use_compatible (get_SymmData symmetry) 0)
  else if String.eqb basis "Lattice" then
    Ok (select_symmop nat_ (get_map_sym symmetry) compatible_with_lattice
          (λ it, map (map Z_to_float) (rotation it))
          use_compatible (get_SymmData symmetry) 0)
  else Exit "get_available_symmop" "Invalid basis input".

Definition coef_sym (n : nat) (rot : list (list float)) (arr1 arr2 : list nat)
    : float :=
  foldl (λ tmp i, PrimFloat.mul tmp
                    (nth (nth i arr1 0) (nth (nth i arr2 0) rot []) 0%float))
        1%float (seq 0 n).

Definition is_ascending (n : nat) (arr : list nat) : bool :=
  forallb (λ i, negb (nth (i + 1) arr 0 <? nth i arr 0)) (seq 0 (n - 1)).

(** The inner loop shared by both [is_inprim] overloads and by
    [get_minimum_index_in_primitive]: is [atmnum] one of [map_p2s[j][0]],
    [j < natmin]? *)
Definition in_primitive (natmin : nat) (map_p2s : list (list nat)) (atmnum : nat)
    : bool :=
  existsb (λ j, nth 0 (nth j map_p2s []) 0 =? atmnum) (seq 0 natmin).

(** [is_inprim(n, arr, natmin, map_p2s)] on an array of atoms. *)
Definition is_inprim (n : nat) (arr : list nat) (natmin : nat)
    (map_p2s : list (list nat)) : bool :=
  existsb (λ i, in_primitive natmin map_p2s (nth i arr 0)) (seq 0 n).

(** [is_inprim(n, natmin, map_p2s)] on one flattened index. *)
Definition is_inprim_index (n : nat) (natmin : nat) (map_p2s : list (list nat))
    : bool :=
  in_primitive natmin map_p2s (n / 3).

Definition get_minimum_index_in_primitive (n : nat) (arr : list nat) (nat_ : nat)
    (natmin : nat) (map_p2s : list (list nat)) : nat :=
  let ind := map (λ i, if in_primitive natmin map_p2s (nth i arr 0 / 3)
                       then nth i arr 0 else 3 * nat_) (seq 0 n) in
  snd (foldl (λ '(minval, minloc) i,
                if nth i ind 0 <? minval then (nth i ind 0, i) else (minval, minloc))
             (nth 0 ind 0, 0) (seq 0 n)).

(** [std::swap(arr[i], arr[j])]. *)
Definition swap (i j : nat) (arr : list nat) : list nat :=
  <[i := nth j arr 0]> (<[j := nth i arr 0]> arr).

(** Modelled from the spec: [sort_tail] is declared outside src/; it leaves
    slot 0 and sorts the remaining slots ascending. *)
Definition sort_tail (arr : list nat) : list nat :=
  match arr with
  | [] => []
  | x :: tail => x :: merge_sort le tail
  end.

(** The three statements that put an index in canonical form (lines
    206-210, 241-247 and 460-462): the slot holding the least index of a
    primitive-cell atom goes to the front, the others are sorted. *)
Definition canonicalize (n nat_ natmin : nat) (map_p2s : list (list nat))
    (ind : list nat) : list nat :=
  let i_prim := get_minimum_index_in_primitive n ind nat_ natmin map_p2s in
  sort_tail (swap 0 i_prim ind).

(** [ind[i] = 3 * atmn[i] + xyz[i]] for [i < n]. *)
Definition flatten (n : nat) (atmn xyz : list nat) : list nat :=
  map (λ i, 3 * nth i atmn 0 + nth i xyz 0) (seq 0 n).

Definition is_allzero (vec : list float) (tol : float) : bool * Z :=
  match list_find (λ x, Is_true (PrimFloat.ltb tol (abs x))) vec with
  | Some (i, _) => (false, Z.of_nat i)
  | None => (true, (-1)%Z)
  end.

End Helpers.

(** ** OrbitBuilder: [Fcs::generate_force_constant_table] *)

Module OrbitBuilder.

(** [std::lexicographical_compare] on index tuples. *)
Fixpoint index_ltb (a b : list nat) : bool :=
  match a, b with
  | _, [] => false
  | [], _ :: _ => true
  | x :: a', y :: b' =>
      if x <? y then true else if y <? x then false else index_ltb a' b'
  end.

(** Modelled from the spec: [FcProperty::operator<] is declared outside
    src/; the final sort uses a total order on (index, sign). *)
Definition fc_ltb (a b : FcProperty) : bool :=
  index_ltb (elems a) (elems b)
  || (negb (index_ltb (elems b) (elems a)) && PrimFloat.ltb (sign a) (sign b)).

(** [std::sort] of a range of [FcProperty]: afterwards no element is less
    than one before it. *)
Definition sort_fc (l : list FcProperty) : list FcProperty :=
  merge_sort (λ a b, Is_true (negb (fc_ltb b a))) l.

(** The variables of the function body that the loops update. *)
Record table_state : Type := mkTable {
  list_found : gset (list nat);
  fc_vec : list FcProperty;
  ndup : list nat;
  fc_zeros_out : list FcProperty;
  nmother : N
}.

(** The variables that the search of one orbit updates (lines 212-298). *)
Record orbit_state : Type := mkOrbit {
  o_found : gset (list nat);
  o_fc : list FcProperty;
  ndeps : nat;
  is_zero : bool
}.

Section Build.

Variables (n nat_ natmin : nat) (map_p2s : list (list nat)).
Variable xyzcomponent : list (list nat).

(** Lines 275-292, one slot [i >= 1] of a newly found index: a second entry
    with slot [i] in front when its atom lies in the primitive cell and the
    index of slot [i] was not handled yet. *)
Definition add_permutation (c_tmp : float) (nmother : N) (ind_mapped : list nat)
    (st : list bool * list FcProperty * nat) (i : nat)
    : list bool * list FcProperty * nat :=
  let '(is_searched, fc, nd) := st in
  if negb (nth (nth i ind_mapped 0) is_searched false)
     && is_inprim_index (nth i ind_mapped 0) natmin map_p2s then
    let ind_mapped_tmp := sort_tail (swap 0 i ind_mapped) in
    (<[nth i ind_mapped 0 := true]> is_searched,
     fc ++ [mkFc ind_mapped_tmp c_tmp nmother],
     S nd)
  else st.

(** Lines 232-296, one component assignment [xyzcomponent[i2]] under one
    symmetry operation. *)
Definition visit (nmother : N) (ind xyz1 : list nat) (rot : list (list float))
    (atmn_mapped : list nat) (st : orbit_state) (xyz2 : list nat) : orbit_state :=
  let c_tmp := coef_sym n rot xyz1 xyz2 in
  if PrimFloat.ltb eps12 (abs c_tmp) then
    let ind_mapped :=
      canonicalize n nat_ natmin map_p2s (flatten n atmn_mapped xyz2) in
    let zero :=
      if is_zero st then true
      else forallb (λ i, nth i ind 0 =? nth i ind_mapped 0) (seq 0 n)
           && PrimFloat.ltb (abs (c_tmp + 1)) eps8 in
    if bool_decide (ind_mapped ∈ o_found st) then
      mkOrbit (o_found st) (o_fc st) (ndeps st) zero
    else
      let '(_, fc, nd) :=
        foldl (add_permutation c_tmp nmother ind_mapped)
              (<[nth 0 ind_mapped 0 := true]> (replicate (3 * nat_) false),
               o_fc st ++ [mkFc ind_mapped c_tmp nmother],
               S (ndeps st))
              (seq 1 (n - 1)) in
      mkOrbit ({[ind_mapped]} ∪ o_found st) fc nd zero
  else st.

(** Lines 220-298, one symmetry operation. *)
Definition scan_symmetry (nmother : N) (atmn ind xyz1 : list nat)
    (st : orbit_state) (op : SymmOp) : orbit_state :=
  let atmn_mapped := map (λ i, nth (nth i atmn 0) (mapping op) 0) (seq 0 n) in
  if negb (is_inprim n atmn_mapped natmin map_p2s) then st
  else foldl (visit nmother ind xyz1 (rot op) atmn_mapped) st xyzcomponent.

(** Lines 300-311: a symmetry-zero orbit is taken back out of [fc_vec], and
    kept under the sentinel when [store_zeros_in]; another orbit is counted. *)
Definition close_orbit (store_zeros_in : bool) (st : table_state)
    (o : orbit_state) : table_state :=
  if is_zero o then
    mkTable (o_found o)
            (take (length (o_fc o) - ndeps o) (o_fc o))
            (ndup st)
            (if store_zeros_in then
               fc_zeros_out st
               ++ map (λ it, mkFc (elems it) (sign it) size_t_max)
                      (take (ndeps o) (reverse (o_fc o)))
             else fc_zeros_out st)
            (nmother st)
  else
    mkTable (o_found o) (o_fc o) (ndup st ++ [ndeps o]) (fc_zeros_out st)
            (nmother st + 1).

(** Lines 201-313, one component assignment [xyzcomponent[i1]] of one
    cluster. *)
Definition search_orbit (ops : list SymmOp) (store_zeros_in : bool)
    (atmn : list nat) (st : table_state) (xyz1 : list nat) : table_state :=
  let ind0 := flatten n atmn xyz1 in
  if negb (is_ascending n ind0) then st
  else
    let ind := canonicalize n nat_ natmin map_p2s ind0 in
    if bool_decide (ind ∈ list_found st) then st
    else
      close_orbit store_zeros_in st
        (foldl (scan_symmetry (nmother st) atmn ind xyz1)
               (mkOrbit (list_found st) (fc_vec st) 0 false) ops).

(** Lines 197-314, one cluster. *)
Definition search_cluster (ops : list SymmOp) (store_zeros_in : bool)
    (st : table_state) (pair : list nat) : table_state :=
  let atmn := map (λ i, nth i pair 0) (seq 0 n) in
  foldl (search_orbit ops store_zeros_in atmn) st xyzcomponent.

End Build.

(** Lines 330-339: every orbit's range of [fc_vec] is sorted. *)
Fixpoint sort_orbits (ndup : list nat) (fc_vec : list FcProperty)
    : list FcProperty :=
  match ndup with
  | [] => fc_vec
  | k :: ndup' => sort_fc (take k fc_vec) ++ sort_orbits ndup' (drop k fc_vec)
  end.

(** The rows of [xyzcomponent] after [get_xyzcomponent(order + 2, ...)];
    the enumerator never writes behind its buffer ([get_xyzcomponent_words]
    below), so the default is never used. *)
Definition xyz_table (n : nat) : list (list nat) :=
  default [] (get_xyzcomponent n).

(** Lines 185-314: the loops over the clusters, from the cleared outputs. *)
Definition build_table (n nat_ natmin : nat) (map_p2s : list (list nat))
    (xyzcomponent : list (list nat)) (ops : list SymmOp)
    (store_zeros_in : bool) (pairs : list (list nat)) : table_state :=
  foldl (search_cluster n nat_ natmin map_p2s xyzcomponent ops store_zeros_in)
        (mkTable ∅ [] [] [] 0) pairs.

(** [Fcs::generate_force_constant_table]. The three output arguments
    [fc_vec], [ndup] and [fc_zeros_out] are passed in as the caller has them
    and returned as the call leaves them. *)
Definition generate_force_constant_table (order : Z) (nat_ : nat)
    (pairs : list (list nat)) (symm_in : Symmetry) (basis : string)
    (fc_vec0 : list FcProperty) (ndup0 : list nat)
    (fc_zeros_out0 : list FcProperty) (store_zeros_in : bool)
    : outcome (list FcProperty * list nat * list FcProperty) :=
  if (order <? 0)%Z then Ok (fc_vec0, ndup0, fc_zeros_out0)
  else
    match get_available_symmop nat_ symm_in basis true with
    | Exit w m => Exit w m
    | Ok ops =>
        let n := Z.to_nat (order + 2) in
        let st :=
          build_table n nat_ (get_nat_prim symm_in) (get_map_p2s symm_in)
            (xyz_table n) ops store_zeros_in pairs in
        Ok (sort_orbits (ndup st) (fc_vec st), ndup st, fc_zeros_out st)
    end.

End OrbitBuilder.

(** ** ConstraintDeriver: [Fcs::get_constraint_symmetry] *)

Module ConstraintDeriver.

(** [ConstraintDoubleElement] (constraint.h): a column and a value. *)
Record ConstraintDoubleElement : Type := mkElem {
  col : nat;
  val : float
}.

(** [ConstEntry], one candidate row, and one row of the output
    [ConstraintSparseForm], a [std::map<size_t, double>]. *)
Abbreviation ConstEntry := (list ConstraintDoubleElement).
Abbreviation ConstDoubleEntry := (gmap nat float).

(** Modelled from the spec: the comparison operators of
    [ConstraintDoubleElement] are declared outside src/; rows are sorted by
    content, columns before values, and duplicates are exact. *)
Definition elem_ltb (a b : ConstraintDoubleElement) : bool :=
  (col a <? col b) || ((col a =? col b) && PrimFloat.ltb (val a) (val b)).

Definition elem_eqb (a b : ConstraintDoubleElement) : bool :=
  (col a =? col b) && PrimFloat.eqb (val a) (val b).

(** [operator<] of [std::vector]: [std::lexicographical_compare]. *)
Fixpoint row_ltb (a b : ConstEntry) : bool :=
  match a, b with
  | _, [] => false
  | [], _ :: _ => true
  | x :: a', y :: b' =>
      if elem_ltb x y then true else if elem_ltb y x then false else row_ltb a' b'
  end.

(** [operator==] of [std::vector]. *)
Fixpoint row_eqb (a b : ConstEntry) : bool :=
  match a, b with
  | [], [] => true
  | x :: a', y :: b' => elem_eqb x y && row_eqb a' b'
  | _, _ => false
  end.

(** [std::sort(constraint_all.begin(), constraint_all.end())]. *)
Definition sort_rows (l : list ConstEntry) : list ConstEntry :=
  merge_sort (λ a b, Is_true (negb (row_ltb b a))) l.

(** [std::unique] followed by [erase]: of every run of consecutive equal
    rows the first is kept; [kept] is the last row kept so far. *)
Fixpoint unique_after (kept : ConstEntry) (l : list ConstEntry) : list ConstEntry :=
  match l with
  | [] => []
  | x :: l' =>
      if row_eqb kept x then unique_after kept l' else x :: unique_after x l'
  end.

Definition unique (l : list ConstEntry) : list ConstEntry :=
  match l with
  | [] => []
  | x :: l' => x :: unique_after x l'
  end.

(** Lines 524-532: one row is divided by its first coefficient.
    [division_factor] is declared outside the loop over the rows, so it is
    threaded through. *)
Definition normalize_step (st : float * nat * ConstDoubleEntry)
    (it2 : ConstraintDoubleElement) : float * nat * ConstDoubleEntry :=
  let '(division_factor, counter, const_tmp2) := st in
  let division_factor :=
    if counter =? 0 then (1 / val it2)%float else division_factor in
  (division_factor, S counter,
   <[col it2 := (val it2 * division_factor)%float]> const_tmp2).

Definition normalize_row (division_factor : float) (it : ConstEntry)
    : float * ConstDoubleEntry :=
  let '(division_factor, _, const_tmp2) :=
    foldl normalize_step (division_factor, 0, ∅) it in
  (division_factor, const_tmp2).

(** Lines 519-534. *)
Definition normalize_rows (constraint_all : list ConstEntry)
    : list ConstDoubleEntry :=
  snd (foldl (λ '(division_factor, const_out) it,
                let '(division_factor, const_tmp2) :=
                  normalize_row division_factor it in
                (division_factor, const_out ++ [const_tmp2]))
             (1%float, []) constraint_all).

(** SparseRowCanonicalizer, lines 512-534: sort, drop duplicates, normalize. *)
Definition canonicalize_rows (constraint_all : list ConstEntry)
    : list ConstDoubleEntry :=
  normalize_rows (unique (sort_rows constraint_all)).

Section Derive.

Variables (n nat_ natmin : nat) (map_p2s : list (list nat)).
Variable xyzcomponent : list (list nat).

(** Lines 399-404. Modelled from the spec: [list_found] is a hashed lookup
    from the index of an entry to the entry (hash and equality of
    [FcProperty] are declared outside src/); inserting an index that is
    already there changes nothing. *)
Definition insert_found (list_found : gmap (list nat) FcProperty)
    (p : FcProperty) : gmap (list nat) FcProperty :=
  let index_tmp := map (λ i, nth i (elems p) 0) (seq 0 n) in
  match list_found !! index_tmp with
  | Some _ => list_found
  | None => <[index_tmp := mkFc index_tmp (sign p) (mother p)]> list_found
  end.

(** Lines 456-469, one component assignment [xyzcomponent[ixyz]]. *)
Definition accumulate (list_found : gmap (list nat) FcProperty)
    (rot : list (list float)) (atm_index_symm xyz_index : list nat)
    (const_now : list float) (xyz : list nat) : list float :=
  let ind := canonicalize n nat_ natmin map_p2s (flatten n atm_index_symm xyz) in
  match list_found !! ind with
  | Some found =>
      let c_tmp := coef_sym n rot xyz_index xyz in
      let m := N.to_nat (mother found) in
      <[m := (nth m const_now 0 + sign found * c_tmp)%float]> const_now
  | None => const_now
  end.

(** Lines 446-490, one entry under one symmetry operation: the candidate
    row, if there is one. *)
Definition constraint_row (nparams : nat)
    (list_found : gmap (list nat) FcProperty) (list_tmp : FcProperty)
    (op : SymmOp) : option ConstEntry :=
  let atm_index := map (λ i, nth i (elems list_tmp) 0 / 3) (seq 0 n) in
  let xyz_index := map (λ i, nth i (elems list_tmp) 0 mod 3) (seq 0 n) in
  let atm_index_symm :=
    map (λ i, nth (nth i atm_index 0) (mapping op) 0) (seq 0 n) in
  if negb (is_inprim n atm_index_symm natmin map_p2s) then None
  else
    let const_now :=
      foldl (accumulate list_found (rot op) atm_index_symm xyz_index)
            (<[N.to_nat (mother list_tmp) := (- sign list_tmp)%float]>
               (replicate nparams 0%float))
            xyzcomponent in
    match is_allzero const_now eps8 with
    | (true, _) => None
    | (false, loc_nonzero) =>
        let const_now :=
          if PrimFloat.ltb (nth (Z.to_nat loc_nonzero) const_now 0%float) 0
          then map (λ x, (x * -1)%float) const_now
          else const_now in
        Some (omap (λ j, if PrimFloat.leb eps8 (abs (nth j const_now 0%float))
                         then Some (mkElem j (nth j const_now 0%float))
                         else None)
                   (seq 0 nparams))
    end.

(** Lines 438-491 without OpenMP: the loop over the entries runs in one
    thread and its rows are appended in order. *)
Definition constraint_list (nparams : nat) (ops : list SymmOp)
    (fc_table_in : list FcProperty) : list ConstEntry :=
  let list_found := foldl insert_found ∅ fc_table_in in
  concat (map (λ list_tmp, omap (constraint_row nparams list_found list_tmp) ops)
              fc_table_in).

End Derive.

(** [Fcs::get_constraint_symmetry]. [const_out0] is the output argument as
    the caller has it, and [rref_sparse] (rref.h) is the external sparse
    row-echelon reducer. The block of lines 410-505 is the body of one
    thread, which is all of it when the file is compiled without OpenMP. *)
Definition get_constraint_symmetry
    (rref_sparse : nat → list ConstDoubleEntry → float → list ConstDoubleEntry)
    (nat_ : nat) (symmetry : Symmetry) (order : Z) (basis : string)
    (fc_table_in : list FcProperty) (nparams : nat) (tolerance : float)
    (const_out0 : list ConstDoubleEntry) (do_rref : bool)
    : outcome (list ConstDoubleEntry) :=
  if (order <? 0)%Z then Ok const_out0
  else if nparams =? 0 then Ok const_out0
  else
    let n := Z.to_nat (order + 2) in
    match get_available_symmop nat_ symmetry basis false with
    | Exit w m => Exit w m
    | Ok ops =>
        let constraint_all :=
          constraint_list n nat_ (get_nat_prim symmetry) (get_map_p2s symmetry)
            (OrbitBuilder.xyz_table n) nparams ops fc_table_in in
        let const_out := canonicalize_rows constraint_all in
        Ok (if do_rref then rref_sparse nparams const_out tolerance
            else const_out)
    end.

End ConstraintDeriver.

Import OrbitBuilder ConstraintDeriver.

(** ** [Fcs::init]: one table per order *)

Module Tables.

(** What [Fcs::init] reads of a [Cluster] (cluster.h): the number of
    orders and the clusters of every order, in the order in which the
    [std::set] is walked. *)
Record Cluster : Type := mkCluster {
  get_maxorder : Z;
  get_cluster_list : nat → list (list nat)
}.

(** The members of an [Fcs] object: one vector per order behind each
    pointer, [None] for the null pointer. *)
Record Fcs : Type := mkFcs {
  nequiv : option (list (list nat));
  fc_table : option (list (list FcProperty));
  fc_zeros : option (list (list FcProperty));
  store_zeros : bool
}.

Definition set_default_variables : Fcs := mkFcs None None None true.

(** Lines 80-90, one order: the three vectors of the order are the empty
    ones that [allocate] has just made. *)
Definition init_order (this : Fcs) (cluster : Cluster) (symmetry : Symmetry)
    (number_of_atoms : nat)
    (acc : outcome (list (list FcProperty * list nat * list FcProperty))) (i : nat)
    : outcome (list (list FcProperty * list nat * list FcProperty)) :=
  match acc with
  | Exit w m => Exit w m
  | Ok tables =>
      match generate_force_constant_table (Z.of_nat i) number_of_atoms
              (get_cluster_list cluster i) symmetry "Cartesian" [] [] []
              (store_zeros this) with
      | Exit w m => Exit w m
      | Ok t => Ok (tables ++ [t])
      end
  end.

(** [Fcs::init] without the timer and the report on [std::cout]: the
    arrays of a call before are released, and arrays of [maxorder] vectors
    are filled order by order. *)
Definition init (this : Fcs) (cluster : Cluster) (symmetry : Symmetry)
    (number_of_atoms : nat) : outcome Fcs :=
  let maxorder := Z.to_nat (get_maxorder cluster) in
  match foldl (init_order this cluster symmetry number_of_atoms) (Ok [])
              (seq 0 maxorder) with
  | Exit w m => Exit w m
  | Ok tables =>
      Ok (mkFcs (Some (map (λ t, t.1.2) tables))
                (Some (map (λ t, t.1.1) tables))
                (Some (map (λ t, t.2) tables))
                (store_zeros this))
  end.

End Tables.

(** ** The readers of the table in [src/fitting.cpp] *)

Module Fitting.

(** The members of [Symmetry] that [data_multiplier] reads besides
    [nat_prim] and [map_sym]: the number of pure translations and the
    number of each of them among the operations. *)
Record Translations : Type := mkTranslations {
  ntran : nat;
  symnum_tran : list nat
}.

(** [Fitting::inprim_index(n, symmetry)]: the flattened index within the
    primitive cell of the supercell index [n], or -1. *)
Definition inprim_index (n : nat) (symmetry : Symmetry) : Z :=
  let atmn := n / 3 in
  let crdn := n mod 3 in
  match list_find (λ i, nth 0 (nth i (get_map_p2s symmetry) []) 0 = atmn)
                  (seq 0 (get_nat_prim symmetry)) with
  | Some (_, i) => Z.of_nat (3 * i + crdn)
  | None => (-1)%Z
  end.

(** The range of [int]. A product that leaves it has no defined value. *)
Definition int_max : Z := 2147483647.
Definition int_min : Z := (-2147483648)%Z.

Definition int_mul (a b : Z) : option Z :=
  if ((int_min <=? a * b) && (a * b <=? int_max))%Z then Some (a * b)%Z else None.

(** [Fitting::factorial(n)]: [fuel] bounds the depth of the recursion;
    [None] is a call that yields no value, because a product overflows or
    because the recursion does not reach 1 or 0. *)
Fixpoint factorial_rec (fuel : nat) (n : Z) : option Z :=
  if ((n =? 1) || (n =? 0))%Z then Some 1%Z
  else
    match fuel with
    | 0 => None
    | S fuel' => r ← factorial_rec fuel' (n - 1)%Z; int_mul n r
    end.

Definition factorial (n : Z) : option Z := factorial_rec (Z.to_nat n) n.

(** Modelled from the spec: [insort] is declared outside src/; it sorts
    the array in ascending order. *)
Definition insort (arr : list nat) : list nat := merge_sort le arr.

(** Lines 1249-1258 of [Fitting::gamma], one index [i >= 1]: the lengths
    [nsame] of the runs of equal indices in the sorted copy, and the number
    of indices equal to the first. *)
Definition gamma_step (arr arr_tmp : list nat) (ind_front : nat)
    (st : list nat * nat * nat * nat) (i : nat) : list nat * nat * nat * nat :=
  let '(nsame, iuniq, nuniq, nsame_to_front) := st in
  let '(nsame, iuniq, nuniq) :=
    if nth i arr_tmp 0 =? nth (i - 1) arr_tmp 0
    then (<[iuniq := S (nth iuniq nsame 0)]> nsame, iuniq, nuniq)
    else (<[S iuniq := S (nth (S iuniq) nsame 0)]> nsame, S iuniq, S nuniq) in
  (nsame, iuniq, nuniq,
   if nth i arr 0 =? ind_front then S nsame_to_front else nsame_to_front).

(** [Fitting::gamma(n, arr)]: the number of indices equal to the first,
    over the product of the factorials of the multiplicities. *)
Definition gamma (n : nat) (arr : list nat) : option float :=
  let arr_tmp := insort (map (λ i, nth i arr 0) (seq 0 n)) in
  let ind_front := nth 0 arr 0 in
  let '(nsame, _, nuniq, nsame_to_front) :=
    foldl (gamma_step arr arr_tmp ind_front)
          (<[0 := 1]> (replicate n 0), 0, 1, 1) (seq 1 (n - 1)) in
  denom ← foldl (λ denom i,
                   d ← denom; f ← factorial (Z.of_nat (nth i nsame 0)); int_mul d f)
                (Some 1%Z) (seq 0 nuniq);
  Some (Z_to_float (Z.of_nat nsame_to_front) / Z_to_float denom)%float.

(** Lines 1197-1202: the data of one set moved along one translation,
    [s = symnum_tran[itran]], into [data_tmp]. *)
Definition translate_data (symmetry : Symmetry) (nat_ : nat) (set : list float)
    (data_tmp : list float) (s : nat) : list float :=
  foldl (λ tmp j,
           let n_mapped := nth s (nth j (get_map_sym symmetry) []) 0 in
           foldl (λ tmp k, <[3 * n_mapped + k := nth (3 * j + k) set 0%float]> tmp)
                 tmp (seq 0 3))
        data_tmp (seq 0 nat_).

(** Lines 1193-1206, one data set: [data_tmp] is made once for the set and
    appended after every translation. *)
Definition multiply_set (symmetry : Symmetry) (tr : Translations) (nat_ : nat)
    (data_out : list (list float)) (set : list float) : list (list float) :=
  (foldl (λ '(out, data_tmp) itran,
            let data_tmp :=
              translate_data symmetry nat_ set data_tmp
                (nth itran (symnum_tran tr) 0) in
            (out ++ [data_tmp], data_tmp))
         (data_out, replicate (3 * nat_) 0%float) (seq 0 (ntran tr))).1.

(** [Fitting::data_multiplier(data_in, data_out, ndata_used, symmetry)],
    the overload on vectors. [data_out] is the output argument as the
    caller has it. *)
Definition data_multiplier (data_in data_out : list (list float)) (ndata_used : Z)
    (symmetry : Symmetry) (tr : Translations) : outcome (list (list float)) :=
  if (Z.of_nat (length data_in) <? ndata_used)%Z then
    Exit "data_multiplier" "Number of data sets is insufficient."
  else
    let nat_ := get_nat_prim symmetry * ntran tr in
    Ok (foldl (λ out i, multiply_set symmetry tr nat_ out (nth i data_in []))
              data_out (seq 0 (Z.to_nat ndata_used))).

End Fitting.

(** ** The expansion of the fitted parameters in [src/fitting.cpp] *)

Module Recover.

(** [ConstraintTypeFix] (constraint.h): a parameter and its fixed value. *)
Module ConstraintTypeFix.
Record t : Type := mk {
  p_index_target : nat;
  val_to_fix : float
}.
End ConstraintTypeFix.

(** [ConstraintTypeRelate] (constraint.h): a parameter and the weights and
    the parameters of the combination that it is minus. *)
Module ConstraintTypeRelate.
Record t : Type := mk {
  p_index_target : nat;
  alpha : list float;
  p_index_orig : list nat
}.
End ConstraintTypeRelate.

(** What [recover_original_forceconstants] reads of a [Constraint]: for
    every order the fixed parameters, the relations, and the pairs
    (left, right) of [index_bimap] in the order in which the bimap is walked:
    left is the number of a parameter among the fitted ones, right its
    number among all parameters of the order. *)
Record Constraint : Type := mkConstraint {
  const_fix : list (list ConstraintTypeFix.t);
  const_relate : list (list ConstraintTypeRelate.t);
  index_bimap : list (list (nat * nat))
}.

(** Lines 1136-1141: the combination of one relation, read from
    [param_out] shifted by [ishift]. *)
Definition combination (ishift : nat) (param_out : list float)
    (r : ConstraintTypeRelate.t) : float :=
  foldl (λ tmp k,
           PrimFloat.add tmp
             (PrimFloat.mul
                (nth k (ConstraintTypeRelate.alpha r) 0%float)
                (nth (nth k (ConstraintTypeRelate.p_index_orig r) 0 + ishift)
                     param_out 0%float)))
        0%float (seq 0 (length (ConstraintTypeRelate.alpha r))).

(** Lines 1122-1147, one order. *)
Definition recover_order (param_in : list float) (nequiv : list (list nat))
    (constraint : Constraint) (st : list float * nat * nat) (i : nat)
    : list float * nat * nat :=
  let '(param_out, ishift, iparam) := st in
  let param_out :=
    foldl (λ po f, <[ConstraintTypeFix.p_index_target f + ishift
                     := ConstraintTypeFix.val_to_fix f]> po)
          param_out (nth i (const_fix constraint) []) in
  let param_out :=
    foldl (λ po it, <[it.2 + ishift := nth (it.1 + iparam) param_in 0%float]> po)
          param_out (nth i (index_bimap constraint) []) in
  let param_out :=
    foldl (λ po r, <[ConstraintTypeRelate.p_index_target r + ishift
                     := (- combination ishift po r)%float]> po)
          param_out (nth i (const_relate constraint) []) in
  (param_out, ishift + length (nth i nequiv []),
   iparam + length (nth i (index_bimap constraint) [])).

(** The sum of the sizes of the first [maxorder] vectors of an array. *)
Definition total_size {A} (sizes : list (list A)) (maxorder : nat) : nat :=
  sum_list (map (λ i, length (nth i sizes [])) (seq 0 maxorder)).

(** [Fitting::recover_original_forceconstants]. [param_out] is the output
    argument as the caller has it; [resize] cuts it or fills it with 0.0. *)
Definition recover_original_forceconstants (maxorder : Z)
    (param_in param_out : list float) (nequiv : list (list nat))
    (constraint : Constraint) : list float :=
  let nparams := total_size nequiv (Z.to_nat maxorder) in
  if nparams =? length param_in then param_out
  else
    let param_out :=
      take nparams param_out ++ replicate (nparams - length param_out) 0%float in
    (foldl (recover_order param_in nequiv constraint) (param_out, 0, 0)
           (seq 0 (Z.to_nat maxorder))).1.1.

End Recover.

(** ** Vocabulary of the statements *)

(** The component assignments of [n] slots, in lexicographic order. *)
Fixpoint words (n : nat) : list (list nat) :=
  match n with
  | 0 => [[]]
  | S n' => d ← [0; 1; 2]; cons d <$> words n'
  end.

(** The lexicographic successor of a ternary word, if it has one. *)
Fixpoint incr (p : list nat) : option (list nat) :=
  match p with
  | [] => None
  | d :: q =>
      match incr q with
      | Some q' => Some (d :: q')
      | None => if d <? 2 then Some (S d :: replicate (length q) 0) else None
      end
  end.

(** The number of slots of [p] that hold [d]. *)
Definition occ (d : nat) (p : list nat) : nat := length (filter (λ x, x = d) p).

(** The sorted tail of the enumerator's buffer behind the prefix [p]: what
    is left of [n] copies of each axis. *)
Definition tail_of (n : nat) (p : list nat) : list nat :=
  replicate (n - occ 0 p) 0 ++ replicate (n - occ 1 p) 1 ++ replicate (n - occ 2 p) 2.

(** [path p l z]: [l] lists the successors of [p] one after the other and
    ends in [z]. *)
Fixpoint path (p : list nat) (l : list (list nat)) (z : list nat) : Prop :=
  match l with
  | [] => p = z
  | q :: l' => incr p = Some q ∧ path q l' z
  end.


(** The guard [|x| > eps12] of line 237. *)
Definition above_eps12 (x : float) : Prop := PrimFloat.ltb eps12 (abs x) = true.

Section OrbitVocabulary.

Variables (n nat_ natmin : nat) (map_p2s : list (list nat)).

(** [atmn_mapped] of line 222. *)
Definition map_atoms (atmn : list nat) (op : SymmOp) : list nat :=
  map (λ i, nth (nth i atmn 0) (mapping op) 0) (seq 0 n).

(** The canonical index that operation [op] and the assignment [xyz2] give
    to the cluster [atmn] (lines 238-247). *)
Definition image (atmn : list nat) (op : SymmOp) (xyz2 : list nat) : list nat :=
  canonicalize n nat_ natmin map_p2s (flatten n (map_atoms atmn op) xyz2).

(** The slots that lines 275-292 put in front, in the order of the loop. *)
Fixpoint extra_slots (K : list nat) (is_searched : list bool) (slots : list nat)
    : list nat :=
  match slots with
  | [] => []
  | i :: slots' =>
      if negb (nth (nth i K 0) is_searched false)
         && is_inprim_index (nth i K 0) natmin map_p2s
      then i :: extra_slots K (<[nth i K 0 := true]> is_searched) slots'
      else extra_slots K is_searched slots'
  end.

(** The entries that lines 261-292 append for a newly found index [K]. *)
Definition new_entries (K : list nat) (c : float) (m : N) : list FcProperty :=
  mkFc K c m
  :: map (λ i, mkFc (sort_tail (swap 0 i K)) c m)
         (extra_slots K (<[nth 0 K 0 := true]> (replicate (3 * nat_) false))
                      (seq 1 (n - 1))).

(** Entry [e] of orbit [m] is the image of the generating index
    [(atmn, xyz1)] under [op] with the assignment [xyz2]: the operation
    passes the primitive-cell guard, the coefficient passes the [eps12]
    guard and is the sign of [e], and the index of [e] is the canonical
    image or the image with another primitive-cell slot in front. *)
Definition generated_by (m : N) (atmn xyz1 : list nat) (op : SymmOp)
    (xyz2 : list nat) (e : FcProperty) : Prop :=
  is_inprim n (map_atoms atmn op) natmin map_p2s = true
  ∧ PrimFloat.ltb eps12 (abs (coef_sym n (rot op) xyz1 xyz2)) = true
  ∧ mother e = m
  ∧ sign e = coef_sym n (rot op) xyz1 xyz2
  ∧ (elems e = image atmn op xyz2
     ∨ ∃ i, 1 ≤ i < n
            ∧ is_inprim_index (nth i (image atmn op xyz2) 0) natmin map_p2s = true
            ∧ elems e = sort_tail (swap 0 i (image atmn op xyz2))).

(** The test of lines 249-256 for one operation and one assignment, with
    the tolerance [tol] on the distance of the coefficient to -1. *)
Definition maps_to_minus_self (tol : float) (atmn ind xyz1 : list nat)
    (op : SymmOp) (xyz2 : list nat) : bool :=
  forallb (λ i, nth i ind 0 =? nth i (image atmn op xyz2) 0) (seq 0 n)
  && PrimFloat.ltb (abs (coef_sym n (rot op) xyz1 xyz2 + 1)) tol.

(** An index tuple the canonical form is defined on: [n] indices of the
    supercell, at least one of them of a primitive-cell atom. *)
Definition valid_index (arr : list nat) : Prop :=
  length arr = n
  ∧ Forall (λ x, x < 3 * nat_) arr
  ∧ Exists (λ x, is_inprim_index x natmin map_p2s = true) arr.

(** The invariant of the table: no index twice, and every entry comes with
    the entry of its canonical index, same sign and same orbit, which is
    registered in [found]. *)
Definition keyed (found : gset (list nat)) (fc : list FcProperty) : Prop :=
  NoDup (elems <$> fc)
  ∧ ∀ e, e ∈ fc →
      valid_index (elems e)
      ∧ canonicalize n nat_ natmin map_p2s (elems e) ∈ found
      ∧ mkFc (canonicalize n nat_ natmin map_p2s (elems e)) (sign e) (mother e) ∈ fc.

Variable xyzcomponent : list (list nat).

(** The search of one orbit (lines 218-298) from the state of the table. *)
Definition scan_orbit (ops : list SymmOp)
    (st : table_state) (atmn xyz1 : list nat) : orbit_state :=
  foldl (scan_symmetry n nat_ natmin map_p2s xyzcomponent (nmother st) atmn
           (canonicalize n nat_ natmin map_p2s (flatten n atmn xyz1)) xyz1)
        (mkOrbit (list_found st) (fc_vec st) 0 false) ops.

(** What one search appends: [added] entries, counted by [ndeps], each the
    image of the generating index under an operation of [ops]. *)
Definition appended (ops : list SymmOp) (st : table_state) (atmn xyz1 : list nat)
    (o : orbit_state) (added : list FcProperty) : Prop :=
  o_fc o = fc_vec st ++ added
  ∧ ndeps o = length added
  ∧ list_found st ⊆ o_found o
  ∧ Forall (λ e, ∃ op xyz2, op ∈ ops ∧ xyz2 ∈ xyzcomponent
                 ∧ generated_by (nmother st) atmn xyz1 op xyz2 e) added.

(** Every entry of the table is the image of the generating index of its
    orbit; [gens] lists the generating indices by identifier. *)
Definition generated_table (ops : list SymmOp) (pairs : list (list nat))
    (st : table_state) (gens : list (list nat * list nat)) : Prop :=
  length gens = N.to_nat (nmother st)
  ∧ Forall (λ g, ∃ pair, pair ∈ pairs
                 ∧ g.1 = map (λ i, nth i pair 0) (seq 0 n)
                 ∧ g.2 ∈ xyzcomponent) gens
  ∧ Forall (λ e, ∃ atmn xyz1 op xyz2,
                 gens !! N.to_nat (mother e) = Some (atmn, xyz1)
                 ∧ op ∈ ops ∧ xyz2 ∈ xyzcomponent
                 ∧ generated_by (mother e) atmn xyz1 op xyz2 e) (fc_vec st)
  ∧ Forall (λ e, above_eps12 (sign e)) (fc_zeros_out st).

(** An orbit is flagged exactly when some operation of [ops] maps its
    index to itself with a coefficient within [tol] of -1, as a statement
    about the search of the orbit of [(atmn, xyz1)] from the table [st]. *)
Definition zero_iff_self_map (tol : float) (ops : list SymmOp) (st : table_state)
    (atmn xyz1 : list nat) : Prop :=
  is_zero (scan_orbit ops st atmn xyz1) = true
  ↔ ∃ op xyz2, op ∈ ops ∧ xyz2 ∈ xyzcomponent
      ∧ maps_to_minus_self tol atmn
          (canonicalize n nat_ natmin map_p2s (flatten n atmn xyz1)) xyz1 op xyz2
        = true.


End OrbitVocabulary.

(** *** Constraint rows *)

(** A candidate row lists its columns in ascending order. *)
Definition ascending_columns (it : ConstEntry) : Prop :=
  StronglySorted lt (col <$> it).

(** The row that lines 524-533 emit for the candidate [it]: every value
    times the division factor [1 / val] of the first element. *)
Definition scale_row (it : ConstEntry) : ConstDoubleEntry :=
  match it with
  | [] => ∅
  | first :: _ =>
      foldl (λ m it2, <[col it2 := (val it2 * (1 / val first))%float]> m) ∅ it
  end.

(** The reducer that leaves the rows as they are. *)
Definition no_reduction : nat → list ConstDoubleEntry → float → list ConstDoubleEntry :=
  λ _ const_out _, const_out.

(** *** Binary64 values *)

(** A float that [is_allzero] does not see: a zero or the NaN. *)
Definition null (x : float) : Prop :=
  match Prim2SF x with
  | S754_zero _ | S754_nan => True
  | _ => False
  end.

Definition is_nan (x : float) : Prop := Prim2SF x = S754_nan.



(** The identity matrix, and the identity among the selected operations
    of a supercell of [nat_] atoms. *)
Definition identity3 : list (list float) := [[1; 0; 0]; [0; 1; 0]; [0; 0; 1]]%float.

Definition identity_operation (nat_ : nat) (op : SymmOp) : Prop :=
  rot op = identity3 ∧ ∀ a, a < nat_ → nth a (mapping op) 0 = a.


(** *** The layout of the table *)

(** The identifiers of a table laid out orbit by orbit: [c] copies of each
    identifier for the count [c] of its orbit, counting from [k]. *)
Fixpoint block_labels (k : N) (nd : list nat) : list N :=
  match nd with
  | [] => []
  | c :: nd' => replicate c k ++ block_labels (k + 1) nd'
  end.

(** The ranges of [fc_vec] that the counts [nd] delimit, as the loops of
    lines 330-339 and the readers of the table walk them. *)
Fixpoint blocks (nd : list nat) (fc : list FcProperty) : list (list FcProperty) :=
  match nd with
  | [] => []
  | c :: nd' => take c fc :: blocks nd' (drop c fc)
  end.

(** *** Live and zero entries together *)

Section EntryVocabulary.

Variables (n nat_ natmin : nat) (map_p2s : list (list nat)).

(** The form of the index of an entry: [n] indices of the supercell, the
    first of them of a primitive-cell atom. *)
Definition entry_shape (arr : list nat) : Prop :=
  length arr = n
  ∧ Forall (λ x, x < 3 * nat_) arr
  ∧ is_inprim_index (nth 0 arr 0) natmin map_p2s = true.

(** The invariant of the indices [idx] of all entries, live and zero: no
    index twice, every index of the form above, and its canonical form
    registered in [found]. *)
Definition indexed (found : gset (list nat)) (idx : list (list nat)) : Prop :=
  NoDup idx
  ∧ ∀ K, K ∈ idx →
      valid_index n nat_ natmin map_p2s K
      ∧ is_inprim_index (nth 0 K 0) natmin map_p2s = true
      ∧ canonicalize n nat_ natmin map_p2s K ∈ found.

(** The clusters that touch the primitive cell: [n] atoms of the
    supercell, one of them in the primitive cell. *)
Definition cluster_in_range (pair : list nat) : Prop :=
  (∀ i, i < n → nth i pair 0 < nat_)
  ∧ is_inprim n pair natmin map_p2s = true.

End EntryVocabulary.

(** *** Selected operations *)

(** The column [counter] of the outputs of [get_available_symmop]: the
    3x3 block of [matrix] and the atom mapping of operation [counter]. *)
Definition symmop_column (nat_ : nat) (map_sym : list (list nat))
    (matrix : list (list float)) (counter : nat) : SymmOp :=
  {| rot := map (λ i, map (λ j, nth j (nth i matrix []) 0%float) (seq 0 3)) (seq 0 3);
     mapping := map (λ i, nth counter (nth i map_sym []) 0) (seq 0 nat_) |}.

(** The flag and the matrix that [get_available_symmop] reads for a basis
    it knows. *)
Definition basis_flag (basis : string) : SymmetryOperation → bool :=
  if String.eqb basis "Cartesian" then compatible_with_cartesian
  else compatible_with_lattice.

Definition basis_matrix (basis : string) (it : SymmetryOperation)
    : list (list float) :=
  if String.eqb basis "Cartesian" then rotation_cart it
  else map (map Z_to_float) (rotation it).

(** *** Integers *)

(** [n!] as an integer. *)
Fixpoint Zfact (n : nat) : Z :=
  match n with
  | 0 => 1%Z
  | S n' => (Z.of_nat n * Zfact n')%Z
  end.

(** The product of the factorials of the multiplicities in [l] of the
    values listed in [d]. *)
Definition multiplicity_product (l d : list nat) : Z :=
  foldr (λ v acc, (Zfact (occ v l) * acc)%Z) 1%Z d.

(** *** The description of the constraints *)

(** Order [i] of a constraint description assigns every parameter at most
    once: the fixed parameters, the right sides of the bimap and the
    targets of the relations are pairwise distinct parameters below [size],
    and the relations combine parameters below [size] that are not targets
    of relations. *)
Definition assigned_once (size : nat) (constraint : Recover.Constraint) (i : nat)
    : Prop :=
  let fixed := Recover.ConstraintTypeFix.p_index_target
                 <$> nth i (Recover.const_fix constraint) [] in
  let free := snd <$> nth i (Recover.index_bimap constraint) [] in
  let related := Recover.ConstraintTypeRelate.p_index_target
                   <$> nth i (Recover.const_relate constraint) [] in
  NoDup (fixed ++ free ++ related)
  ∧ Forall (λ p, p < size) (fixed ++ free ++ related)
  ∧ Forall (λ r, ∀ k, k < length (Recover.ConstraintTypeRelate.alpha r) →
                   nth k (Recover.ConstraintTypeRelate.p_index_orig r) 0 < size
                   ∧ nth k (Recover.ConstraintTypeRelate.p_index_orig r) 0 ∉ related)
           (nth i (Recover.const_relate constraint) []).

(** What the expansion leaves of order [i] in the parameters [po]: the fixed
    values, the fitted parameters at the places of the bimap, and every
    relation's target at minus its combination. The offsets count the
    parameters and the fitted parameters of the orders before. *)
Definition expanded (param_in : list float) (nequiv : list (list nat))
    (constraint : Recover.Constraint) (po : list float) (i : nat) : Prop :=
  (∀ f, f ∈ nth i (Recover.const_fix constraint) [] →
        po !! (Recover.ConstraintTypeFix.p_index_target f
               + Recover.total_size nequiv i)
        = Some (Recover.ConstraintTypeFix.val_to_fix f))
  ∧ (∀ it, it ∈ nth i (Recover.index_bimap constraint) [] →
           po !! (it.2 + Recover.total_size nequiv i)
           = Some (nth (it.1 + Recover.total_size (Recover.index_bimap constraint) i)
                       param_in 0%float))
  ∧ (∀ r, r ∈ nth i (Recover.const_relate constraint) [] →
          po !! (Recover.ConstraintTypeRelate.p_index_target r
                 + Recover.total_size nequiv i)
          = Some (PrimFloat.opp
                    (Recover.combination (Recover.total_size nequiv i) po r))).

(** ** Concrete inputs *)

Module Inputs.

(** The mirror that flips the second axis. *)
Definition mirror_y : list (list float) := [[1; 0; 0]; [0; -1; 0]; [0; 0; 1]]%float.

(** The same mirror with a rounding error of 2^-31 in its entry -1. *)
Definition noisy_mirror_y : list (list float) :=
  [[1; 0; 0]; [0; -0x1.fffffffcp-1; 0]; [0; 0; 1]]%float.

Definition cartesian_op (r : list (list float)) : SymmetryOperation :=
  mkSymmetryOperation [] r true true.

(** One atom, the identity and a mirror that fixes it. *)
Definition site : Symmetry :=
  mkSymmetry [cartesian_op identity3; cartesian_op mirror_y] [[0; 0]] 1 [[0]].

Definition site_ops : list SymmOp :=
  [mkSymmOp identity3 [0]; mkSymmOp mirror_y [0]].

Definition noisy_site_ops : list SymmOp :=
  [mkSymmOp identity3 [0]; mkSymmOp noisy_mirror_y [0]].

(** A chain of three primitive cells with one atom each, atom 0 in the
    primitive cell, and its three translations. *)
Definition chain3 : Symmetry :=
  mkSymmetry [cartesian_op identity3; cartesian_op identity3; cartesian_op identity3]
             [[0; 1; 2]; [1; 2; 0]; [2; 0; 1]] 1 [[0]].

(** The translations of [chain3] as [get_available_symmop] selects them. *)
Definition chain3_ops : list SymmOp :=
  [mkSymmOp identity3 [0; 1; 2]; mkSymmOp identity3 [1; 2; 0];
   mkSymmOp identity3 [2; 0; 1]].

(** One atom with the identity, compatible with the Cartesian basis, and
    linear maps that are not: [shear_a] and [shear_b] send y to a
    combination of y and z, [stretch] multiplies y by 50. *)
Definition shear_a : list (list float) := [[1; 0; 0]; [0; 0.5; 0]; [0; 0.5; 1]]%float.
Definition shear_b : list (list float) := [[1; 0; 0]; [0; 0.75; 0]; [0; 0.25; 1]]%float.
Definition stretch : list (list float) := [[1; 0; 0]; [0; 50; 0]; [0; 0; 1]]%float.

Definition incompatible_op (r : list (list float)) : SymmetryOperation :=
  mkSymmetryOperation [] r true false.

Definition sheared_site : Symmetry :=
  mkSymmetry [cartesian_op identity3; incompatible_op shear_a; incompatible_op shear_b]
             [[0; 0; 0]] 1 [[0]].

Definition stretched_site : Symmetry :=
  mkSymmetry [cartesian_op identity3; incompatible_op stretch] [[0; 0]] 1 [[0]].

(** The table of the on-site pair under the identity alone: six orbits. *)
Definition site_table : list FcProperty :=
  [mkFc [0; 0] 1 0; mkFc [0; 1] 1 1; mkFc [1; 0] 1 1; mkFc [0; 2] 1 2;
   mkFc [2; 0] 1 2; mkFc [1; 1] 1 3; mkFc [1; 2] 1 4; mkFc [2; 1] 1 4;
   mkFc [2; 2] 1 5].


Definition empty_table : table_state := mkTable ∅ [] [] [] 0.

End Inputs.

(** ** The component enumerator *)

Section Enumerator.

Lemma swap_last_greater_none x l :
  Forall (λ y, y ≤ x) l → swap_last_greater x l = None.
Proof.
  induction 1 as [|y l Hy _ IH]; simpl; [done|].
  rewrite IH. destruct (Nat.ltb_spec x y); [lia|done].
Qed.

Lemma swap_last_greater_app x l1 l2 :
  swap_last_greater x (l1 ++ l2) =
    match swap_last_greater x l2 with
    | Some (z, l2') => Some (z, l1 ++ l2')
    | None => (λ '(z, l1'), (z, l1' ++ l2)) <$> swap_last_greater x l1
    end.
Proof.
  induction l1 as [|y l1 IH]; simpl.
  - by destruct (swap_last_greater x l2) as [[??]|].
  - rewrite IH. destruct (swap_last_greater x l2) as [[??]|]; [done|].
    destruct (swap_last_greater x l1) as [[??]|]; simpl; [done|].
    by destruct (x <? y).
Qed.

Lemma swap_last_greater_replicate x y k :
  x < y → swap_last_greater x (replicate (S k) y) = Some (y, replicate k y ++ [x]).
Proof.
  intros Hxy. induction k as [|k IH].
  - simpl. by destruct (Nat.ltb_spec x y); [|lia].
  - change (replicate (S (S k)) y) with (y :: replicate (S k) y).
    simpl swap_last_greater. simpl in IH. by rewrite IH.
Qed.

Lemma next_perm_app r l l' :
  next_perm l = Some l' → next_perm (r ++ l) = Some (r ++ l').
Proof. intros H. induction r as [|x r IH]; simpl; [done|]. by rewrite IH. Qed.

Lemma next_perm_descending l : Sorted ge l → next_perm l = None.
Proof.
  induction 1 as [|x l _ IH Hhd]; simpl; [done|].
  rewrite IH. destruct Hhd as [|y l Hxy]; [done|].
  destruct (Nat.ltb_spec x y); [lia|done].
Qed.

Lemma descending_replicate k x : StronglySorted ge (replicate k x).
Proof. induction k; simpl; constructor; [done|]. apply Forall_replicate. lia. Qed.

Lemma descending_blocks c b a :
  Sorted ge (replicate c 2 ++ replicate b 1 ++ replicate a 0).
Proof.
  apply (StronglySorted_Sorted (R:=ge)).
  apply StronglySorted_app_2; [|apply descending_replicate|].
  - intros x y Hx%elem_of_replicate Hy%elem_of_app.
    destruct Hy as [Hy%elem_of_replicate|Hy%elem_of_replicate]; lia.
  - apply StronglySorted_app_2; [|apply descending_replicate..].
    intros x y Hx%elem_of_replicate Hy%elem_of_replicate. lia.
Qed.

Lemma replicate_middle {A} k (x : A) l :
  replicate k x ++ x :: l = x :: replicate k x ++ l.
Proof. induction k as [|k IH]; simpl; [done|]. by rewrite IH. Qed.

(** The pivot step on a descending block tail. *)
Lemma next_perm_pivot d c b a :
  d < 2 → 1 ≤ c → (d = 0 → 1 ≤ b) →
  next_perm (d :: replicate c 2 ++ replicate b 1 ++ replicate a 0) =
    Some (S d :: if d =? 0
                 then replicate (S a) 0 ++ replicate (b - 1) 1 ++ replicate c 2
                 else replicate a 0 ++ replicate (S b) 1 ++ replicate (c - 1) 2).
Proof.
  intros Hd Hc Hb. simpl next_perm.
  rewrite (next_perm_descending _ (descending_blocks c b a)).
  destruct c as [|c]; [lia|]. simpl replicate at 1. simpl app at 1.
  destruct (Nat.ltb_spec d 2) as [_|]; [|lia].
  change (2 :: replicate c 2 ++ replicate b 1 ++ replicate a 0)
    with (replicate (S c) 2 ++ replicate b 1 ++ replicate a 0).
  destruct d as [|[|d]]; [| |lia].
  - destruct b as [|b]; [lia|].
    rewrite (swap_last_greater_app _ (replicate (S c) 2)).
    rewrite (swap_last_greater_app _ (replicate (S b) 1)).
    rewrite (swap_last_greater_none 0 (replicate a 0)) by (apply Forall_replicate; lia).
    rewrite swap_last_greater_replicate by lia. simpl fmap.
    f_equal. f_equal. simpl Nat.eqb. cbv iota.
    rewrite !reverse_app, !reverse_replicate. simpl reverse.
    rewrite Nat.sub_succ, Nat.sub_0_r, <-!(assoc_L (++)). simpl.
    by rewrite replicate_middle.
  - rewrite (swap_last_greater_app _ (replicate (S c) 2)).
    rewrite (swap_last_greater_none 1 (replicate b 1 ++ replicate a 0)).
    2:{ apply Forall_app; split; apply Forall_replicate; lia. }
    rewrite swap_last_greater_replicate by lia. simpl fmap.
    f_equal. f_equal. simpl Nat.eqb. cbv iota.
    rewrite !reverse_app, !reverse_replicate. simpl reverse.
    rewrite Nat.sub_succ, Nat.sub_0_r, <-!(assoc_L (++)). simpl.
    by rewrite replicate_middle.
Qed.

Lemma occ_app d l1 l2 : occ d (l1 ++ l2) = occ d l1 + occ d l2.
Proof. unfold occ. by rewrite filter_app, length_app. Qed.

Lemma occ_cons d x l : occ d (x :: l) = (if decide (x = d) then 1 else 0) + occ d l.
Proof. unfold occ. rewrite filter_cons. by destruct (decide (x = d)). Qed.

Lemma occ_replicate d k x : occ d (replicate k x) = if decide (x = d) then k else 0.
Proof.
  induction k as [|k IH]; simpl; [by destruct (decide _)|].
  rewrite occ_cons, IH. by destruct (decide (x = d)).
Qed.

Lemma occ_le d l : occ d l ≤ length l.
Proof. apply length_filter. Qed.

Lemma incr_spec p :
  Forall (λ d, d < 3) p →
  match incr p with
  | Some p' => ∃ r d m, p = r ++ d :: replicate m 2 ∧ d < 2
                        ∧ p' = r ++ S d :: replicate m 0
  | None => p = replicate (length p) 2
  end.
Proof.
  induction 1 as [|d q Hd _ IH]; simpl; [done|].
  destruct (incr q) as [q'|].
  - destruct IH as (r & d' & m & -> & ? & ->). by exists (d :: r), d', m.
  - destruct (Nat.ltb_spec d 2).
    + exists [], d, (length q). simpl. by rewrite <-IH.
    + rewrite <-IH. f_equal. lia.
Qed.

Lemma incr_length p p' : incr p = Some p' → length p' = length p.
Proof.
  revert p'. induction p as [|d q IH]; intros p'; simpl; [done|].
  destruct (incr q) as [q'|].
  - intros [= <-]. simpl. by rewrite (IH q').
  - destruct (d <? 2); intros [= <-]. simpl. by rewrite length_replicate.
Qed.

Lemma incr_digits p p' :
  Forall (λ d, d < 3) p → incr p = Some p' → Forall (λ d, d < 3) p'.
Proof.
  intros Hp Hi. pose proof (incr_spec p Hp) as Hs. rewrite Hi in Hs.
  destruct Hs as (r & d & m & -> & ? & ->).
  apply Forall_app in Hp as [Hr _].
  apply Forall_app; split; [done|]. constructor; [lia|].
  apply Forall_replicate. lia.
Qed.

(** One step of the generator on a well-formed buffer is the successor of
    the prefix in the lexicographic order of ternary words. *)
Lemma next_partial_permutation_incr n p p' :
  length p = n → Forall (λ d, d < 3) p → incr p = Some p' →
  next_partial_permutation n (p ++ tail_of n p) = (p' ++ tail_of n p', true).
Proof.
  intros Hn Hp Hi. pose proof (incr_spec p Hp) as Hs. rewrite Hi in Hs.
  destruct Hs as (r & d & m & -> & Hd & ->).
  unfold next_partial_permutation, next_permutation.
  rewrite take_app_length', drop_app_length' by done.
  unfold tail_of. rewrite !occ_app, !occ_cons, !occ_replicate.
  rewrite length_app in Hn. simpl in Hn. rewrite length_replicate in Hn.
  pose proof (occ_le 0 r). pose proof (occ_le 1 r). pose proof (occ_le 2 r).
  rewrite !reverse_app, !reverse_replicate, <-!(assoc_L (++)).
  simpl app at 2.
  rewrite (assoc_L (++) (replicate m 2)), <-replicate_add.
  erewrite next_perm_app; [|apply next_perm_pivot; [done|..]].
  2:{ destruct d as [|[|?]]; simpl; lia. }
  2:{ intros ->. simpl. lia. }
  f_equal. f_equal. simpl app. f_equal.
  destruct d as [|[|?]]; [| |lia]; simpl Nat.eqb; cbv iota; simpl decide;
    repeat (case_decide; try lia); simpl.
  - rewrite (assoc_L (++) (replicate m 0)), <-replicate_add.
    change (0 :: replicate ?k 0 ++ ?l) with (replicate (S k) 0 ++ l).
    f_equal; [f_equal; lia|]. f_equal; f_equal; lia.
  - rewrite (assoc_L (++) (replicate m 0)), <-replicate_add.
    change (1 :: replicate ?k 1 ++ ?l) with (replicate (S k) 1 ++ l).
    f_equal; [f_equal; lia|]. f_equal; f_equal; lia.
Qed.

Lemma next_partial_permutation_last n p :
  length p = n → Forall (λ d, d < 3) p → incr p = None →
  snd (next_partial_permutation n (p ++ tail_of n p)) = false.
Proof.
  intros Hn Hp Hi. pose proof (incr_spec p Hp) as Hs. rewrite Hi in Hs.
  unfold next_partial_permutation, next_permutation.
  rewrite take_app_length', drop_app_length' by done.
  rewrite Hs, Hn. unfold tail_of. rewrite !occ_replicate. simpl.
  rewrite !reverse_app, !reverse_replicate, <-!(assoc_L (++)).
  rewrite (assoc_L (++) (replicate n 2)), <-replicate_add.
  by rewrite (next_perm_descending _ (descending_blocks _ _ _)).
Qed.

Lemma path_app p l1 q q2 l2 z :
  path p l1 q → incr q = Some q2 → path q2 l2 z → path p (l1 ++ q2 :: l2) z.
Proof.
  revert p. induction l1 as [|x l1 IH]; intros p; simpl.
  - by intros ->.
  - intros [? ?]. split; [done|]. by apply IH.
Qed.

Lemma path_cons d p l z : path p l z → path (d :: p) (cons d <$> l) (d :: z).
Proof.
  revert p. induction l as [|x l IH]; intros p; simpl.
  - by intros ->.
  - intros [-> ?]. split; [done|]. by apply IH.
Qed.

Lemma incr_twos n : incr (replicate n 2) = None.
Proof. induction n as [|n IH]; simpl; [done|]. by rewrite IH. Qed.

Lemma words_path n :
  ∃ l, words n = replicate n 0 :: l ∧ path (replicate n 0) l (replicate n 2).
Proof.
  induction n as [|n (l & Hw & Hp)].
  - by exists [].
  - exists ((cons 0 <$> l) ++ (1 :: replicate n 0) :: (cons 1 <$> l)
            ++ (2 :: replicate n 0) :: (cons 2 <$> l)).
    split.
    + simpl. rewrite Hw. simpl. by rewrite app_nil_r.
    + assert (∀ d, d < 2 →
        incr (d :: replicate n 2) = Some (S d :: replicate n 0)) as Hstep.
      { intros d Hd. simpl. rewrite incr_twos, length_replicate.
        by destruct (Nat.ltb_spec d 2); [|lia]. }
      change (replicate (S n) 0) with (0 :: replicate n 0).
      change (replicate (S n) 2) with (2 :: replicate n 2).
      eapply path_app; [by apply path_cons|by apply Hstep; lia|].
      eapply path_app; [by apply path_cons|by apply Hstep; lia|].
      by apply path_cons.
Qed.

Lemma xyz_loop_path n l : ∀ p rows,
  length p = n → Forall (λ d, d < 3) p → path p l (replicate n 2) →
  length l < rows →
  xyz_loop rows n (p ++ tail_of n p) = Some (p :: l).
Proof.
  induction l as [|q l IH]; intros p rows Hn Hp Hpath Hrows;
    (destruct rows as [|rows]; [simpl in Hrows; lia|]); simpl xyz_loop.
  - simpl in Hpath. subst p.
    pose proof (next_partial_permutation_last n _ Hn Hp (incr_twos n)) as Hl.
    destruct (next_partial_permutation _ _) as [v' more]. simpl in Hl. subst more.
    by rewrite take_app_length'.
  - destruct Hpath as [Hi Hpath].
    rewrite (next_partial_permutation_incr n p q Hn Hp Hi).
    rewrite take_app_length' by done.
    rewrite (IH q rows); [done| | |done|simpl in Hrows; lia].
    + by rewrite (incr_length _ _ Hi).
    + by eapply incr_digits.
Qed.

Lemma words_length n : length (words n) = 3 ^ n.
Proof.
  induction n as [|n IH]; [done|].
  simpl words. rewrite !length_app, !length_fmap, IH. simpl. lia.
Qed.

Lemma elem_of_words n w :
  w ∈ words n ↔ length w = n ∧ Forall (λ d, d < 3) w.
Proof.
  revert w. induction n as [|n IH]; intros w; simpl words.
  - rewrite list_elem_of_singleton. split.
    + by intros ->.
    + intros [Hl _]. by apply nil_length_inv.
  - rewrite !elem_of_app, !list_elem_of_fmap. setoid_rewrite IH. split.
    + intros [(q & -> & ? & ?)|[(q & -> & ? & ?)|[(q & -> & ? & ?)|[]%elem_of_nil]]];
        (split; [simpl; lia|constructor; [lia|done]]).
    + intros [Hl Hd]. destruct w as [|d q]; [done|].
      apply Forall_cons in Hd as [Hd Hq]. simpl in Hl.
      destruct d as [|[|[|?]]]; [| | |lia].
      * left. exists q. split; [done|]. split; [lia|done].
      * right; left. exists q. split; [done|]. split; [lia|done].
      * right; right; left. exists q. split; [done|]. split; [lia|done].
Qed.

Lemma words_NoDup n : NoDup (words n).
Proof.
  induction n as [|n IH]; simpl words.
  - apply NoDup_singleton.
  - rewrite app_nil_r.
    assert (∀ d, NoDup (cons d <$> words n)) as Hd.
    { intros d. apply NoDup_fmap_2; [|done]. by intros ?? [=]. }
    apply NoDup_app; split; [apply Hd|]. split.
    + intros w (q & -> & _)%list_elem_of_fmap
        [(q' & [=] & _)%list_elem_of_fmap|(q' & [=] & _)%list_elem_of_fmap]%elem_of_app.
    + apply NoDup_app; split; [apply Hd|]. split; [|apply Hd].
      intros w (q & -> & _)%list_elem_of_fmap (q' & [=] & _)%list_elem_of_fmap.
Qed.

Lemma get_xyzcomponent_words n : get_xyzcomponent n = Some (words n).
Proof.
  destruct (words_path n) as (l & Hw & Hp). unfold get_xyzcomponent.
  replace (replicate n 1 ++ replicate n 2) with (tail_of n (replicate n 0)).
  - rewrite Hw. apply xyz_loop_path; [by rewrite length_replicate| |done|].
    + apply Forall_replicate. lia.
    + pose proof (words_length n) as Hl. rewrite Hw in Hl. simpl in Hl. lia.
  - unfold tail_of. rewrite !occ_replicate. simpl.
    by rewrite Nat.sub_diag, !Nat.sub_0_r.
Qed.

End Enumerator.

Example get_xyzcomponent_2 :
  get_xyzcomponent 2
  = Some [[0; 0]; [0; 1]; [0; 2]; [1; 0]; [1; 1]; [1; 2]; [2; 0]; [2; 1]; [2; 2]].
Proof. vm_compute. reflexivity. Qed.

(** C9: for every number of slots [n], [get_xyzcomponent] returns without
    overrunning its buffer of [3^n] rows, and the rows are exactly the
    [3^n] assignments of an axis in {0,1,2} to each of the [n] slots: none
    twice, none missing. *)
Theorem get_xyzcomponent_complete (n : nat) :
  ∃ xyz, get_xyzcomponent n = Some xyz
         ∧ length xyz = 3 ^ n
         ∧ NoDup xyz
         ∧ ∀ w, w ∈ xyz ↔ length w = n ∧ Forall (λ d, d < 3) w.
Proof.
  exists (words n). split; [apply get_xyzcomponent_words|].
  split; [apply words_length|]. split; [apply words_NoDup|].
  apply elem_of_words.
Qed.

(** ** The orbit builder *)

Lemma foldl_invariant {A B} (P : A → Prop) (f : A → B → A) (l : list B) (a : A) :
  P a → (∀ a x, x ∈ l → P a → P (f a x)) → P (foldl f a l).
Proof.
  revert a. induction l as [|x l IH]; intros a Ha Hf; simpl; [done|].
  apply IH.
  - apply Hf; [left|done].
  - intros a' y Hy. apply Hf. by right.
Qed.

Section OrbitFacts.

Variables (n nat_ natmin : nat) (map_p2s : list (list nat)).
Variable xyzcomponent : list (list nat).

Local Abbreviation visit' := (visit n nat_ natmin map_p2s).
Local Abbreviation scan_symmetry' := (scan_symmetry n nat_ natmin map_p2s xyzcomponent).
Local Abbreviation search_orbit' := (search_orbit n nat_ natmin map_p2s xyzcomponent).
Local Abbreviation search_cluster' := (search_cluster n nat_ natmin map_p2s xyzcomponent).
Local Abbreviation new_entries' := (new_entries n nat_ natmin map_p2s).
Local Abbreviation extra_slots' := (extra_slots natmin map_p2s).
Local Abbreviation image' := (image n nat_ natmin map_p2s).
Local Abbreviation scan_orbit' := (scan_orbit n nat_ natmin map_p2s xyzcomponent).
Local Abbreviation build_table' := (build_table n nat_ natmin map_p2s xyzcomponent).
Local Abbreviation generated_by' := (generated_by n nat_ natmin map_p2s).
Local Abbreviation appended' := (appended n nat_ natmin map_p2s xyzcomponent).
Local Abbreviation generated_table' := (generated_table n nat_ natmin map_p2s xyzcomponent).

(** The loop of lines 275-292 appends one entry per chosen slot. *)
Lemma add_permutation_fold c m K slots : ∀ is_searched fc nd,
  ∃ is_searched',
    foldl (add_permutation natmin map_p2s c m K) (is_searched, fc, nd) slots =
      (is_searched',
       fc ++ map (λ i, mkFc (sort_tail (swap 0 i K)) c m)
                 (extra_slots' K is_searched slots),
       nd + length (extra_slots' K is_searched slots)).
Proof.
  induction slots as [|i slots IH]; intros s fc nd; simpl.
  - exists s. by rewrite app_nil_r, Nat.add_0_r.
  - destruct (negb (nth (nth i K 0) s false)
              && is_inprim_index (nth i K 0) natmin map_p2s).
    + destruct (IH (<[nth i K 0 := true]> s)
                   (fc ++ [mkFc (sort_tail (swap 0 i K)) c m]) (S nd))
        as [s' ->].
      exists s'. simpl. rewrite <-(assoc_L (++)). simpl. do 2 f_equal. lia.
    + apply IH.
Qed.

(** [visit] either leaves the entries alone or appends [new_entries]. *)
Lemma visit_unfold m ind xyz1 rot atmn_mapped st xyz2 :
  let c := coef_sym n rot xyz1 xyz2 in
  let K := canonicalize n nat_ natmin map_p2s (flatten n atmn_mapped xyz2) in
  let zero := if is_zero st then true
              else forallb (λ i, nth i ind 0 =? nth i K 0) (seq 0 n)
                   && PrimFloat.ltb (abs (c + 1)) eps8 in
  visit' m ind xyz1 rot atmn_mapped st xyz2 =
    if PrimFloat.ltb eps12 (abs c) then
      if bool_decide (K ∈ o_found st)
      then mkOrbit (o_found st) (o_fc st) (ndeps st) zero
      else mkOrbit ({[K]} ∪ o_found st) (o_fc st ++ new_entries' K c m)
                   (ndeps st + length (new_entries' K c m)) zero
    else st.
Proof.
  intros c K zero. unfold visit. fold c. fold K.
  destruct (PrimFloat.ltb eps12 (abs c)); [|done]. fold zero.
  destruct (bool_decide (K ∈ o_found st)); [done|].
  destruct (add_permutation_fold c m K (seq 1 (n - 1))
              (<[nth 0 K 0 := true]> (replicate (3 * nat_) false))
              (o_fc st ++ [mkFc K c m]) (S (ndeps st))) as [s' ->].
  unfold new_entries. f_equal.
  - by rewrite <-(assoc_L (++)).
  - cbn [length]. rewrite length_map. lia.
Qed.

Lemma extra_slots_spec K slots i : ∀ is_searched,
  i ∈ extra_slots' K is_searched slots →
  i ∈ slots ∧ is_inprim_index (nth i K 0) natmin map_p2s = true.
Proof.
  induction slots as [|j slots IH]; intros s; simpl; [by intros ?%elem_of_nil|].
  destruct (negb (nth (nth j K 0) s false)) eqn:Hs; simpl.
  - destruct (is_inprim_index (nth j K 0) natmin map_p2s) eqn:Hp.
    + intros [->|Hi]%elem_of_cons; [split; [left|done]|].
      destruct (IH _ Hi). split; [by right|done].
    + intros Hi. destruct (IH _ Hi). split; [by right|done].
  - intros Hi. destruct (IH _ Hi). split; [by right|done].
Qed.

Lemma new_entries_generated m atmn xyz1 op xyz2 e :
  is_inprim n (map_atoms n atmn op) natmin map_p2s = true →
  PrimFloat.ltb eps12 (abs (coef_sym n (rot op) xyz1 xyz2)) = true →
  e ∈ new_entries' (image' atmn op xyz2) (coef_sym n (rot op) xyz1 xyz2) m →
  generated_by' m atmn xyz1 op xyz2 e.
Proof.
  intros Hprim Hc. unfold new_entries.
  intros [->|(i & -> & Hi)%list_elem_of_fmap]%elem_of_cons.
  - repeat split; try done. by left.
  - apply extra_slots_spec in Hi as [Hi%elem_of_seq Hp].
    repeat split; try done. right. exists i. split; [lia|done].
Qed.

Lemma scan_orbit_appended ops st atmn xyz1 :
  ∃ added, appended' ops st atmn xyz1 (scan_orbit' ops st atmn xyz1) added.
Proof.
  unfold scan_orbit.
  apply (foldl_invariant (λ o, ∃ added, appended' ops st atmn xyz1 o added)).
  { exists []. unfold appended. simpl. by rewrite app_nil_r. }
  intros o op Hop Ho. unfold scan_symmetry.
  destruct (is_inprim n _ natmin map_p2s) eqn:Hprim; simpl; [|done].
  apply (foldl_invariant (λ o, ∃ added, appended' ops st atmn xyz1 o added));
    [done|].
  clear o Ho. intros o xyz2 Hxyz (added & Hfc & Hnd & Hsub & Hgen).
  rewrite visit_unfold.
  destruct (PrimFloat.ltb eps12 _) eqn:Hc; [|by exists added].
  destruct (bool_decide _); [by exists added|].
  eexists (added ++ _). unfold appended. simpl. split_and!.
  - by rewrite Hfc, <-(assoc_L (++)).
  - rewrite Hnd, length_app. done.
  - set_solver.
  - apply Forall_app; split; [done|]. apply Forall_forall. intros e He.
    exists op, xyz2. split_and!; [done..|].
    by apply new_entries_generated.
Qed.

(** [search_orbit] leaves the table alone or closes the orbit it searched. *)
Lemma search_orbit_cases ops store atmn st xyz1 :
  (search_orbit' ops store atmn st xyz1 = st)
  ∨ ((canonicalize n nat_ natmin map_p2s (flatten n atmn xyz1) ∉ list_found st)
     ∧ search_orbit' ops store atmn st xyz1 =
         close_orbit store st (scan_orbit' ops st atmn xyz1)).
Proof.
  unfold search_orbit. destruct (negb _); [by left|].
  case_bool_decide; [by left|]. by right.
Qed.

(** Any property of the table that every closed orbit preserves holds of
    the table that [build_table] returns. *)
Lemma build_table_invariant (P : table_state → Prop) ops store pairs :
  P (mkTable ∅ [] [] [] 0) →
  (∀ st pair xyz1, pair ∈ pairs → xyz1 ∈ xyzcomponent → P st →
     canonicalize n nat_ natmin map_p2s
       (flatten n (map (λ i, nth i pair 0) (seq 0 n)) xyz1) ∉ list_found st →
     P (close_orbit store st
          (scan_orbit' ops st (map (λ i, nth i pair 0) (seq 0 n)) xyz1))) →
  P (build_table' ops store pairs).
Proof.
  intros Hinit Hstep. unfold build_table.
  apply foldl_invariant; [done|]. intros st pair Hpair Hst.
  unfold search_cluster. apply foldl_invariant; [done|].
  clear st Hst. intros st xyz1 Hxyz Hst.
  destruct (search_orbit_cases ops store (map (λ i, nth i pair 0) (seq 0 n))
              st xyz1) as [->|[Hnew ->]]; [done|].
  by apply Hstep.
Qed.

(** Closing an orbit, in terms of what the search appended. *)
Lemma close_orbit_appended ops store st atmn xyz1 o added :
  appended' ops st atmn xyz1 o added →
  close_orbit store st o =
    if is_zero o then
      mkTable (o_found o) (fc_vec st) (ndup st)
        (if store then
           fc_zeros_out st
           ++ map (λ it, mkFc (elems it) (sign it) size_t_max) (reverse added)
         else fc_zeros_out st)
        (nmother st)
    else
      mkTable (o_found o) (fc_vec st ++ added) (ndup st ++ [length added])
        (fc_zeros_out st) (nmother st + 1).
Proof.
  intros (Hfc & Hnd & _ & _). unfold close_orbit. rewrite Hfc, Hnd.
  destruct (is_zero o); [|done]. f_equal.
  - rewrite length_app, Nat.add_sub. by rewrite take_app_length.
  - destruct store; [|done]. f_equal. f_equal.
    rewrite reverse_app. by rewrite take_app_length' by (by rewrite length_reverse).
Qed.

Lemma sort_orbits_Permutation nd : ∀ fc, sort_orbits nd fc ≡ₚ fc.
Proof.
  induction nd as [|k nd IH]; intros fc; simpl; [done|].
  unfold sort_fc. rewrite merge_sort_Permutation, IH. by rewrite take_drop.
Qed.

(** The counters of the table: one count per identifier, the counts add up
    to the entries, and every identifier in use was assigned. *)
Lemma build_table_counts ops store pairs :
  let st := build_table' ops store pairs in
  sum_list (ndup st) = length (fc_vec st)
  ∧ length (ndup st) = N.to_nat (nmother st)
  ∧ Forall (λ e, (mother e < nmother st)%N) (fc_vec st).
Proof.
  apply (build_table_invariant (λ st,
    sum_list (ndup st) = length (fc_vec st)
    ∧ length (ndup st) = N.to_nat (nmother st)
    ∧ Forall (λ e, (mother e < nmother st)%N) (fc_vec st))); [done|].
  intros st pair xyz1 _ _ (Hsum & Hlen & Hm) _.
  destruct (scan_orbit_appended ops st (map (λ i, nth i pair 0) (seq 0 n)) xyz1)
    as [added Happ].
  rewrite (close_orbit_appended _ _ _ _ _ _ _ Happ).
  destruct (is_zero _); simpl; [done|].
  rewrite sum_list_with_app, !length_app. simpl. split_and!; [lia|lia|].
  destruct Happ as (_ & _ & _ & Hgen).
  apply Forall_app; split.
  - eapply Forall_impl; [done|]. simpl. lia.
  - eapply Forall_impl; [done|]. simpl.
    intros e (op & xyz2 & _ & _ & _ & _ & -> & _). lia.
Qed.

Lemma build_table_generated ops store pairs :
  ∃ gens, generated_table' ops pairs (build_table' ops store pairs) gens.
Proof.
  apply (build_table_invariant (λ st, ∃ gens, generated_table' ops pairs st gens)).
  { exists []. by repeat split. }
  intros st pair xyz1 Hpair Hxyz (gens & Hlen & Hgens & Hfc & Hz) _.
  set (atmn := map (λ i, nth i pair 0) (seq 0 n)).
  destruct (scan_orbit_appended ops st atmn xyz1) as [added Happ].
  rewrite (close_orbit_appended _ _ _ _ _ _ _ Happ).
  destruct Happ as (_ & _ & _ & Hadd).
  destruct (is_zero _).
  - exists gens. repeat split; simpl; try done.
    destruct store; [|done]. apply Forall_app; split; [done|].
    apply Forall_fmap, Forall_reverse. eapply Forall_impl; [done|]. simpl.
    intros e (op & xyz2 & _ & _ & _ & Hc & _ & -> & _). done.
  - exists (gens ++ [(atmn, xyz1)]). repeat split; simpl; try done.
    + rewrite length_app. simpl. lia.
    + apply Forall_app; split; [done|]. constructor; [|done]. by exists pair.
    + apply Forall_app; split.
      * eapply Forall_impl; [done|]. simpl.
        intros e (a & x & op & xyz2 & Hl & ?). exists a, x, op, xyz2.
        split; [|done]. by apply lookup_app_l_Some.
      * eapply Forall_impl; [done|]. simpl.
        intros e (op & xyz2 & ? & ? & Hg). exists atmn, xyz1, op, xyz2.
        pose proof Hg as (_ & _ & Hm & _). rewrite Hm. split; [|done].
        by rewrite lookup_app_r, Hlen, Nat.sub_diag by lia.
Qed.

(** The flag after a search: it is raised by the first pair of an
    operation and an assignment that passes the guards and the test. *)
Lemma visit_is_zero m ind xyz1 rot atmn_mapped st xyz2 :
  is_zero (visit' m ind xyz1 rot atmn_mapped st xyz2) =
    is_zero st
    || (PrimFloat.ltb eps12 (abs (coef_sym n rot xyz1 xyz2))
        && (forallb (λ i, nth i ind 0 =?
                          nth i (canonicalize n nat_ natmin map_p2s
                                   (flatten n atmn_mapped xyz2)) 0) (seq 0 n)
            && PrimFloat.ltb (abs (coef_sym n rot xyz1 xyz2 + 1)) eps8)).
Proof.
  rewrite visit_unfold.
  destruct (PrimFloat.ltb eps12 _); simpl; [|by rewrite orb_false_r].
  destruct (bool_decide _); simpl; by destruct (is_zero st).
Qed.

Lemma foldl_is_zero {B} (f : orbit_state → B → orbit_state) (t : B → bool) l :
  (∀ o x, is_zero (f o x) = is_zero o || t x) →
  ∀ o, is_zero (foldl f o l) = is_zero o || existsb t l.
Proof.
  intros Hf. induction l as [|x l IH]; intros o; simpl.
  - by rewrite orb_false_r.
  - by rewrite IH, Hf, orb_assoc.
Qed.

Lemma scan_symmetry_is_zero m atmn ind xyz1 o op :
  is_zero (scan_symmetry' m atmn ind xyz1 o op) =
    is_zero o
    || (is_inprim n (map_atoms n atmn op) natmin map_p2s
        && existsb (λ xyz2,
             PrimFloat.ltb eps12 (abs (coef_sym n (rot op) xyz1 xyz2))
             && maps_to_minus_self n nat_ natmin map_p2s eps8 atmn ind xyz1 op xyz2)
           xyzcomponent).
Proof.
  unfold scan_symmetry. fold (map_atoms n atmn op).
  destruct (is_inprim n _ natmin map_p2s); simpl; [|by rewrite orb_false_r].
  apply foldl_is_zero. intros o' xyz2. apply visit_is_zero.
Qed.

Lemma scan_orbit_is_zero ops st atmn xyz1 :
  is_zero (scan_orbit' ops st atmn xyz1) = true
  ↔ ∃ op xyz2, op ∈ ops ∧ xyz2 ∈ xyzcomponent
      ∧ is_inprim n (map_atoms n atmn op) natmin map_p2s = true
      ∧ above_eps12 (coef_sym n (rot op) xyz1 xyz2)
      ∧ maps_to_minus_self n nat_ natmin map_p2s eps8 atmn
          (canonicalize n nat_ natmin map_p2s (flatten n atmn xyz1)) xyz1 op xyz2
        = true.
Proof.
  unfold scan_orbit.
  rewrite (foldl_is_zero _ _ ops (scan_symmetry_is_zero _ _ _ _)). simpl.
  rewrite existsb_exists. split.
  - intros (op & Hop%list_elem_of_In & [Hprim Hex]%andb_prop).
    apply existsb_exists in Hex as (xyz2 & Hxyz%list_elem_of_In & [Hc Ht]%andb_prop).
    by exists op, xyz2.
  - intros (op & xyz2 & Hop & Hxyz & Hprim & Hc & Ht).
    exists op. split; [by apply list_elem_of_In|]. rewrite Hprim. simpl.
    apply existsb_exists. exists xyz2. split; [by apply list_elem_of_In|].
    unfold above_eps12 in Hc. by rewrite Hc, Ht.
Qed.

End OrbitFacts.

(** ** Canonical indices *)

Lemma nth_map_seq {A} (f : nat → A) n i d : i < n → nth i (map f (seq 0 n)) d = f i.
Proof.
  intros Hi. apply nth_lookup_Some.
  change (map f (seq 0 n)) with (f <$> seq 0 n).
  by rewrite list_lookup_fmap, lookup_seq_lt.
Qed.

Section Canonical.

Variables (n nat_ natmin : nat) (map_p2s : list (list nat)).

Local Abbreviation valid_index' := (valid_index n nat_ natmin map_p2s).
Local Abbreviation keyed' := (keyed n nat_ natmin map_p2s).

Local Abbreviation masked arr i :=
  (if in_primitive natmin map_p2s (nth i arr 0 / 3) then nth i arr 0 else 3 * nat_).

Lemma minimum_index_fold arr k :
  let ind := map (λ i, masked arr i) (seq 0 n) in
  k ≤ n →
  ∃ minloc,
    foldl (λ '(minval, minloc) i,
             if nth i ind 0 <? minval then (nth i ind 0, i) else (minval, minloc))
          (nth 0 ind 0, 0) (seq 0 k)
      = (nth minloc ind 0, minloc)
    ∧ (minloc < k ∨ minloc = 0)
    ∧ ∀ j, j < k → nth minloc ind 0 ≤ nth j ind 0.
Proof.
  intros ind. induction k as [|k IH]; intros Hk.
  - exists 0. simpl. split; [done|]. split; [by right|]. lia.
  - destruct IH as (m & Hfold & Hm & Hmin); [lia|].
    rewrite seq_S, foldl_snoc, Hfold. simpl.
    destruct (Nat.ltb_spec (nth k ind 0) (nth m ind 0)).
    + exists k. split; [done|]. split; [lia|]. intros j Hj.
      destruct (decide (j = k)) as [->|]; [done|].
      specialize (Hmin j). lia.
    + exists m. split; [done|]. split; [lia|]. intros j Hj.
      destruct (decide (j = k)) as [->|]; [done|].
      apply Hmin. lia.
Qed.

(** The slot that [get_minimum_index_in_primitive] returns holds the least
    index of a primitive-cell atom. *)
Lemma minimum_index_spec arr :
  valid_index' arr →
  let m := get_minimum_index_in_primitive n arr nat_ natmin map_p2s in
  m < n
  ∧ is_inprim_index (nth m arr 0) natmin map_p2s = true
  ∧ ∀ x, x ∈ arr → is_inprim_index x natmin map_p2s = true → nth m arr 0 ≤ x.
Proof.
  intros (Hlen & Hlt & Hex) m.
  destruct (minimum_index_fold arr n) as (m' & Hfold & Hm & Hmin); [done|].
  assert (m = m') as <-.
  { unfold m, get_minimum_index_in_primitive. by rewrite Hfold. }
  clear Hfold.
  apply Exists_exists in Hex as (y & Hy & Hprim).
  apply list_elem_of_lookup in Hy as [j Hj].
  assert (j < n) as Hjn by (rewrite <-Hlen; by eapply lookup_lt_Some).
  assert (0 < n) as Hn by lia.
  assert (m < n) as Hmn by lia.
  assert (∀ i x, arr !! i = Some x → x < 3 * nat_) as Hbound.
  { intros i x Hi. eapply Forall_forall in Hlt; [done|].
    by eapply list_elem_of_lookup_2. }
  assert (∀ i x, arr !! i = Some x → i < n ∧ nth i arr 0 = x) as Hnth.
  { intros i x Hi. split; [rewrite <-Hlen; by eapply lookup_lt_Some|].
    by apply nth_lookup_Some. }
  assert (nth m (map (λ i, masked arr i) (seq 0 n)) 0 ≤ y) as Hle.
  { specialize (Hmin j Hjn). rewrite (nth_map_seq _ n j) in Hmin by done.
    destruct (Hnth _ _ Hj) as [_ Hjy]. rewrite Hjy in Hmin.
    unfold is_inprim_index in Hprim. by rewrite Hprim in Hmin. }
  rewrite nth_map_seq in Hle by done.
  destruct (in_primitive natmin map_p2s (nth m arr 0 / 3)) eqn:Hpm.
  2:{ specialize (Hbound _ _ Hj). lia. }
  split; [done|]. split; [done|].
  intros x [i Hi]%list_elem_of_lookup Hpx.
  destruct (Hnth _ _ Hi) as [Hin Hix].
  specialize (Hmin i Hin). rewrite !nth_map_seq in Hmin by done.
  unfold is_inprim_index in Hpx. rewrite Hpm, Hix, Hpx in Hmin. done.
Qed.

Lemma swap_front i arr :
  i < length arr →
  ∃ rest, swap 0 i arr = nth i arr 0 :: rest ∧ swap 0 i arr ≡ₚ arr.
Proof.
  intros Hi. unfold swap. destruct arr as [|x arr]; [simpl in Hi; lia|].
  destruct i as [|i]; simpl.
  - by exists arr.
  - simpl in Hi. eexists. split; [done|].
    destruct (nth_lookup_or_length arr i 0) as [Hl|]; [|lia].
    rewrite insert_take_drop by lia.
    transitivity (x :: take i arr ++ nth i arr 0 :: drop (S i) arr);
      [|by rewrite take_drop_middle].
    rewrite <-!Permutation_middle. apply perm_swap.
Qed.

(** The canonical form is the least primitive-cell index followed by the
    other indices in ascending order. *)
Lemma canonicalize_spec arr :
  valid_index' arr →
  ∃ a rest,
    canonicalize n nat_ natmin map_p2s arr = a :: merge_sort le rest
    ∧ a :: rest ≡ₚ arr
    ∧ is_inprim_index a natmin map_p2s = true
    ∧ ∀ x, x ∈ arr → is_inprim_index x natmin map_p2s = true → a ≤ x.
Proof.
  intros Hv. destruct (minimum_index_spec arr Hv) as (Hm & Hprim & Hmin).
  destruct Hv as (Hlen & _). unfold canonicalize.
  destruct (swap_front (get_minimum_index_in_primitive n arr nat_ natmin map_p2s) arr)
    as (rest & -> & Hperm); [lia|].
  by exists (nth (get_minimum_index_in_primitive n arr nat_ natmin map_p2s) arr 0),
            rest.
Qed.

Lemma valid_index_Permutation arr arr' :
  arr ≡ₚ arr' → valid_index' arr → valid_index' arr'.
Proof.
  intros Hp (Hlen & Hlt & Hex). split_and!.
  - by rewrite <-Hp.
  - by rewrite <-Hp.
  - apply Exists_exists in Hex as (x & Hx & ?). apply Exists_exists.
    exists x. split; [by rewrite <-Hp|done].
Qed.

Lemma canonicalize_Permutation_self arr :
  valid_index' arr → canonicalize n nat_ natmin map_p2s arr ≡ₚ arr.
Proof.
  intros Hv. destruct (canonicalize_spec arr Hv) as (a & rest & -> & Hp & _).
  by rewrite merge_sort_Permutation.
Qed.

(** The canonical form depends on the indices of the tuple only, not on
    their order. *)
Lemma canonicalize_Permutation arr arr' :
  valid_index' arr → arr ≡ₚ arr' →
  canonicalize n nat_ natmin map_p2s arr = canonicalize n nat_ natmin map_p2s arr'.
Proof.
  intros Hv Hp. pose proof (valid_index_Permutation _ _ Hp Hv) as Hv'.
  destruct (canonicalize_spec arr Hv) as (a & rest & -> & Hpa & Hprim & Hmin).
  destruct (canonicalize_spec arr' Hv') as (a' & rest' & -> & Hpa' & Hprim' & Hmin').
  assert (a = a') as <-.
  { apply Nat.le_antisymm.
    - apply Hmin; [|done]. rewrite Hp, <-Hpa'. left.
    - apply Hmin'; [|done]. rewrite <-Hp, <-Hpa. left. }
  f_equal. apply (Sorted_unique le).
  - apply (Sorted_merge_sort le).
  - apply (Sorted_merge_sort le).
  - rewrite !merge_sort_Permutation.
    apply (Permutation_cons_inv (a:=a)). by rewrite Hpa, Hpa'.
Qed.

Lemma canonicalize_idemp arr :
  valid_index' arr →
  canonicalize n nat_ natmin map_p2s (canonicalize n nat_ natmin map_p2s arr)
    = canonicalize n nat_ natmin map_p2s arr.
Proof.
  intros Hv. symmetry. apply canonicalize_Permutation; [done|].
  symmetry. by apply canonicalize_Permutation_self.
Qed.

Lemma sort_tail_Permutation arr : sort_tail arr ≡ₚ arr.
Proof. destruct arr as [|x arr]; simpl; [done|]. by rewrite merge_sort_Permutation. Qed.

(** The index that lines 280-282 build for slot [i]: slot [i] in front. *)
Lemma permuted_entry K i :
  valid_index' K → i < n →
  hd 0 (sort_tail (swap 0 i K)) = nth i K 0
  ∧ sort_tail (swap 0 i K) ≡ₚ K.
Proof.
  intros (Hlen & _) Hi.
  destruct (swap_front i K) as (rest & Hs & Hp); [lia|].
  split.
  - by rewrite Hs.
  - by rewrite sort_tail_Permutation.
Qed.

Lemma extra_slots_fresh K slots : ∀ is_searched,
  (∀ i, i ∈ slots → nth i K 0 < length is_searched) →
  (∀ i, i ∈ extra_slots natmin map_p2s K is_searched slots →
        i ∈ slots ∧ nth (nth i K 0) is_searched false = false)
  ∧ NoDup ((λ i, nth i K 0) <$> extra_slots natmin map_p2s K is_searched slots).
Proof.
  induction slots as [|j slots IH]; intros s Hlen; simpl.
  { split; [by intros ? ?%elem_of_nil|constructor]. }
  assert (∀ i, i ∈ slots → nth i K 0 < length s) as Hlen'.
  { intros i Hi. apply Hlen. by right. }
  destruct (negb (nth (nth j K 0) s false)
            && is_inprim_index (nth j K 0) natmin map_p2s) eqn:Hc.
  - apply andb_prop in Hc as [Hs%negb_true_iff _].
    destruct (IH (<[nth j K 0 := true]> s)) as [Hin Hnd].
    { intros i Hi. rewrite length_insert. by apply Hlen'. }
    assert (∀ i, i ∈ extra_slots natmin map_p2s K (<[nth j K 0 := true]> s) slots →
                 nth i K 0 ≠ nth j K 0 ∧ nth (nth i K 0) s false = false) as Hne.
    { intros i Hi. destruct (Hin i Hi) as [_ Hf].
      rewrite nth_lookup in Hf.
      destruct (decide (nth i K 0 = nth j K 0)) as [Heq|Hne].
      - rewrite Heq, list_lookup_insert_eq in Hf; [done|]. apply Hlen. left.
      - split; [done|]. rewrite list_lookup_insert_ne in Hf by done.
        by rewrite nth_lookup. }
    split.
    + intros i [->|Hi]%elem_of_cons; [split; [left|done]|].
      split; [right; by apply Hin|by apply Hne].
    + rewrite fmap_cons. apply NoDup_cons. split; [|done].
      intros (i & Heq & Hi)%list_elem_of_fmap. destruct (Hne i Hi). congruence.
  - destruct (IH s Hlen') as [Hin Hnd]. split; [|done].
    intros i Hi. destruct (Hin i Hi). split; [by right|done].
Qed.

(** The entries appended for a new canonical index [K]: pairwise distinct
    indices, each a rearrangement of [K]. *)
Lemma new_entries_keyed K c m :
  valid_index' K →
  NoDup (elems <$> new_entries n nat_ natmin map_p2s K c m)
  ∧ ∀ e, e ∈ new_entries n nat_ natmin map_p2s K c m →
      elems e ≡ₚ K ∧ sign e = c ∧ mother e = m.
Proof.
  intros HK. pose proof HK as (Hlen & Hlt & _). unfold new_entries.
  set (s0 := <[nth 0 K 0 := true]> (replicate (3 * nat_) false)).
  assert (∀ i, i < n → nth i K 0 < 3 * nat_) as Hbound.
  { intros i Hi. destruct (nth_lookup_or_length K i 0) as [Hl|]; [|lia].
    eapply Forall_forall in Hlt; [done|]. by eapply list_elem_of_lookup_2. }
  destruct (extra_slots_fresh K (seq 1 (n - 1)) s0) as [Hin Hnd].
  { intros i Hi%elem_of_seq. unfold s0.
    rewrite length_insert, length_replicate. apply Hbound. lia. }
  split.
  - apply (NoDup_fmap_1 (hd 0)). rewrite fmap_cons. simpl.
    rewrite <-!list_fmap_compose.
    erewrite (list_fmap_ext _ (λ i, nth i K 0)
                (extra_slots natmin map_p2s K s0 (seq 1 (n - 1)))).
    + apply NoDup_cons. split; [|done].
      intros (i & Heq & Hi)%list_elem_of_fmap.
      destruct (Hin i Hi) as [Hi'%elem_of_seq Hf].
      replace (hd 0 K) with (nth 0 K 0) in Heq by by destruct K.
      rewrite <-Heq in Hf. unfold s0 in Hf.
      rewrite nth_lookup, list_lookup_insert_eq in Hf; [done|].
      rewrite length_replicate. apply Hbound. lia.
    + intros j i Hj. simpl.
      apply list_elem_of_lookup_2, Hin in Hj as [Hj%elem_of_seq _].
      apply permuted_entry; [done|lia].
  - intros e [->|(i & -> & Hi)%list_elem_of_fmap]%elem_of_cons; [done|].
    destruct (Hin i Hi) as [Hi'%elem_of_seq _]. simpl.
    split; [|done]. apply permuted_entry; [done|lia].
Qed.

Lemma keyed_mono found found' fc : found ⊆ found' → keyed' found fc → keyed' found' fc.
Proof.
  intros Hsub [Hnd Hk]. split; [done|]. intros e He.
  destruct (Hk e He) as (? & ? & ?). split_and!; [done| |done]. by apply Hsub.
Qed.

Lemma keyed_new found fc raw c m :
  let K := canonicalize n nat_ natmin map_p2s raw in
  valid_index' raw → K ∉ found → keyed' found fc →
  keyed' ({[K]} ∪ found) (fc ++ new_entries n nat_ natmin map_p2s K c m).
Proof.
  intros K Hraw Hnew [Hnd Hk].
  assert (valid_index' K) as HK.
  { eapply valid_index_Permutation; [|done].
    symmetry. by apply canonicalize_Permutation_self. }
  assert (canonicalize n nat_ natmin map_p2s K = K) as Hidem
    by by apply canonicalize_idemp.
  destruct (new_entries_keyed K c m HK) as [Hnd' Hnew'].
  assert (∀ e, e ∈ new_entries n nat_ natmin map_p2s K c m →
               canonicalize n nat_ natmin map_p2s (elems e) = K) as Hkey.
  { intros e He. destruct (Hnew' e He) as (Hp & _).
    by rewrite <-(canonicalize_Permutation K (elems e)). }
  split.
  - rewrite fmap_app. apply NoDup_app. split; [done|]. split; [|done].
    intros l (e & -> & He)%list_elem_of_fmap (e' & Heq & He')%list_elem_of_fmap.
    destruct (Hk e He) as (_ & Hin & _). rewrite Heq, (Hkey e' He') in Hin. done.
  - intros e [He|He]%elem_of_app.
    + destruct (Hk e He) as (? & ? & ?).
      split_and!; [done|apply elem_of_union; by right|].
      apply elem_of_app. by left.
    + destruct (Hnew' e He) as (Hp & Hs & Hm). rewrite (Hkey e He).
      split_and!.
      * eapply valid_index_Permutation; [symmetry; exact Hp|done].
      * apply elem_of_union. left. by apply elem_of_singleton.
      * apply elem_of_app. right. rewrite Hs, Hm. left.
Qed.

Lemma flatten_valid atmn_mapped xyz2 :
  (∀ i, nth i atmn_mapped 0 < nat_) →
  Forall (λ d, d < 3) xyz2 →
  is_inprim n atmn_mapped natmin map_p2s = true →
  valid_index' (flatten n atmn_mapped xyz2).
Proof.
  intros Hat Hxyz Hprim.
  assert (∀ i, nth i xyz2 0 < 3) as Hx.
  { intros i. destruct (nth_lookup_or_length xyz2 i 0) as [Hl|].
    - eapply Forall_forall in Hxyz; [done|]. by eapply list_elem_of_lookup_2.
    - rewrite nth_overflow by done. lia. }
  unfold flatten. split_and!.
  - by rewrite length_map, length_seq.
  - apply Forall_forall. intros x (i & -> & _)%list_elem_of_fmap.
    specialize (Hat i). specialize (Hx i). lia.
  - unfold is_inprim in Hprim.
    apply existsb_exists in Hprim as (i & Hi%list_elem_of_In & Hp).
    apply Exists_exists. exists (3 * nth i atmn_mapped 0 + nth i xyz2 0).
    split; [apply list_elem_of_fmap; by exists i|].
    unfold is_inprim_index.
    replace ((3 * nth i atmn_mapped 0 + nth i xyz2 0) / 3)
      with (nth i atmn_mapped 0); [done|].
    specialize (Hx i). apply Nat.div_unique with (nth i xyz2 0); lia.
Qed.

End Canonical.

(** ** The indices of the table *)

Section KeyedTable.

Variables (n nat_ natmin : nat) (map_p2s : list (list nat)).
Variable xyzcomponent : list (list nat).
Variable ops : list SymmOp.

(** The component assignments are axes, and the operations map atoms to
    atoms of the supercell. *)
Hypothesis xyz_axes : ∀ w, w ∈ xyzcomponent → Forall (λ d, d < 3) w.
Hypothesis ops_atoms : ∀ op a, op ∈ ops → nth a (mapping op) 0 < nat_.

Local Abbreviation keyed' := (keyed n nat_ natmin map_p2s).
Local Abbreviation scan_orbit' := (scan_orbit n nat_ natmin map_p2s xyzcomponent).
Local Abbreviation build_table' := (build_table n nat_ natmin map_p2s xyzcomponent).

Lemma map_atoms_bound atmn op i : op ∈ ops → nth i (map_atoms n atmn op) 0 < nat_.
Proof.
  intros Hop. unfold map_atoms. destruct (decide (i < n)).
  - rewrite nth_map_seq by done. by apply ops_atoms.
  - rewrite nth_overflow by (rewrite length_map, length_seq; lia).
    pose proof (ops_atoms op 0 Hop). lia.
Qed.

Lemma scan_orbit_keyed st atmn xyz1 :
  keyed' (list_found st) (fc_vec st) →
  keyed' (o_found (scan_orbit' ops st atmn xyz1))
         (o_fc (scan_orbit' ops st atmn xyz1)).
Proof.
  intros Hst. unfold scan_orbit.
  apply (foldl_invariant (λ o, keyed' (o_found o) (o_fc o))); [done|].
  intros o op Hop Ho. unfold scan_symmetry. fold (map_atoms n atmn op).
  destruct (is_inprim n _ natmin map_p2s) eqn:Hprim; simpl; [|done].
  apply (foldl_invariant (λ o, keyed' (o_found o) (o_fc o))); [done|].
  clear o Ho. intros o xyz2 Hxyz Ho. rewrite visit_unfold.
  destruct (PrimFloat.ltb eps12 _); [|done].
  case_bool_decide as Hfound; [done|]. simpl.
  apply keyed_new; [|done..].
  apply flatten_valid; [|by apply xyz_axes|done].
  intros i. by apply map_atoms_bound.
Qed.

Lemma build_table_keyed store pairs :
  keyed' (list_found (build_table' ops store pairs))
         (fc_vec (build_table' ops store pairs)).
Proof.
  apply (build_table_invariant n nat_ natmin map_p2s xyzcomponent
           (λ st, keyed' (list_found st) (fc_vec st))).
  { split; [constructor|]. by intros e ?%elem_of_nil. }
  intros st pair xyz1 _ _ Hst _.
  set (atmn := map (λ i, nth i pair 0) (seq 0 n)).
  pose proof (scan_orbit_keyed st atmn xyz1 Hst) as Ho.
  destruct (scan_orbit_appended n nat_ natmin map_p2s xyzcomponent ops st atmn xyz1)
    as [added Happ].
  rewrite (close_orbit_appended _ _ _ _ _ _ _ _ _ _ _ _ Happ).
  destruct Happ as (Hfc & _ & Hsub & _).
  destruct (is_zero _); simpl.
  - by eapply keyed_mono.
  - by rewrite <-Hfc.
Qed.

End KeyedTable.

Lemma NoDup_fmap_eq {A B} (f : A → B) (l : list A) x y :
  NoDup (f <$> l) → x ∈ l → y ∈ l → f x = f y → x = y.
Proof.
  induction l as [|a l IH]; [by intros _ ?%elem_of_nil|].
  rewrite fmap_cons, NoDup_cons. intros [Ha Hnd].
  intros [->|Hx]%elem_of_cons [->|Hy]%elem_of_cons Hf; [done| | |by apply IH].
  - destruct Ha. rewrite Hf. by apply list_elem_of_fmap_2.
  - destruct Ha. rewrite <-Hf. by apply list_elem_of_fmap_2.
Qed.

(** The operations that [get_available_symmop] selects map atoms to atoms
    of the supercell when the table [get_map_sym] does. *)
Lemma select_symmop_atoms nat_ map_sym compatible matrix use data :
  (∀ a c, nth c (nth a map_sym []) 0 < nat_) →
  ∀ counter op a,
    op ∈ select_symmop nat_ map_sym compatible matrix use data counter →
    nth a (mapping op) 0 < nat_.
Proof.
  intros Hmap. induction data as [|it data IH]; intros counter op a; simpl.
  { by intros ?%elem_of_nil. }
  destruct (Bool.eqb _ _); [|by apply IH].
  intros [->|Hop]%elem_of_cons; [|by eapply IH]. simpl.
  destruct (decide (a < nat_)).
  - by rewrite nth_map_seq.
  - rewrite nth_overflow by (rewrite length_map, length_seq; lia).
    pose proof (Hmap 0 0). lia.
Qed.

Lemma get_available_symmop_atoms nat_ symmetry basis use ops :
  (∀ a c, nth c (nth a (get_map_sym symmetry) []) 0 < nat_) →
  get_available_symmop nat_ symmetry basis use = Ok ops →
  ∀ op a, op ∈ ops → nth a (mapping op) 0 < nat_.
Proof.
  intros Hmap. unfold get_available_symmop.
  destruct (String.eqb basis "Cartesian");
    [|destruct (String.eqb basis "Lattice"); [|done]];
    intros [= <-] op a Hop; by eapply select_symmop_atoms.
Qed.

Lemma words_axes n w : w ∈ words n → Forall (λ d, d < 3) w.
Proof. by intros [_ ?]%elem_of_words. Qed.

(** ** The table that [generate_force_constant_table] returns *)

Lemma xyz_table_words n : xyz_table n = words n.
Proof. unfold xyz_table. by rewrite get_xyzcomponent_words. Qed.

(** A call with a non-negative order that returns has selected its
    operations and returns the table of [build_table], sorted by orbit. *)
Lemma generate_returns order nat_ pairs symm_in basis fc0 nd0 z0 store fc nd z :
  (0 ≤ order)%Z →
  generate_force_constant_table order nat_ pairs symm_in basis fc0 nd0 z0 store
    = Ok (fc, nd, z) →
  ∃ ops, get_available_symmop nat_ symm_in basis true = Ok ops
    ∧ let st := build_table (Z.to_nat (order + 2)) nat_ (get_nat_prim symm_in)
                  (get_map_p2s symm_in) (words (Z.to_nat (order + 2))) ops
                  store pairs in
      fc = sort_orbits (ndup st) (fc_vec st) ∧ nd = ndup st
      ∧ z = fc_zeros_out st.
Proof.
  intros Horder. unfold generate_force_constant_table.
  destruct (Z.ltb_spec order 0) as [|_]; [lia|].
  destruct (get_available_symmop nat_ symm_in basis true) as [ops|]; [|done].
  rewrite xyz_table_words. intros [= <- <- <-]. by exists ops.
Qed.

(** The call returns whenever the basis is one of the two it knows. *)
Lemma generate_total order nat_ pairs symm_in basis fc0 nd0 z0 store :
  basis = "Cartesian" ∨ basis = "Lattice" →
  ∃ out, generate_force_constant_table order nat_ pairs symm_in basis
           fc0 nd0 z0 store = Ok out.
Proof.
  intros Hb. unfold generate_force_constant_table, get_available_symmop.
  destruct (order <? 0)%Z; [by eexists|].
  destruct Hb as [-> | ->]; simpl; by eexists.
Qed.

(** C5: for a call of any order that returns, the duplicate counts add up
    to the number of entries of the live table, there is one count per
    parameter identifier assigned ([nmother] after the loops), and every
    entry carries an assigned identifier. *)
Theorem ndup_counts_table order nat_ pairs symm_in basis fc0 nd0 z0 store fc nd z :
  (0 ≤ order)%Z →
  generate_force_constant_table order nat_ pairs symm_in basis fc0 nd0 z0 store
    = Ok (fc, nd, z) →
  sum_list nd = length fc
  ∧ ∃ ops, get_available_symmop nat_ symm_in basis true = Ok ops
      ∧ let st := build_table (Z.to_nat (order + 2)) nat_ (get_nat_prim symm_in)
                    (get_map_p2s symm_in) (xyz_table (Z.to_nat (order + 2)))
                    ops store pairs in
        length nd = N.to_nat (nmother st)
        ∧ Forall (λ e, (mother e < nmother st)%N) fc.
Proof.
  intros Horder Hgen.
  destruct (generate_returns _ _ _ _ _ _ _ _ _ _ _ _ Horder Hgen)
    as (ops & Hops & -> & -> & _).
  rewrite xyz_table_words.
  destruct (build_table_counts (Z.to_nat (order + 2)) nat_ (get_nat_prim symm_in)
              (get_map_p2s symm_in) (words (Z.to_nat (order + 2))) ops store pairs)
    as (Hsum & Hlen & Hm).
  split.
  - by rewrite sort_orbits_Permutation.
  - exists ops. split; [done|]. split; [done|].
    by rewrite sort_orbits_Permutation.
Qed.

Lemma ndup_counts_table_witness :
  ∃ fc nd z,
    generate_force_constant_table 0 1 [[0; 0]] Inputs.site "Cartesian" [] [] [] true
      = Ok (fc, nd, z)
    ∧ sum_list nd = length fc
    ∧ ∃ ops, get_available_symmop 1 Inputs.site "Cartesian" true = Ok ops
        ∧ let st := build_table (Z.to_nat (0 + 2)) 1 (get_nat_prim Inputs.site)
                      (get_map_p2s Inputs.site) (xyz_table (Z.to_nat (0 + 2)))
                      ops true [[0; 0]] in
          length nd = N.to_nat (nmother st)
          ∧ Forall (λ e, (mother e < nmother st)%N) fc.
Proof.
  eexists _, _, _. split; [vm_compute; reflexivity|].
  eapply (ndup_counts_table 0 1 [[0; 0]] Inputs.site "Cartesian" [] [] [] true);
    [lia|vm_compute; reflexivity].
Defined.

(** C10: every entry of the live table and of the zero-entries list that a
    call with a non-negative order returns has a sign of magnitude above
    [eps12]. *)
Theorem entries_above_eps12 order nat_ pairs symm_in basis fc0 nd0 z0 store fc nd z :
  (0 ≤ order)%Z →
  generate_force_constant_table order nat_ pairs symm_in basis fc0 nd0 z0 store
    = Ok (fc, nd, z) →
  Forall (λ e, above_eps12 (sign e)) (fc ++ z).
Proof.
  intros Horder Hgen.
  destruct (generate_returns _ _ _ _ _ _ _ _ _ _ _ _ Horder Hgen)
    as (ops & _ & -> & _ & ->).
  destruct (build_table_generated (Z.to_nat (order + 2)) nat_ (get_nat_prim symm_in)
              (get_map_p2s symm_in) (words (Z.to_nat (order + 2))) ops store pairs)
    as (gens & _ & _ & Hfc & Hz).
  apply Forall_app; split; [|done].
  rewrite sort_orbits_Permutation.
  eapply Forall_impl; [done|]. simpl.
  intros e (atmn & xyz1 & op & xyz2 & _ & _ & _ & _ & Hc & _ & Hs & _).
  unfold above_eps12. by rewrite Hs.
Qed.

Lemma entries_above_eps12_witness :
  ∃ fc nd z,
    generate_force_constant_table 0 1 [[0; 0]] Inputs.site "Cartesian" [] [] [] true
      = Ok (fc, nd, z)
    ∧ Forall (λ e, above_eps12 (sign e)) (fc ++ z).
Proof.
  eexists _, _, _. split; [vm_compute; reflexivity|].
  eapply (entries_above_eps12 0 1 [[0; 0]] Inputs.site "Cartesian" [] [] [] true);
    [lia|vm_compute; reflexivity].
Defined.

(** C4: when the search of an orbit ends flagged symmetry-zero, the live
    table is what it was before the search, so every entry appended for
    the orbit is gone from it, no count and no identifier is spent, and
    with [store_zeros_in] the appended entries, last first, are put behind
    the zero entries with the sentinel as their parameter identifier;
    without it the zero entries stay as they were. *)
Theorem zero_orbit_discarded n nat_ natmin map_p2s xyzcomponent ops store atmn st xyz1 :
  is_ascending n (flatten n atmn xyz1) = true →
  canonicalize n nat_ natmin map_p2s (flatten n atmn xyz1) ∉ list_found st →
  is_zero (scan_orbit n nat_ natmin map_p2s xyzcomponent ops st atmn xyz1) = true →
  ∃ added,
    o_fc (scan_orbit n nat_ natmin map_p2s xyzcomponent ops st atmn xyz1)
      = fc_vec st ++ added
    ∧ ndeps (scan_orbit n nat_ natmin map_p2s xyzcomponent ops st atmn xyz1)
      = length added
    ∧ let st' := search_orbit n nat_ natmin map_p2s xyzcomponent ops store atmn st xyz1 in
      fc_vec st' = fc_vec st ∧ ndup st' = ndup st ∧ nmother st' = nmother st
      ∧ fc_zeros_out st' =
          if store then
            fc_zeros_out st
            ++ map (λ it, mkFc (elems it) (sign it) size_t_max) (reverse added)
          else fc_zeros_out st.
Proof.
  intros Hasc Hnew Hzero.
  destruct (scan_orbit_appended n nat_ natmin map_p2s xyzcomponent ops st atmn xyz1)
    as [added Happ].
  exists added. pose proof Happ as (Hfc & Hnd & _).
  split; [done|]. split; [done|].
  unfold search_orbit. rewrite Hasc. simpl.
  rewrite bool_decide_eq_false_2 by done.
  fold (scan_orbit n nat_ natmin map_p2s xyzcomponent ops st atmn xyz1).
  rewrite (close_orbit_appended _ _ _ _ _ _ _ _ _ _ _ _ Happ), Hzero.
  done.
Qed.

Lemma zero_orbit_discarded_witness :
  ∃ added,
    o_fc (scan_orbit 2 1 1 [[0]] (xyz_table 2) Inputs.site_ops
            Inputs.empty_table [0; 0] [0; 1])
      = fc_vec Inputs.empty_table ++ added
    ∧ ndeps (scan_orbit 2 1 1 [[0]] (xyz_table 2) Inputs.site_ops
               Inputs.empty_table [0; 0] [0; 1])
      = length added
    ∧ let st' := search_orbit 2 1 1 [[0]] (xyz_table 2) Inputs.site_ops true
                   [0; 0] Inputs.empty_table [0; 1] in
      fc_vec st' = fc_vec Inputs.empty_table
      ∧ ndup st' = ndup Inputs.empty_table
      ∧ nmother st' = nmother Inputs.empty_table
      ∧ fc_zeros_out st' =
          if true then
            fc_zeros_out Inputs.empty_table
            ++ map (λ it, mkFc (elems it) (sign it) size_t_max) (reverse added)
          else fc_zeros_out Inputs.empty_table.
Proof.
  apply (zero_orbit_discarded 2 1 1 [[0]] (xyz_table 2) Inputs.site_ops true
           [0; 0] Inputs.empty_table [0; 1]).
  - vm_compute. reflexivity.
  - apply not_elem_of_empty.
  - vm_compute. reflexivity.
Defined.

(** C3, as the code has it: the search of an orbit ends flagged
    symmetry-zero exactly when, for some operation of the allowed subset
    that sends the cluster onto atoms touching the primitive cell and some
    component assignment whose rotation coefficient has magnitude above
    [eps12], the canonical image is the index of the orbit and the
    coefficient is within the loose tolerance [eps8] of -1. *)
Theorem zero_flag_iff n nat_ natmin map_p2s xyzcomponent ops st atmn xyz1 :
  is_zero (scan_orbit n nat_ natmin map_p2s xyzcomponent ops st atmn xyz1) = true
  ↔ ∃ op xyz2, op ∈ ops ∧ xyz2 ∈ xyzcomponent
      ∧ is_inprim n (map_atoms n atmn op) natmin map_p2s = true
      ∧ above_eps12 (coef_sym n (rot op) xyz1 xyz2)
      ∧ maps_to_minus_self n nat_ natmin map_p2s eps8 atmn
          (canonicalize n nat_ natmin map_p2s (flatten n atmn xyz1)) xyz1 op xyz2
        = true.
Proof. apply scan_orbit_is_zero. Qed.

(** C3 as stated fails: with a mirror whose entry -1 carries an error of
    2^-31, the orbit of the on-site index (0x, 0y) is flagged, yet the
    mirror's coefficient is not within the tight tolerance [eps12] of -1. *)
Lemma zero_flag_not_tight :
  ¬ zero_iff_self_map 2 1 1 [[0]] (xyz_table 2) eps12 Inputs.noisy_site_ops
      Inputs.empty_table [0; 0] [0; 1].
Proof.
  unfold zero_iff_self_map. intros [Hflag _].
  destruct Hflag as (op & xyz2 & Hop & Hxyz & Htest); [vm_compute; reflexivity|].
  rewrite xyz_table_words in Hxyz.
  repeat (apply elem_of_cons in Hop as [->|Hop]);
    [..|by apply elem_of_nil in Hop];
    repeat (apply elem_of_cons in Hxyz as [->|Hxyz]);
    try (by apply elem_of_nil in Hxyz);
    vm_compute in Htest; discriminate.
Qed.

(** With the exact mirror the two tolerances agree: the orbit is flagged
    and the mirror's coefficient is -1. *)
Example zero_flag_exact_mirror :
  zero_iff_self_map 2 1 1 [[0]] (xyz_table 2) eps12 Inputs.site_ops
    Inputs.empty_table [0; 0] [0; 1].
Proof.
  split; [intros _|intros _; vm_compute; reflexivity].
  exists (mkSymmOp Inputs.mirror_y [0]), [0; 1].
  split; [right; left|]. split; [rewrite xyz_table_words; right; left|].
  vm_compute. reflexivity.
Qed.




(** The table of a call whose symmetry table maps atoms to atoms: the
    invariant [keyed] holds of the entries it returns. *)
Lemma generate_keyed order nat_ pairs symm_in basis fc0 nd0 z0 store fc nd z :
  (0 ≤ order)%Z →
  (∀ a c, nth c (nth a (get_map_sym symm_in) []) 0 < nat_) →
  generate_force_constant_table order nat_ pairs symm_in basis fc0 nd0 z0 store
    = Ok (fc, nd, z) →
  ∃ found, keyed (Z.to_nat (order + 2)) nat_ (get_nat_prim symm_in)
             (get_map_p2s symm_in) found fc.
Proof.
  intros Horder Hmap Hgen.
  destruct (generate_returns _ _ _ _ _ _ _ _ _ _ _ _ Horder Hgen)
    as (ops & Hops & -> & _ & _).
  eexists.
  destruct (build_table_keyed (Z.to_nat (order + 2)) nat_ (get_nat_prim symm_in)
              (get_map_p2s symm_in) (words (Z.to_nat (order + 2))) ops
              (words_axes _)
              (λ op a, get_available_symmop_atoms _ _ _ _ _ Hmap Hops op a)
              store pairs) as [Hnd Hk].
  split.
  - by rewrite sort_orbits_Permutation.
  - intros e He. rewrite sort_orbits_Permutation in He.
    destruct (Hk e He) as (? & ? & ?). split_and!; [done..|].
    by rewrite sort_orbits_Permutation.
Qed.

(** C1: in the table that a call with a non-negative order returns, for a
    symmetry table that maps atoms to atoms of the supercell, no index
    occurs twice; so two entries with the same index carry the same
    parameter identifier. *)
Theorem index_in_one_orbit order nat_ pairs symm_in basis fc0 nd0 z0 store fc nd z :
  (0 ≤ order)%Z →
  (∀ a c, nth c (nth a (get_map_sym symm_in) []) 0 < nat_) →
  generate_force_constant_table order nat_ pairs symm_in basis fc0 nd0 z0 store
    = Ok (fc, nd, z) →
  NoDup (elems <$> fc)
  ∧ ∀ e1 e2, e1 ∈ fc → e2 ∈ fc → elems e1 = elems e2 → mother e1 = mother e2.
Proof.
  intros Horder Hmap Hgen.
  destruct (generate_keyed _ _ _ _ _ _ _ _ _ _ _ _ Horder Hmap Hgen)
    as (found & Hnd & _).
  split; [done|]. intros e1 e2 H1 H2 Heq.
  by rewrite (NoDup_fmap_eq elems fc e1 e2).
Qed.

Lemma index_in_one_orbit_witness :
  ∃ fc nd z,
    generate_force_constant_table 0 3 [[0; 1]] Inputs.chain3 "Cartesian" [] [] [] true
      = Ok (fc, nd, z)
    ∧ NoDup (elems <$> fc)
    ∧ ∀ e1 e2, e1 ∈ fc → e2 ∈ fc → elems e1 = elems e2 → mother e1 = mother e2.
Proof.
  eexists _, _, _. split; [vm_compute; reflexivity|].
  eapply (index_in_one_orbit 0 3 [[0; 1]] Inputs.chain3 "Cartesian" [] [] [] true).
  - lia.
  - intros a c.
    destruct a as [|[|[|[|a]]]], c as [|[|[|[|c]]]]; simpl; lia.
  - vm_compute. reflexivity.
Defined.

(** ** Binary64 arithmetic on the values the identity operation produces *)

Section Binary64.

Local Open Scope float_scope.

Lemma Prim2SF_zero : Prim2SF 0 = S754_zero false.
Proof. reflexivity. Qed.








Lemma shr_fexp_exact m e :
  canonical_mantissa prec emax m e = true →
  shr_fexp prec emax (Z.pos m) e loc_Exact
  = ({| shr_m := Z.pos m; shr_r := false; shr_s := false |}, e).
Proof.
  unfold shr_fexp, canonical_mantissa. intros H%Z.eqb_eq.
  simpl Zdigits2. rewrite H, Z.sub_diag. reflexivity.
Qed.

Lemma digits2_pos_shift k m :
  Z.pos (digits2_pos (Nat.iter k xO m)) = (Z.pos (digits2_pos m) + Z.of_nat k)%Z.
Proof.
  induction k as [|k IH]; [simpl; lia|].
  change (Nat.iter (S k) xO m) with (xO (Nat.iter k xO m)).
  change (digits2_pos (xO ?p)) with (Pos.succ (digits2_pos p)).
  rewrite Pos2Z.inj_succ, IH. lia.
Qed.

Lemma shr_1_shift k m :
  Nat.iter k shr_1 {| shr_m := Z.pos (Nat.iter k xO m); shr_r := false; shr_s := false |}
  = {| shr_m := Z.pos m; shr_r := false; shr_s := false |}.
Proof.
  induction k as [|k IH]; [done|].
  rewrite Nat.iter_succ_r. by change (Nat.iter (S k) xO m) with (xO (Nat.iter k xO m)).
Qed.

Lemma shr_fexp_shifted m e :
  canonical_mantissa prec emax m e = true →
  shr_fexp prec emax (Z.pos (m * 4503599627370496)) (e + -52) loc_Exact
  = ({| shr_m := Z.pos m; shr_r := false; shr_s := false |}, e).
Proof.
  unfold shr_fexp, canonical_mantissa. intros H%Z.eqb_eq.
  rewrite Pos.mul_comm.
  change (4503599627370496 * m)%positive with (Nat.iter 52 xO m).
  unfold Zdigits2. rewrite digits2_pos_shift.
  replace (Z.pos (digits2_pos m) + Z.of_nat 52 + (e + -52))%Z
    with (Z.pos (digits2_pos m) + e)%Z by lia.
  rewrite H. replace (e - (e + -52))%Z with 52%Z by lia.
  unfold shr, shr_record_of_loc.
  change (SpecFloat.iter_pos shr_1 52 ?r) with (Nat.iter 52 shr_1 r).
  rewrite shr_1_shift. f_equal. lia.
Qed.



Lemma opp_null x : null (- x) → null x.
Proof. unfold null. rewrite opp_spec. by destruct (Prim2SF x). Qed.

End Binary64.

(** ** The constraint deriver *)

Section Rows.

(** The division factor of the row before does not reach the row after:
    the first element of every row replaces it. *)
Lemma normalize_step_fold df counter (m : ConstDoubleEntry) rest :
  foldl normalize_step (df, S counter, m) rest =
    (df, S counter + length rest,
     foldl (λ m it2, <[col it2 := (val it2 * df)%float]> m) m rest).
Proof.
  revert counter m. induction rest as [|e rest IH]; intros counter m; simpl.
  - by rewrite Nat.add_0_r.
  - rewrite (IH (S counter)). do 2 f_equal. lia.
Qed.

Lemma normalize_row_scale division_factor it :
  (normalize_row division_factor it).2 = scale_row it.
Proof.
  unfold normalize_row. destruct it as [|first rest]; [done|].
  simpl foldl. by rewrite normalize_step_fold.
Qed.

Lemma normalize_rows_scale constraint_all :
  normalize_rows constraint_all = scale_row <$> constraint_all.
Proof.
  unfold normalize_rows.
  assert (∀ df out,
    (foldl (λ '(division_factor, const_out) it,
              let '(division_factor, const_tmp2) :=
                normalize_row division_factor it in
              (division_factor, const_out ++ [const_tmp2]))
           (df, out) constraint_all).2 = out ++ (scale_row <$> constraint_all))
    as Hfold.
  { induction constraint_all as [|it l IH]; intros df out; simpl.
    - by rewrite app_nil_r.
    - pose proof (normalize_row_scale df it) as Hs.
      destruct (normalize_row df it) as [df' row]. simpl in Hs. subst row.
      rewrite IH. by rewrite <-(assoc_L (++)). }
  by rewrite Hfold.
Qed.

Lemma insert_fold_lookup (f : ConstraintDoubleElement → float) it :
  ∀ m : ConstDoubleEntry,
  NoDup (col <$> it) →
  (∀ e, e ∈ it →
     foldl (λ m it2, <[col it2 := f it2]> m) m it !! col e = Some (f e))
  ∧ (∀ k, k ∉ col <$> it →
     foldl (λ m it2, <[col it2 := f it2]> m) m it !! k = m !! k).
Proof.
  induction it as [|e0 it IH]; intros m.
  { intros _. split; [by intros e ?%elem_of_nil|done]. }
  rewrite fmap_cons, NoDup_cons. simpl foldl. intros [Hnotin Hnd].
  destruct (IH (<[col e0 := f e0]> m) Hnd) as [Hin Hout]. split.
  - intros e [->|He]%elem_of_cons; [|by apply Hin].
    rewrite Hout; [by rewrite lookup_insert_eq|done].
  - intros k Hk. rewrite Hout.
    + apply lookup_insert_ne. intros Heq. apply Hk. rewrite <-Heq. left.
    + intros Hk'. apply Hk. by right.
Qed.

Lemma ascending_columns_NoDup it : ascending_columns it → NoDup (col <$> it).
Proof.
  unfold ascending_columns. induction 1 as [|k l _ IH Hk]; [constructor|].
  apply NoDup_cons. split; [|done].
  intros Hin. eapply Forall_forall in Hk; [|done]. lia.
Qed.

(** The emitted row of a candidate with ascending columns. *)
Lemma scale_row_lookup first rest :
  ascending_columns (first :: rest) →
  scale_row (first :: rest) !! col first = Some (val first * (1 / val first))%float
  ∧ (∀ k, k < col first → scale_row (first :: rest) !! k = None)
  ∧ ∀ e, e ∈ rest →
      scale_row (first :: rest) !! col e = Some (val e * (1 / val first))%float.
Proof.
  intros Hasc. pose proof (ascending_columns_NoDup _ Hasc) as Hnd.
  destruct (insert_fold_lookup (λ e, (val e * (1 / val first))%float)
              (first :: rest) ∅ Hnd) as [Hin Hout].
  unfold scale_row. split_and!.
  - apply Hin. left.
  - intros k Hk. rewrite Hout; [done|].
    unfold ascending_columns in Hasc. rewrite fmap_cons in Hasc.
    apply StronglySorted_inv in Hasc as [_ Hall].
    intros [->|Hin']%elem_of_cons; [lia|].
    eapply Forall_forall in Hall; [|done]. lia.
  - intros e He. apply Hin. by right.
Qed.



Lemma unique_after_subseteq kept l : unique_after kept l ⊆ l.
Proof.
  revert kept. induction l as [|x l IH]; intros kept; simpl; [done|].
  destruct (row_eqb kept x).
  - intros y Hy. right. by eapply IH.
  - intros y [->|Hy]%elem_of_cons; [left|right; by eapply IH].
Qed.

Lemma unique_subseteq l : unique l ⊆ l.
Proof.
  destruct l as [|x l]; [done|]. simpl.
  intros y [->|Hy]%elem_of_cons; [left|right; by eapply unique_after_subseteq].
Qed.

Lemma kept_rows_subseteq constraint_all :
  unique (sort_rows constraint_all) ⊆ constraint_all.
Proof.
  intros it Hit%unique_subseteq. unfold sort_rows in Hit.
  by rewrite merge_sort_Permutation in Hit.
Qed.

End Rows.

(** The candidate rows of [constraint_row] list their columns in ascending
    order. *)
Lemma constraint_row_ascending n nat_ natmin map_p2s xyzcomponent nparams
    list_found list_tmp op it :
  constraint_row n nat_ natmin map_p2s xyzcomponent nparams list_found list_tmp op
    = Some it →
  ascending_columns it.
Proof.
  unfold constraint_row. destruct (negb _); [done|].
  destruct (is_allzero _ _) as [[] loc]; [done|]. intros [= <-].
  set (const_now := if PrimFloat.ltb _ _ then _ else _). clearbody const_now.
  unfold ascending_columns.
  assert (∀ start len,
    StronglySorted lt
      (col <$> omap (λ j, if PrimFloat.leb eps8 (abs (nth j const_now 0%float))
                          then Some (mkElem j (nth j const_now 0%float))
                          else None) (seq start len))
    ∧ Forall (λ k, start ≤ k)
        (col <$> omap (λ j, if PrimFloat.leb eps8 (abs (nth j const_now 0%float))
                            then Some (mkElem j (nth j const_now 0%float))
                            else None) (seq start len))) as Hseq.
  { intros start len. revert start.
    induction len as [|len IH]; intros start; simpl; [by split; constructor|].
    destruct (IH (S start)) as [Hs Hf].
    destruct (PrimFloat.leb _ _); simpl.
    - split; constructor; [done| |lia|].
      + eapply Forall_impl; [done|]. simpl. lia.
      + eapply Forall_impl; [done|]. simpl. lia.
    - split; [done|]. eapply Forall_impl; [done|]. simpl. lia. }
  apply Hseq.
Qed.

Lemma constraint_list_ascending n nat_ natmin map_p2s xyzcomponent nparams ops
    fc_table_in :
  Forall ascending_columns
    (constraint_list n nat_ natmin map_p2s xyzcomponent nparams ops fc_table_in).
Proof.
  unfold constraint_list. apply Forall_concat, Forall_fmap, Forall_forall.
  intros p _. apply Forall_forall. intros it (op & _ & Hit)%list_elem_of_omap.
  by eapply constraint_row_ascending.
Qed.

(** ** The identity operation in the constraint deriver *)

Lemma map_nth_seq (l : list nat) n : length l = n → map (λ i, nth i l 0) (seq 0 n) = l.
Proof.
  intros <-. apply list_eq. intros i.
  change (map ?f ?l) with (f <$> l). rewrite list_lookup_fmap.
  destruct (decide (i < length l)) as [Hi|Hi].
  - rewrite lookup_seq_lt by done. simpl.
    destruct (nth_lookup_or_length l i 0) as [->|]; [done|lia].
  - rewrite lookup_seq_ge, lookup_ge_None_2 by lia. done.
Qed.

Section IdentityCoefficient.

Local Open Scope float_scope.

Lemma identity3_entry a b :
  (a < 3)%nat → (b < 3)%nat →
  nth a (nth b identity3 []) 0 = if decide (a = b) then 1 else 0.
Proof.
  intros Ha Hb.
  destruct a as [|[|[|a]]]; [| | |lia]; destruct b as [|[|[|b]]]; try lia; done.
Qed.

Lemma coef_sym_identity_prefix xyz1 xyz2 k :
  (k ≤ length xyz1)%nat → length xyz1 = length xyz2 →
  Forall (λ d, (d < 3)%nat) xyz1 → Forall (λ d, (d < 3)%nat) xyz2 →
  coef_sym k identity3 xyz1 xyz2
  = if decide (take k xyz1 = take k xyz2) then 1 else 0.
Proof.
  intros Hk Hlen H1 H2. unfold coef_sym. induction k as [|k IH]; [done|].
  rewrite seq_S, foldl_snoc, IH by lia. cbv beta. rewrite Nat.add_0_l.
  destruct (nth_lookup_or_length xyz1 k 0%nat) as [Hl1|]; [|lia].
  destruct (nth_lookup_or_length xyz2 k 0%nat) as [Hl2|]; [|lia].
  rewrite (take_S_r _ _ _ Hl1), (take_S_r _ _ _ Hl2).
  rewrite identity3_entry.
  2:{ eapply Forall_forall in H1; [done|]. by eapply list_elem_of_lookup_2. }
  2:{ eapply Forall_forall in H2; [done|]. by eapply list_elem_of_lookup_2. }
  destruct (decide (take k xyz1 = take k xyz2)) as [Heq|Hne],
    (decide (nth k xyz1 0%nat = nth k xyz2 0%nat)) as [Hn|Hn],
    (decide (take k xyz1 ++ [nth k xyz1 0%nat] = take k xyz2 ++ [nth k xyz2 0%nat]))
      as [Ha|Ha]; try done.
  - destruct Ha. by rewrite Heq, Hn.
  - by apply app_inj_2 in Ha as [_ [=]].
  - apply app_inj_1 in Ha as [? _]; [done|]. rewrite !length_take. lia.
  - apply app_inj_1 in Ha as [? _]; [done|]. rewrite !length_take. lia.
Qed.

(** Under the identity the coefficient is 1 for the same assignment and 0
    for any other. *)
Lemma coef_sym_identity n xyz1 xyz2 :
  length xyz1 = n → length xyz2 = n →
  Forall (λ d, (d < 3)%nat) xyz1 → Forall (λ d, (d < 3)%nat) xyz2 →
  coef_sym n identity3 xyz1 xyz2 = if decide (xyz1 = xyz2) then 1 else 0.
Proof.
  intros Hn1 Hn2 H1 H2.
  rewrite coef_sym_identity_prefix; [|lia|congruence|done..].
  by rewrite !take_ge by lia.
Qed.



End IdentityCoefficient.

Section IdentityRows.

Variables (n nat_ natmin : nat) (map_p2s : list (list nat)).













End IdentityRows.

(** ** The rows that [get_constraint_symmetry] returns *)

Example site_table_generated :
  generate_force_constant_table 0 1 [[0; 0]] Inputs.sheared_site "Cartesian"
    [] [] [] true
  = Ok (Inputs.site_table, [1; 2; 2; 1; 2; 1], []).
Proof. vm_compute. reflexivity. Qed.




(** The product [val * (1 / val)] is rounded: a candidate row with the
    single value 49 is emitted with the coefficient 1 - 2^-53 at its first
    column. *)
Lemma first_coefficient_rounded :
  ∃ rows row,
    get_constraint_symmetry no_reduction 1 Inputs.stretched_site 0 "Cartesian"
      Inputs.site_table 6 0 [] false = Ok rows
    ∧ rows !! 0 = Some row
    ∧ row !! 0 = None
    ∧ row !! 1 = Some 0x1.fffffffffffffp-1%float
    ∧ (0x1.fffffffffffffp-1 =? 1)%float = false.
Proof.
  eexists _, _. split; [vm_compute; reflexivity|].
  split; [reflexivity|]. by vm_compute.
Qed.






(** ** The layout of the table *)

Lemma block_labels_snoc nd c : ∀ k,
  block_labels k (nd ++ [c])
  = block_labels k nd ++ replicate c (k + N.of_nat (length nd))%N.
Proof.
  induction nd as [|d nd IH]; intros k; simpl.
  - by rewrite N.add_0_r, app_nil_r.
  - rewrite IH, <-(assoc_L (++)). do 3 f_equal. lia.
Qed.

Lemma build_table_labels n nat_ natmin map_p2s xyzcomponent ops store pairs :
  let st := build_table n nat_ natmin map_p2s xyzcomponent ops store pairs in
  mother <$> fc_vec st = block_labels 0 (ndup st).
Proof.
  intros st.
  cut (mother <$> fc_vec st = block_labels 0 (ndup st)
       ∧ length (ndup st) = N.to_nat (nmother st)); [by intros []|].
  unfold st.
  apply (build_table_invariant n nat_ natmin map_p2s xyzcomponent (λ st,
    mother <$> fc_vec st = block_labels 0 (ndup st)
    ∧ length (ndup st) = N.to_nat (nmother st))); [done|].
  intros st' pair xyz1 _ _ (Hlab & Hlen) _.
  destruct (scan_orbit_appended n nat_ natmin map_p2s xyzcomponent ops st'
              (map (λ i, nth i pair 0) (seq 0 n)) xyz1) as [added Happ].
  rewrite (close_orbit_appended _ _ _ _ _ _ _ _ _ _ _ _ Happ).
  destruct (is_zero _); simpl; [done|].
  rewrite fmap_app, block_labels_snoc, Hlab, length_app. simpl.
  split; [|lia]. f_equal.
  destruct Happ as (_ & _ & _ & Hgen).
  replace (0 + N.of_nat (length (ndup st')))%N with (nmother st') by lia.
  clear -Hgen. induction Hgen as [|e added (op & xyz2 & _ & _ & _ & _ & Hm & _) _ IH];
    [done|]. rewrite fmap_cons. cbn [length replicate]. by rewrite Hm, IH.
Qed.

Lemma sort_orbits_labels nd : ∀ k fc,
  mother <$> fc = block_labels k nd →
  mother <$> sort_orbits nd fc = block_labels k nd.
Proof.
  induction nd as [|c nd IH]; intros k fc Hfc; simpl in *; [done|].
  rewrite fmap_app.
  assert (mother <$> take c fc = replicate c k) as Htake.
  { rewrite fmap_take, Hfc.
    by rewrite take_app_length' by by rewrite length_replicate. }
  assert (mother <$> drop c fc = block_labels (k + 1) nd) as Hdrop.
  { rewrite fmap_drop, Hfc.
    by rewrite drop_app_length' by by rewrite length_replicate. }
  f_equal; [|by apply IH].
  symmetry. apply replicate_Permutation. rewrite <-Htake.
  unfold sort_fc. by rewrite merge_sort_Permutation.
Qed.

Lemma block_labels_lookup nd : ∀ k0 k c i,
  nd !! k = Some c → i < c →
  block_labels k0 nd !! (sum_list (take k nd) + i) = Some (k0 + N.of_nat k)%N.
Proof.
  induction nd as [|d nd IH]; intros k0 k c i Hk Hi; [done|].
  destruct k as [|k]; simpl in *.
  - injection Hk as ->. rewrite lookup_app_l by (rewrite length_replicate; lia).
    rewrite N.add_0_r. by apply lookup_replicate.
  - rewrite lookup_app_r by (rewrite length_replicate; lia).
    rewrite length_replicate.
    replace (d + sum_list (take k nd) + i - d) with (sum_list (take k nd) + i) by lia.
    rewrite (IH (k0 + 1)%N k c i Hk Hi). f_equal. lia.
Qed.

(** X1: the live table is laid out orbit by orbit: the identifiers of its
    entries, read in order, are [ndup[0]] copies of 0, then [ndup[1]] copies
    of 1, and so on; so the entries of orbit [k] are the [ndup[k]] entries
    from the offset [ndup[0] + ... + ndup[k-1]] on, which is where the
    readers of the table look for them. *)
Theorem table_laid_out_by_orbit order nat_ pairs symm_in basis fc0 nd0 z0 store
    fc nd z :
  (0 ≤ order)%Z →
  generate_force_constant_table order nat_ pairs symm_in basis fc0 nd0 z0 store
    = Ok (fc, nd, z) →
  mother <$> fc = block_labels 0 nd
  ∧ ∀ k c i, nd !! k = Some c → i < c →
      ∃ e, fc !! (sum_list (take k nd) + i) = Some e ∧ mother e = N.of_nat k.
Proof.
  intros Horder Hgen.
  destruct (generate_returns _ _ _ _ _ _ _ _ _ _ _ _ Horder Hgen)
    as (ops & Hops & -> & -> & _).
  set (st := build_table _ _ _ _ _ _ _ _).
  assert (mother <$> sort_orbits (ndup st) (fc_vec st) = block_labels 0 (ndup st))
    as Hlab by apply sort_orbits_labels, build_table_labels.
  split; [done|]. intros k c i Hk Hi.
  pose proof (block_labels_lookup (ndup st) 0 k c i Hk Hi) as Hl.
  rewrite <-Hlab, list_lookup_fmap in Hl.
  destruct (sort_orbits _ _ !! _) as [e|]; [|done].
  exists e. split; [done|]. injection Hl as ->. lia.
Qed.

Lemma table_laid_out_by_orbit_witness :
  ∃ fc nd z,
    generate_force_constant_table 0 3 [[0; 1]] Inputs.chain3 "Cartesian" [] [] [] true
      = Ok (fc, nd, z)
    ∧ mother <$> fc = block_labels 0 nd
    ∧ ∀ k c i, nd !! k = Some c → i < c →
        ∃ e, fc !! (sum_list (take k nd) + i) = Some e ∧ mother e = N.of_nat k.
Proof.
  eexists _, _, _. split; [vm_compute; reflexivity|].
  eapply (table_laid_out_by_orbit 0 3 [[0; 1]] Inputs.chain3 "Cartesian" [] [] [] true);
    [lia|vm_compute; reflexivity].
Defined.

(** ** Live and zero entries together *)

Section IndexedFacts.

Variables (n nat_ natmin : nat) (map_p2s : list (list nat)).

Local Abbreviation valid_index' := (valid_index n nat_ natmin map_p2s).
Local Abbreviation indexed' := (indexed n nat_ natmin map_p2s).

Lemma indexed_mono found found' idx :
  found ⊆ found' → indexed' found idx → indexed' found' idx.
Proof.
  intros Hsub [Hnd Hk]. split; [done|]. intros K HK.
  destruct (Hk K HK) as (? & ? & ?). split_and!; [done..|]. by apply Hsub.
Qed.

Lemma indexed_submseteq found idx idx' :
  idx' ⊆+ idx → indexed' found idx → indexed' found idx'.
Proof.
  intros Hsub [Hnd Hk]. split.
  - apply submseteq_Permutation in Hsub as [k Hp]. rewrite Hp in Hnd.
    by apply NoDup_app in Hnd as [? _].
  - intros K HK. apply Hk. by eapply elem_of_submseteq.
Qed.

(** The front of a canonical index and of every index built from it. *)
Lemma new_entries_front K c m e :
  valid_index' K →
  is_inprim_index (nth 0 K 0) natmin map_p2s = true →
  e ∈ new_entries n nat_ natmin map_p2s K c m →
  is_inprim_index (nth 0 (elems e) 0) natmin map_p2s = true.
Proof.
  intros HK Hfront. unfold new_entries.
  intros [->|(i & -> & Hi)%list_elem_of_fmap]%elem_of_cons; [done|].
  apply extra_slots_spec in Hi as [Hi%elem_of_seq Hp]. simpl.
  destruct (permuted_entry n nat_ natmin map_p2s K i HK) as [Hhd _]; [lia|].
  destruct (sort_tail (swap 0 i K)) as [|x l] eqn:E; simpl in *; by rewrite Hhd.
Qed.

Lemma canonicalize_front raw :
  valid_index' raw →
  is_inprim_index (nth 0 (canonicalize n nat_ natmin map_p2s raw) 0) natmin map_p2s
    = true.
Proof.
  intros Hraw.
  by destruct (canonicalize_spec n nat_ natmin map_p2s raw Hraw)
    as (a & rest & -> & _ & Hp & _).
Qed.

Lemma indexed_new found idx raw c m :
  let K := canonicalize n nat_ natmin map_p2s raw in
  valid_index' raw → K ∉ found → indexed' found idx →
  indexed' ({[K]} ∪ found)
           (idx ++ (elems <$> new_entries n nat_ natmin map_p2s K c m)).
Proof.
  intros K Hraw Hnew [Hnd Hk].
  assert (valid_index' K) as HK.
  { eapply valid_index_Permutation; [|done].
    symmetry. by apply canonicalize_Permutation_self. }
  assert (canonicalize n nat_ natmin map_p2s K = K) as Hidem
    by by apply canonicalize_idemp.
  destruct (new_entries_keyed n nat_ natmin map_p2s K c m HK) as [Hnd' Hnew'].
  assert (∀ e, e ∈ new_entries n nat_ natmin map_p2s K c m →
               canonicalize n nat_ natmin map_p2s (elems e) = K) as Hkey.
  { intros e He. destruct (Hnew' e He) as (Hp & _).
    by rewrite <-(canonicalize_Permutation n nat_ natmin map_p2s K (elems e)). }
  split.
  - apply NoDup_app. split; [done|]. split; [|done].
    intros l Hl (e' & -> & He')%list_elem_of_fmap.
    destruct (Hk _ Hl) as (_ & _ & Hin). by rewrite (Hkey e' He') in Hin.
  - intros l [Hl|(e & -> & He)%list_elem_of_fmap]%elem_of_app.
    + destruct (Hk l Hl) as (? & ? & ?).
      split_and!; [done..|]. apply elem_of_union. by right.
    + destruct (Hnew' e He) as (Hp & _). rewrite (Hkey e He). split_and!.
      * eapply valid_index_Permutation; [symmetry; exact Hp|done].
      * eapply new_entries_front; [done| |done]. by apply canonicalize_front.
      * apply elem_of_union. left. by apply elem_of_singleton.
Qed.

Variable xyzcomponent : list (list nat).
Variable ops : list SymmOp.

Hypothesis xyz_axes : ∀ w, w ∈ xyzcomponent → Forall (λ d, d < 3) w.
Hypothesis ops_atoms : ∀ op a, op ∈ ops → nth a (mapping op) 0 < nat_.

Local Abbreviation scan_orbit' := (scan_orbit n nat_ natmin map_p2s xyzcomponent).
Local Abbreviation build_table' := (build_table n nat_ natmin map_p2s xyzcomponent).

Lemma scan_orbit_indexed st atmn xyz1 :
  indexed' (list_found st) (elems <$> (fc_vec st ++ fc_zeros_out st)) →
  indexed' (o_found (scan_orbit' ops st atmn xyz1))
           (elems <$> (o_fc (scan_orbit' ops st atmn xyz1) ++ fc_zeros_out st)).
Proof.
  intros Hst. unfold scan_orbit.
  apply (foldl_invariant
           (λ o, indexed' (o_found o) (elems <$> (o_fc o ++ fc_zeros_out st))));
    [done|].
  intros o op Hop Ho. unfold scan_symmetry. fold (map_atoms n atmn op).
  destruct (is_inprim n _ natmin map_p2s) eqn:Hprim; simpl; [|done].
  apply (foldl_invariant
           (λ o, indexed' (o_found o) (elems <$> (o_fc o ++ fc_zeros_out st))));
    [done|].
  clear o Ho. intros o xyz2 Hxyz Ho. rewrite visit_unfold.
  destruct (PrimFloat.ltb eps12 _); [|done].
  case_bool_decide as Hfound; [done|]. simpl.
  eapply indexed_submseteq; [|apply indexed_new; [|exact Hfound|exact Ho]].
  - rewrite !fmap_app. rewrite <-!(assoc_L (++)).
    apply submseteq_skips_l. by rewrite (comm (++)).
  - apply flatten_valid; [|by apply xyz_axes|done].
    intros i. by apply (map_atoms_bound n nat_ ops ops_atoms).
Qed.

Lemma build_table_indexed store pairs :
  let st := build_table' ops store pairs in
  indexed' (list_found st) (elems <$> (fc_vec st ++ fc_zeros_out st)).
Proof.
  apply (build_table_invariant n nat_ natmin map_p2s xyzcomponent
           (λ st, indexed' (list_found st)
                           (elems <$> (fc_vec st ++ fc_zeros_out st)))).
  { split; [constructor|]. by intros e ?%elem_of_nil. }
  intros st pair xyz1 _ _ Hst _.
  set (atmn := map (λ i, nth i pair 0) (seq 0 n)).
  pose proof (scan_orbit_indexed st atmn xyz1 Hst) as Ho.
  destruct (scan_orbit_appended n nat_ natmin map_p2s xyzcomponent ops st atmn xyz1)
    as [added Happ].
  rewrite (close_orbit_appended _ _ _ _ _ _ _ _ _ _ _ _ Happ).
  destruct Happ as (Hfc & _ & Hsub & _). rewrite Hfc in Ho.
  destruct (is_zero _); simpl; [|done].
  eapply indexed_submseteq; [|exact Ho].
  destruct store.
  - rewrite !fmap_app, <-!(assoc_L (++)). apply submseteq_skips_l.
    rewrite (comm (++) (elems <$> added)). apply submseteq_skips_l.
    apply Permutation_submseteq.
    change (map ?f ?l) with (f <$> l). rewrite <-list_fmap_compose.
    rewrite (list_fmap_ext _ elems (reverse added)) by done.
    by rewrite reverse_Permutation.
  - rewrite !fmap_app, <-!(assoc_L (++)). apply submseteq_skips_l.
    by apply submseteq_inserts_l.
Qed.

End IndexedFacts.

(** The invariant [indexed] of the entries that a call returns, live and
    zero together. *)
Lemma generate_indexed order nat_ pairs symm_in basis fc0 nd0 z0 store fc nd z :
  (0 ≤ order)%Z →
  (∀ a c, nth c (nth a (get_map_sym symm_in) []) 0 < nat_) →
  generate_force_constant_table order nat_ pairs symm_in basis fc0 nd0 z0 store
    = Ok (fc, nd, z) →
  ∃ found, indexed (Z.to_nat (order + 2)) nat_ (get_nat_prim symm_in)
             (get_map_p2s symm_in) found (elems <$> (fc ++ z)).
Proof.
  intros Horder Hmap Hgen.
  destruct (generate_returns _ _ _ _ _ _ _ _ _ _ _ _ Horder Hgen)
    as (ops & Hops & -> & _ & ->).
  eexists. eapply indexed_submseteq;
    [|apply (build_table_indexed (Z.to_nat (order + 2)) nat_ (get_nat_prim symm_in)
              (get_map_p2s symm_in) (words (Z.to_nat (order + 2))) ops
              (words_axes _)
              (λ op a, get_available_symmop_atoms _ _ _ _ _ Hmap Hops op a)
              store pairs)].
  apply Permutation_submseteq. by rewrite sort_orbits_Permutation.
Qed.

(** X2: no index occurs twice among the live and the zero entries of a
    table taken together; in particular no index is both live and zero. *)
Theorem live_and_zero_indices_distinct order nat_ pairs symm_in basis fc0 nd0 z0
    store fc nd z :
  (0 ≤ order)%Z →
  (∀ a c, nth c (nth a (get_map_sym symm_in) []) 0 < nat_) →
  generate_force_constant_table order nat_ pairs symm_in basis fc0 nd0 z0 store
    = Ok (fc, nd, z) →
  NoDup (elems <$> (fc ++ z))
  ∧ ∀ e1 e2, e1 ∈ fc → e2 ∈ z → elems e1 ≠ elems e2.
Proof.
  intros Horder Hmap Hgen.
  destruct (generate_indexed _ _ _ _ _ _ _ _ _ _ _ _ Horder Hmap Hgen)
    as (found & Hnd & _).
  split; [done|]. intros e1 e2 H1 H2 Heq.
  rewrite fmap_app in Hnd. apply NoDup_app in Hnd as (_ & Hdisj & _).
  apply (Hdisj (elems e1)); [by apply list_elem_of_fmap_2|].
  rewrite Heq. by apply list_elem_of_fmap_2.
Qed.

Lemma live_and_zero_indices_distinct_witness :
  ∃ fc nd z,
    generate_force_constant_table 0 1 [[0; 0]] Inputs.site "Cartesian" [] [] [] true
      = Ok (fc, nd, z)
    ∧ NoDup (elems <$> (fc ++ z))
    ∧ ∀ e1 e2, e1 ∈ fc → e2 ∈ z → elems e1 ≠ elems e2.
Proof.
  eexists _, _, _. split; [vm_compute; reflexivity|].
  eapply (live_and_zero_indices_distinct 0 1 [[0; 0]] Inputs.site "Cartesian"
            [] [] [] true).
  - lia.
  - intros a c. destruct a as [|[|a]], c as [|[|[|c]]]; simpl; lia.
  - vm_compute. reflexivity.
Defined.

(** X3: every entry of a table, live or zero, has an index of [order + 2]
    flattened indices of the supercell, and the first of them belongs to an
    atom of the primitive cell. *)
Theorem entries_start_in_primitive_cell order nat_ pairs symm_in basis fc0 nd0 z0
    store fc nd z :
  (0 ≤ order)%Z →
  (∀ a c, nth c (nth a (get_map_sym symm_in) []) 0 < nat_) →
  generate_force_constant_table order nat_ pairs symm_in basis fc0 nd0 z0 store
    = Ok (fc, nd, z) →
  Forall (λ e, entry_shape (Z.to_nat (order + 2)) nat_ (get_nat_prim symm_in)
                 (get_map_p2s symm_in) (elems e)) (fc ++ z).
Proof.
  intros Horder Hmap Hgen.
  destruct (generate_indexed _ _ _ _ _ _ _ _ _ _ _ _ Horder Hmap Hgen)
    as (found & _ & Hk).
  apply Forall_forall. intros e He.
  destruct (Hk (elems e)) as ((Hlen & Hlt & _) & Hfront & _);
    [by apply list_elem_of_fmap_2|].
  by split_and!.
Qed.

Lemma entries_start_in_primitive_cell_witness :
  ∃ fc nd z,
    generate_force_constant_table 0 3 [[0; 1]] Inputs.chain3 "Cartesian" [] [] [] true
      = Ok (fc, nd, z)
    ∧ Forall (λ e, entry_shape (Z.to_nat (0 + 2)) 3 (get_nat_prim Inputs.chain3)
                     (get_map_p2s Inputs.chain3) (elems e)) (fc ++ z).
Proof.
  eexists _, _, _. split; [vm_compute; reflexivity|].
  eapply (entries_start_in_primitive_cell 0 3 [[0; 1]] Inputs.chain3 "Cartesian"
            [] [] [] true).
  - lia.
  - intros a c.
    destruct a as [|[|[|[|a]]]], c as [|[|[|[|c]]]]; simpl; lia.
  - vm_compute. reflexivity.
Defined.

(** The zero entries of [build_table]. *)
Lemma build_table_zeros n nat_ natmin map_p2s xyzcomponent ops store pairs :
  let st := build_table n nat_ natmin map_p2s xyzcomponent ops store pairs in
  Forall (λ e, mother e = size_t_max) (fc_zeros_out st)
  ∧ (store = false → fc_zeros_out st = []).
Proof.
  apply (build_table_invariant n nat_ natmin map_p2s xyzcomponent (λ st,
    Forall (λ e, mother e = size_t_max) (fc_zeros_out st)
    ∧ (store = false → fc_zeros_out st = []))); [done|].
  intros st pair xyz1 _ _ (Hz & He) _.
  destruct (scan_orbit_appended n nat_ natmin map_p2s xyzcomponent ops st
              (map (λ i, nth i pair 0) (seq 0 n)) xyz1) as [added Happ].
  rewrite (close_orbit_appended _ _ _ _ _ _ _ _ _ _ _ _ Happ).
  destruct (is_zero _); simpl; [|done].
  destruct store; [|done]. split; [|done].
  apply Forall_app; split; [done|]. by apply Forall_fmap, Forall_true.
Qed.

(** X4: every entry of the zero-entries output carries the sentinel
    [size_t max] as its identifier, and the output is empty when
    [store_zeros_in] is false. *)
Theorem zero_entries_carry_sentinel order nat_ pairs symm_in basis fc0 nd0 z0
    store fc nd z :
  (0 ≤ order)%Z →
  generate_force_constant_table order nat_ pairs symm_in basis fc0 nd0 z0 store
    = Ok (fc, nd, z) →
  Forall (λ e, mother e = size_t_max) z ∧ (store = false → z = []).
Proof.
  intros Horder Hgen.
  destruct (generate_returns _ _ _ _ _ _ _ _ _ _ _ _ Horder Hgen)
    as (ops & Hops & _ & _ & ->).
  apply build_table_zeros.
Qed.

Lemma zero_entries_carry_sentinel_witness :
  ∃ fc nd z,
    generate_force_constant_table 0 1 [[0; 0]] Inputs.site "Cartesian" [] [] [] true
      = Ok (fc, nd, z)
    ∧ z ≠ []
    ∧ Forall (λ e, mother e = size_t_max) z ∧ (true = false → z = []).
Proof.
  eexists _, _, _. split; [vm_compute; reflexivity|]. split; [done|].
  eapply (zero_entries_carry_sentinel 0 1 [[0; 0]] Inputs.site "Cartesian"
            [] [] [] true); [lia|vm_compute; reflexivity].
Defined.

(** ** The live table does not depend on [store_zeros_in] *)

Lemma foldl_related {A B} (R : A → A → Prop) (f g : A → B → A) (l : list B) a b :
  R a b → (∀ a b x, R a b → R (f a x) (g b x)) → R (foldl f a l) (foldl g b l).
Proof.
  intros Hab Hstep. revert a b Hab.
  induction l as [|x l IH]; intros a b Hab; simpl; [done|].
  by apply IH, Hstep.
Qed.

Lemma build_table_store n nat_ natmin map_p2s xyzcomponent ops pairs :
  let st := build_table n nat_ natmin map_p2s xyzcomponent ops true pairs in
  let st' := build_table n nat_ natmin map_p2s xyzcomponent ops false pairs in
  fc_vec st = fc_vec st' ∧ ndup st = ndup st'.
Proof.
  set (R := λ st st' : table_state,
         list_found st = list_found st' ∧ fc_vec st = fc_vec st'
         ∧ ndup st = ndup st' ∧ nmother st = nmother st').
  cut (R (build_table n nat_ natmin map_p2s xyzcomponent ops true pairs)
         (build_table n nat_ natmin map_p2s xyzcomponent ops false pairs)).
  { by intros (_ & ? & ? & _). }
  unfold build_table. apply foldl_related; [done|].
  intros st st' pair Hst. unfold search_cluster. apply foldl_related; [done|].
  clear st st' Hst. intros st st' xyz1 (Hfound & Hfc & Hnd & Hm).
  unfold search_orbit. destruct (negb _); [done|].
  rewrite Hfound, Hfc, Hm. case_bool_decide; [done|].
  unfold close_orbit. rewrite Hnd, Hm. by destruct (is_zero _).
Qed.

(** X8: [store_zeros_in] decides about the zero-entries output only: a call
    with the flag set and a call without it return the same live table and
    the same duplicate counts. *)
Theorem live_table_ignores_store_zeros order nat_ pairs symm_in basis fc0 nd0 z0
    fc nd z :
  (0 ≤ order)%Z →
  generate_force_constant_table order nat_ pairs symm_in basis fc0 nd0 z0 true
    = Ok (fc, nd, z) →
  generate_force_constant_table order nat_ pairs symm_in basis fc0 nd0 z0 false
    = Ok (fc, nd, []).
Proof.
  intros Horder. unfold generate_force_constant_table.
  destruct (Z.ltb_spec order 0) as [|_]; [lia|].
  destruct (get_available_symmop nat_ symm_in basis true) as [ops|]; [|done].
  intros [= <- <- <-].
  destruct (build_table_store (Z.to_nat (order + 2)) nat_ (get_nat_prim symm_in)
              (get_map_p2s symm_in) (xyz_table (Z.to_nat (order + 2))) ops pairs)
    as [<- <-].
  destruct (build_table_zeros (Z.to_nat (order + 2)) nat_ (get_nat_prim symm_in)
              (get_map_p2s symm_in) (xyz_table (Z.to_nat (order + 2))) ops false
              pairs) as [_ ->]; done.
Qed.

Lemma live_table_ignores_store_zeros_witness :
  ∃ fc nd z,
    generate_force_constant_table 0 1 [[0; 0]] Inputs.site "Cartesian" [] [] [] true
      = Ok (fc, nd, z)
    ∧ z ≠ []
    ∧ generate_force_constant_table 0 1 [[0; 0]] Inputs.site "Cartesian" [] [] [] false
      = Ok (fc, nd, []).
Proof.
  eexists _, _, _. split; [vm_compute; reflexivity|]. split; [done|].
  eapply (live_table_ignores_store_zeros 0 1 [[0; 0]] Inputs.site "Cartesian"
            [] [] []); [lia|vm_compute; reflexivity].
Defined.

(** ** The order of the entries within an orbit *)

Lemma SFltb_asym x y : SFltb x y = true → SFltb y x = false.
Proof.
  unfold SFltb.
  destruct x as [sx|sx| |sx mx ex], y as [sy|sy| |sy my ey]; simpl;
    try destruct sx; try destruct sy; simpl; try done;
    change (PosDef.Pos.compare_cont Eq ?a ?b) with (a ?= b)%positive;
    rewrite (Z.compare_antisym ex ey), (Pos.compare_antisym mx my);
    destruct (ex ?= ey)%Z; simpl; try done;
    by destruct (mx ?= my)%positive.
Qed.

Lemma float_ltb_asym (x y : float) :
  PrimFloat.ltb x y = true → PrimFloat.ltb y x = false.
Proof. rewrite !ltb_spec. apply SFltb_asym. Qed.

Lemma index_ltb_asym a : ∀ b, index_ltb a b = true → index_ltb b a = false.
Proof.
  induction a as [|x a IH]; intros [|y b]; simpl; try done.
  destruct (Nat.ltb_spec x y), (Nat.ltb_spec y x); try done; try lia.
  apply IH.
Qed.

Lemma index_ltb_trichotomy a : ∀ b,
  index_ltb a b = false → index_ltb b a = false → a = b.
Proof.
  induction a as [|x a IH]; intros [|y b]; simpl; try done.
  destruct (Nat.ltb_spec x y), (Nat.ltb_spec y x); try done.
  intros Ha Hb. f_equal; [lia|by apply IH].
Qed.

Lemma index_ltb_trans a : ∀ b c,
  index_ltb a b = true → index_ltb b c = true → index_ltb a c = true.
Proof.
  induction a as [|x a IH]; intros [|y b] [|z c]; simpl; try done.
  destruct (Nat.ltb_spec x y), (Nat.ltb_spec y x), (Nat.ltb_spec y z),
    (Nat.ltb_spec z y), (Nat.ltb_spec x z), (Nat.ltb_spec z x);
    try done; try lia.
  apply IH.
Qed.

Lemma fc_ltb_asym a b : fc_ltb a b = true → fc_ltb b a = false.
Proof.
  unfold fc_ltb.
  destruct (index_ltb (elems a) (elems b)) eqn:Hab; simpl.
  - intros _. by rewrite (index_ltb_asym _ _ Hab).
  - destruct (index_ltb (elems b) (elems a)) eqn:Hba; simpl; [done|].
    apply float_ltb_asym.
Qed.

(** [std::sort] leaves no element less than the one before it. *)
Lemma sort_fc_Sorted l : Sorted (λ a b, Is_true (negb (fc_ltb b a))) (sort_fc l).
Proof.
  assert (Total (λ a b, Is_true (negb (fc_ltb b a)))) as Htotal.
  { intros a b. destruct (fc_ltb b a) eqn:Hba; [|by left].
    right. by rewrite (fc_ltb_asym _ _ Hba). }
  apply (Sorted_merge_sort (λ a b, Is_true (negb (fc_ltb b a)))).
Qed.

(** Entries with pairwise distinct indices that [std::sort] has sorted
    are in ascending lexicographic order of their indices. *)
Lemma sort_fc_ascending l :
  NoDup (elems <$> l) →
  StronglySorted (λ a b, index_ltb (elems a) (elems b) = true) (sort_fc l).
Proof.
  intros Hnd.
  assert (NoDup (elems <$> sort_fc l)) as Hnd'.
  { unfold sort_fc. by rewrite merge_sort_Permutation. }
  apply Sorted_StronglySorted.
  { intros a b c. apply index_ltb_trans. }
  induction (sort_fc_Sorted l) as [|a s Hs IH Hhd]; [constructor|].
  rewrite fmap_cons in Hnd'. apply NoDup_cons in Hnd' as [Ha Hnd'].
  constructor; [by apply IH|].
  destruct Hhd as [|b s Hab]; constructor.
  destruct (index_ltb (elems a) (elems b)) eqn:Eab; [done|].
  destruct (index_ltb (elems b) (elems a)) eqn:Eba.
  { unfold fc_ltb in Hab. by rewrite Eba in Hab. }
  destruct Ha. rewrite (index_ltb_trichotomy _ _ Eab Eba), fmap_cons. left.
Qed.

Lemma blocks_sort_orbits nd : ∀ fc,
  sum_list nd ≤ length fc →
  blocks nd (sort_orbits nd fc) = sort_fc <$> blocks nd fc.
Proof.
  induction nd as [|c nd IH]; intros fc Hsum; simpl in *; [done|].
  assert (length (sort_fc (take c fc)) = c) as Hlen.
  { unfold sort_fc. rewrite merge_sort_Permutation, length_take. lia. }
  rewrite take_app_length', drop_app_length' by done.
  rewrite IH; [done|]. rewrite length_drop. lia.
Qed.

Lemma blocks_sublist nd : ∀ fc b, b ∈ blocks nd fc → b `sublist_of` fc.
Proof.
  induction nd as [|c nd IH]; intros fc b; simpl; [by intros ?%elem_of_nil|].
  intros [->|Hb]%elem_of_cons; [apply sublist_take|].
  etransitivity; [by apply IH|apply sublist_drop].
Qed.

(** X5: within every orbit of the live table the entries are in strictly
    ascending lexicographic order of their indices, so the first entry of
    an orbit is the one with the least index. *)
Theorem orbits_sorted_by_index order nat_ pairs symm_in basis fc0 nd0 z0 store
    fc nd z :
  (0 ≤ order)%Z →
  (∀ a c, nth c (nth a (get_map_sym symm_in) []) 0 < nat_) →
  generate_force_constant_table order nat_ pairs symm_in basis fc0 nd0 z0 store
    = Ok (fc, nd, z) →
  Forall (StronglySorted (λ a b, index_ltb (elems a) (elems b) = true))
         (blocks nd fc).
Proof.
  intros Horder Hmap Hgen.
  destruct (generate_returns _ _ _ _ _ _ _ _ _ _ _ _ Horder Hgen)
    as (ops & Hops & -> & -> & _).
  set (st := build_table _ _ _ _ _ _ _ _).
  destruct (build_table_counts (Z.to_nat (order + 2)) nat_ (get_nat_prim symm_in)
              (get_map_p2s symm_in) (words (Z.to_nat (order + 2))) ops store pairs)
    as (Hsum & _ & _). fold st in Hsum.
  destruct (build_table_keyed (Z.to_nat (order + 2)) nat_ (get_nat_prim symm_in)
              (get_map_p2s symm_in) (words (Z.to_nat (order + 2))) ops
              (words_axes _)
              (λ op a, get_available_symmop_atoms _ _ _ _ _ Hmap Hops op a)
              store pairs) as [Hnd _]. fold st in Hnd.
  rewrite blocks_sort_orbits by lia.
  apply Forall_fmap, Forall_forall. intros b Hb. simpl.
  apply sort_fc_ascending. eapply sublist_NoDup; [exact Hnd|].
  apply fmap_sublist. by eapply blocks_sublist.
Qed.

Lemma orbits_sorted_by_index_witness :
  ∃ fc nd z,
    generate_force_constant_table 0 3 [[0; 1]] Inputs.chain3 "Cartesian" [] [] [] true
      = Ok (fc, nd, z)
    ∧ Forall (StronglySorted (λ a b, index_ltb (elems a) (elems b) = true))
             (blocks nd fc).
Proof.
  eexists _, _, _. split; [vm_compute; reflexivity|].
  eapply (orbits_sorted_by_index 0 3 [[0; 1]] Inputs.chain3 "Cartesian" [] [] [] true).
  - lia.
  - intros a c.
    destruct a as [|[|[|[|a]]]], c as [|[|[|[|c]]]]; simpl; lia.
  - vm_compute. reflexivity.
Defined.

(** ** Coverage: what the identity operation guarantees *)

Lemma foldl_reaches {A B} (Q : A → Prop) (f : A → B → A) (l : list B) (a : A) x :
  x ∈ l → (∀ a, Q (f a x)) → (∀ a y, Q a → Q (f a y)) → Q (foldl f a l).
Proof.
  intros Hx Hat Hkeep. revert a.
  induction l as [|y l IH]; intros a; [by apply elem_of_nil in Hx|].
  apply elem_of_cons in Hx as [<-|Hx]; simpl.
  - apply foldl_invariant; [apply Hat|]. intros a' y _. apply Hkeep.
  - by apply IH.
Qed.

Lemma is_inprim_ext n arr arr' natmin map_p2s :
  (∀ i, i < n → nth i arr 0 = nth i arr' 0) →
  is_inprim n arr natmin map_p2s = is_inprim n arr' natmin map_p2s.
Proof.
  intros Heq. unfold is_inprim. apply eq_true_iff_eq.
  rewrite !existsb_exists.
  split; intros (i & Hi & Hp); exists i; (split; [done|]);
    apply in_seq in Hi; [rewrite <-Heq by lia|rewrite Heq by lia]; done.
Qed.

Lemma flatten_ext n atmn atmn' xyz :
  (∀ i, i < n → nth i atmn 0 = nth i atmn' 0) →
  flatten n atmn xyz = flatten n atmn' xyz.
Proof.
  intros Heq. unfold flatten. apply map_ext_in. intros i Hi%in_seq.
  rewrite Heq by lia. done.
Qed.

Section Coverage.

Variables (n nat_ natmin : nat) (map_p2s : list (list nat)).
Variable xyzcomponent : list (list nat).
Variable ops : list SymmOp.

Local Abbreviation scan_orbit' := (scan_orbit n nat_ natmin map_p2s xyzcomponent).
Local Abbreviation build_table' := (build_table n nat_ natmin map_p2s xyzcomponent).
Local Abbreviation canonical' := (canonicalize n nat_ natmin map_p2s).

(** What is registered during a search is the index of an entry that the
    search appended. *)
Lemma scan_orbit_found st atmn xyz1 :
  ∃ added,
    o_fc (scan_orbit' ops st atmn xyz1) = fc_vec st ++ added
    ∧ ∀ K, K ∈ o_found (scan_orbit' ops st atmn xyz1) →
        K ∈ list_found st ∨ K ∈ elems <$> added.
Proof.
  unfold scan_orbit.
  apply (foldl_invariant (λ o, ∃ added,
    o_fc o = fc_vec st ++ added
    ∧ ∀ K, K ∈ o_found o → K ∈ list_found st ∨ K ∈ elems <$> added)).
  { exists []. simpl. rewrite app_nil_r. split; [done|]. by left. }
  intros o op Hop Ho. unfold scan_symmetry.
  destruct (is_inprim n _ natmin map_p2s); simpl; [|done].
  apply (foldl_invariant (λ o, ∃ added,
    o_fc o = fc_vec st ++ added
    ∧ ∀ K, K ∈ o_found o → K ∈ list_found st ∨ K ∈ elems <$> added)); [done|].
  clear o Ho. intros o xyz2 Hxyz (added & Hfc & Hcov).
  rewrite visit_unfold.
  destruct (PrimFloat.ltb eps12 _); [|by exists added].
  destruct (bool_decide _); [by exists added|].
  eexists (added ++ _). simpl. split.
  - by rewrite Hfc, <-(assoc_L (++)).
  - intros K [->%elem_of_singleton|HK]%elem_of_union.
    + right. rewrite fmap_app. apply elem_of_app. right.
      unfold new_entries. rewrite fmap_cons. left.
    + destruct (Hcov K HK) as [|Hin]; [by left|right].
      rewrite fmap_app. apply elem_of_app. by left.
Qed.

Lemma visit_found_mono m ind xyz1 rot atmn_mapped o xyz2 K :
  K ∈ o_found o →
  K ∈ o_found (visit n nat_ natmin map_p2s m ind xyz1 rot atmn_mapped o xyz2).
Proof.
  intros HK. rewrite visit_unfold.
  destruct (PrimFloat.ltb eps12 _); [|done].
  destruct (bool_decide _); simpl; [done|]. apply elem_of_union. by right.
Qed.

Lemma scan_symmetry_found_mono m atmn ind xyz1 o op K :
  K ∈ o_found o →
  K ∈ o_found (scan_symmetry n nat_ natmin map_p2s xyzcomponent m atmn ind xyz1 o op).
Proof.
  intros HK. unfold scan_symmetry. destruct (negb _); [done|].
  apply foldl_invariant; [done|]. intros o' xyz2 _. apply visit_found_mono.
Qed.

(** The identity registers the canonical form of the index it is applied
    to. *)
Lemma scan_orbit_registers st atmn xyz1 op :
  op ∈ ops → identity_operation nat_ op →
  xyz1 ∈ xyzcomponent → length xyz1 = n → Forall (λ d, d < 3) xyz1 →
  (∀ i, i < n → nth i atmn 0 < nat_) →
  is_inprim n atmn natmin map_p2s = true →
  canonical' (flatten n atmn xyz1) ∈ o_found (scan_orbit' ops st atmn xyz1).
Proof.
  intros Hop [Hrot Hid] Hxyz Hlen Haxes Hat Hprim. unfold scan_orbit.
  apply (foldl_reaches (λ o, canonical' (flatten n atmn xyz1) ∈ o_found o)
           _ ops _ op Hop).
  2:{ intros o op'. apply scan_symmetry_found_mono. }
  intros o. unfold scan_symmetry.
  assert (∀ i, i < n →
            nth i (map (λ i, nth (nth i atmn 0) (mapping op) 0) (seq 0 n)) 0
            = nth i atmn 0) as Hsame.
  { intros i Hi. rewrite nth_map_seq by done. by apply Hid, Hat. }
  rewrite (is_inprim_ext n _ atmn natmin map_p2s Hsame), Hprim. simpl.
  apply (foldl_reaches (λ o, canonical' (flatten n atmn xyz1) ∈ o_found o)
           _ xyzcomponent _ xyz1 Hxyz).
  2:{ intros o' xyz2. apply visit_found_mono. }
  intros o'. rewrite visit_unfold, Hrot.
  rewrite (coef_sym_identity n xyz1 xyz1) by done.
  rewrite decide_True by done.
  change (PrimFloat.ltb eps12 (abs 1)) with true. cbv iota.
  rewrite (flatten_ext n _ atmn xyz1 Hsame).
  case_bool_decide; simpl; [done|]. apply elem_of_union. left.
  by apply elem_of_singleton.
Qed.

Hypothesis xyz_words : ∀ w, w ∈ xyzcomponent → length w = n ∧ Forall (λ d, d < 3) w.
Variable identity : SymmOp.
Hypothesis identity_selected : identity ∈ ops.
Hypothesis identity_is_identity : identity_operation nat_ identity.

(** The atoms of a cluster as line 199 reads them. *)
Local Abbreviation atoms pair := (map (λ i, nth i pair 0) (seq 0 n)).

Lemma atoms_nth pair i : i < n → nth i (atoms pair) 0 = nth i pair 0.
Proof. intros Hi. by rewrite nth_map_seq. Qed.

Lemma search_registers st pair xyz1 :
  cluster_in_range n nat_ natmin map_p2s pair → xyz1 ∈ xyzcomponent →
  canonical' (flatten n (atoms pair) xyz1)
    ∈ o_found (scan_orbit' ops st (atoms pair) xyz1).
Proof.
  intros [Hat Hprim] Hxyz. destruct (xyz_words xyz1 Hxyz) as [Hlen Haxes].
  eapply scan_orbit_registers; try done.
  - intros i Hi. rewrite atoms_nth by done. by apply Hat.
  - by rewrite (is_inprim_ext n _ pair natmin map_p2s (atoms_nth pair)).
Qed.

(** Every orbit that is counted holds at least one entry. *)
Lemma build_table_counts_positive store pairs :
  Forall (cluster_in_range n nat_ natmin map_p2s) pairs →
  Forall (λ c, 1 ≤ c) (ndup (build_table' ops store pairs)).
Proof.
  intros Hpairs.
  apply (build_table_invariant n nat_ natmin map_p2s xyzcomponent
           (λ st, Forall (λ c, 1 ≤ c) (ndup st))); [done|].
  intros st pair xyz1 Hpair Hxyz Hst Hnew.
  eapply Forall_forall in Hpairs; [|exact Hpair].
  pose proof (search_registers st pair xyz1 Hpairs Hxyz) as Hreg.
  destruct (scan_orbit_found st (atoms pair) xyz1) as (added' & Hfc' & Hcov).
  destruct (scan_orbit_appended n nat_ natmin map_p2s xyzcomponent ops st
              (atoms pair) xyz1) as [added Happ].
  rewrite (close_orbit_appended _ _ _ _ _ _ _ _ _ _ _ _ Happ).
  destruct Happ as (Hfc & _).
  assert (added' = added) as -> by (apply (app_inv_head (fc_vec st)); congruence).
  destruct (is_zero _); simpl; [done|].
  apply Forall_app; split; [done|]. constructor; [|done].
  destruct (Hcov _ Hreg) as [|Hin]; [done|].
  destruct added; [by apply elem_of_nil in Hin|simpl; lia].
Qed.

(** With [store_zeros_in] set, what is registered is the index of a live
    or of a zero entry. *)
Lemma build_table_found_covered pairs :
  let st := build_table' ops true pairs in
  ∀ K, K ∈ list_found st → K ∈ elems <$> (fc_vec st ++ fc_zeros_out st).
Proof.
  apply (build_table_invariant n nat_ natmin map_p2s xyzcomponent (λ st,
    ∀ K, K ∈ list_found st → K ∈ elems <$> (fc_vec st ++ fc_zeros_out st))).
  { by intros K ?%elem_of_empty. }
  intros st pair xyz1 _ _ Hst _.
  destruct (scan_orbit_found st (atoms pair) xyz1) as (added' & Hfc' & Hcov).
  destruct (scan_orbit_appended n nat_ natmin map_p2s xyzcomponent ops st
              (atoms pair) xyz1) as [added Happ].
  rewrite (close_orbit_appended _ _ _ _ _ _ _ _ _ _ _ _ Happ).
  destruct Happ as (Hfc & _).
  assert (added' = added) as -> by (apply (app_inv_head (fc_vec st)); congruence).
  destruct (is_zero _); simpl; intros K HK; rewrite !fmap_app, !elem_of_app;
    (destruct (Hcov K HK) as [Hold|Hin];
     [apply Hst in Hold; rewrite fmap_app, elem_of_app in Hold; tauto|]).
  - right; right. change (map ?f ?l) with (f <$> l).
    rewrite <-list_fmap_compose.
    rewrite (list_fmap_ext _ elems (reverse added)) by done.
    by rewrite reverse_Permutation.
  - left; by right.
Qed.

(** Every candidate index is registered by the end of the loops. *)
Lemma build_table_registers store pairs pair xyz1 :
  pair ∈ pairs → cluster_in_range n nat_ natmin map_p2s pair →
  xyz1 ∈ xyzcomponent →
  is_ascending n (flatten n (atoms pair) xyz1) = true →
  canonical' (flatten n (atoms pair) xyz1)
    ∈ list_found (build_table' ops store pairs).
Proof.
  intros Hpair Hrange Hxyz Hasc. unfold build_table.
  set (K := canonical' (flatten n (atoms pair) xyz1)).
  assert (∀ st atmn xyz, K ∈ list_found st →
            K ∈ list_found (search_orbit n nat_ natmin map_p2s xyzcomponent ops
                              store atmn st xyz)) as Hmono.
  { intros st atmn xyz HK.
    destruct (search_orbit_cases n nat_ natmin map_p2s xyzcomponent ops store
                atmn st xyz) as [->|[_ ->]]; [done|].
    destruct (scan_orbit_appended n nat_ natmin map_p2s xyzcomponent ops st atmn xyz)
      as (added & _ & _ & Hsub & _).
    unfold close_orbit. destruct (is_zero _); simpl; by apply Hsub. }
  apply (foldl_reaches (λ st, K ∈ list_found st) _ pairs _ pair Hpair).
  2:{ intros st pair' HK. unfold search_cluster.
      apply foldl_invariant; [done|]. intros st' xyz _. apply Hmono. }
  intros st. unfold search_cluster.
  apply (foldl_reaches (λ st, K ∈ list_found st) _ xyzcomponent _ xyz1 Hxyz).
  2:{ intros st' xyz. apply Hmono. }
  intros st'. unfold search_orbit. rewrite Hasc. simpl. fold K.
  case_bool_decide as Hfound; [done|].
  pose proof (search_registers st' pair xyz1 Hrange Hxyz) as Hreg.
  unfold close_orbit. by destruct (is_zero _).
Qed.

End Coverage.

Lemma words_shape n w : w ∈ words n → length w = n ∧ Forall (λ d, d < 3) w.
Proof. by intros ?%elem_of_words. Qed.

(** X6: when the identity is among the selected operations and every
    cluster consists of atoms of the supercell with one of them in the
    primitive cell, every orbit that is counted holds at least one entry:
    no duplicate count is 0. *)
Theorem every_orbit_has_an_entry order nat_ pairs symm_in basis fc0 nd0 z0 store
    fc nd z ops op :
  (0 ≤ order)%Z →
  generate_force_constant_table order nat_ pairs symm_in basis fc0 nd0 z0 store
    = Ok (fc, nd, z) →
  get_available_symmop nat_ symm_in basis true = Ok ops →
  op ∈ ops → identity_operation nat_ op →
  Forall (cluster_in_range (Z.to_nat (order + 2)) nat_ (get_nat_prim symm_in)
            (get_map_p2s symm_in)) pairs →
  Forall (λ c, 1 ≤ c) nd.
Proof.
  intros Horder Hgen Hops Hop Hid Hpairs.
  destruct (generate_returns _ _ _ _ _ _ _ _ _ _ _ _ Horder Hgen)
    as (ops' & Hops' & _ & -> & _).
  assert (ops' = ops) as -> by congruence.
  by apply (build_table_counts_positive _ _ _ _ _ ops (words_shape _) op).
Qed.

Lemma every_orbit_has_an_entry_witness :
  ∃ fc nd z,
    generate_force_constant_table 0 3 [[0; 1]] Inputs.chain3 "Cartesian" [] [] [] true
      = Ok (fc, nd, z)
    ∧ Forall (λ c, 1 ≤ c) nd.
Proof.
  eexists _, _, _. split; [vm_compute; reflexivity|].
  eapply (every_orbit_has_an_entry 0 3 [[0; 1]] Inputs.chain3 "Cartesian" [] [] []
            true _ _ _ Inputs.chain3_ops (mkSymmOp identity3 [0; 1; 2])).
  - lia.
  - vm_compute. reflexivity.
  - reflexivity.
  - left.
  - split; [done|]. intros a Ha. destruct a as [|[|[|a]]]; [done..|lia].
  - constructor; [|done]. split; [|done].
    intros i Hi. destruct i as [|[|i]]; simpl; lia.
Defined.

(** X7: with [store_zeros_in] set and the identity among the selected
    operations, no force constant of the listed clusters is lost: the
    canonical form of every candidate index that passes [is_ascending] is
    the index of a live entry or of a zero entry. *)
Theorem every_candidate_is_an_entry order nat_ pairs symm_in basis fc0 nd0 z0
    fc nd z ops op pair xyz1 :
  (0 ≤ order)%Z →
  generate_force_constant_table order nat_ pairs symm_in basis fc0 nd0 z0 true
    = Ok (fc, nd, z) →
  get_available_symmop nat_ symm_in basis true = Ok ops →
  op ∈ ops → identity_operation nat_ op →
  let n := Z.to_nat (order + 2) in
  pair ∈ pairs →
  cluster_in_range n nat_ (get_nat_prim symm_in) (get_map_p2s symm_in) pair →
  xyz1 ∈ xyz_table n →
  is_ascending n (flatten n pair xyz1) = true →
  canonicalize n nat_ (get_nat_prim symm_in) (get_map_p2s symm_in)
    (flatten n pair xyz1) ∈ elems <$> (fc ++ z).
Proof.
  intros Horder Hgen Hops Hop Hid n Hpair Hrange Hxyz Hasc.
  destruct (generate_returns _ _ _ _ _ _ _ _ _ _ _ _ Horder Hgen)
    as (ops' & Hops' & -> & _ & ->).
  assert (ops' = ops) as -> by congruence. fold n.
  rewrite xyz_table_words in Hxyz.
  assert (flatten n (map (λ i, nth i pair 0) (seq 0 n)) xyz1 = flatten n pair xyz1)
    as Hflat.
  { apply flatten_ext. intros i Hi. by rewrite nth_map_seq. }
  pose proof (build_table_registers n nat_ (get_nat_prim symm_in)
                (get_map_p2s symm_in) (words n) ops (words_shape _) op Hop Hid
                true pairs pair xyz1 Hpair Hrange Hxyz) as Hreg.
  rewrite Hflat in Hreg. specialize (Hreg Hasc).
  apply (build_table_found_covered n nat_ (get_nat_prim symm_in)
           (get_map_p2s symm_in) (words n) ops) in Hreg.
  rewrite fmap_app, elem_of_app in Hreg |- *.
  by rewrite sort_orbits_Permutation.
Qed.

Lemma every_candidate_is_an_entry_witness :
  ∃ fc nd z,
    generate_force_constant_table 0 1 [[0; 0]] Inputs.site "Cartesian" [] [] [] true
      = Ok (fc, nd, z)
    ∧ canonicalize 2 1 1 [[0]] (flatten 2 [0; 0] [0; 1]) ∈ elems <$> (fc ++ z).
Proof.
  eexists _, _, _. split; [vm_compute; reflexivity|].
  eapply (every_candidate_is_an_entry 0 1 [[0; 0]] Inputs.site "Cartesian" [] [] []
            _ _ _ Inputs.site_ops (mkSymmOp identity3 [0]) [0; 0] [0; 1]).
  - lia.
  - vm_compute. reflexivity.
  - reflexivity.
  - left.
  - split; [done|]. intros a Ha. destruct a as [|a]; [done|lia].
  - left.
  - split; [|done]. intros i Hi. destruct i as [|[|i]]; simpl; lia.
  - rewrite xyz_table_words. simpl. right; left.
  - reflexivity.
Defined.

(** ** The selection of the operations *)

Lemma select_symmop_length nat_ map_sym compatible matrix data : ∀ counter,
  length (select_symmop nat_ map_sym compatible matrix true data counter)
  + length (select_symmop nat_ map_sym compatible matrix false data counter)
  = length data.
Proof.
  induction data as [|it data IH]; intros counter; simpl; [done|].
  specialize (IH (S counter)).
  destruct (compatible it); simpl; lia.
Qed.

Lemma select_symmop_elem nat_ map_sym compatible matrix use data op : ∀ counter,
  op ∈ select_symmop nat_ map_sym compatible matrix use data counter
  ↔ ∃ c it, data !! c = Some it ∧ compatible it = use
            ∧ op = symmop_column nat_ map_sym (matrix it) (counter + c).
Proof.
  induction data as [|it data IH]; intros counter; simpl.
  { split; [by intros ?%elem_of_nil|]. by intros (c & it & ? & _). }
  assert (op ∈ select_symmop nat_ map_sym compatible matrix use data (S counter)
          ↔ ∃ c it', (it :: data) !! S c = Some it' ∧ compatible it' = use
              ∧ op = symmop_column nat_ map_sym (matrix it') (counter + S c)) as IH'.
  { rewrite IH. by setoid_rewrite Nat.add_succ_r. }
  destruct (Bool.eqb (compatible it) use) eqn:Hflag.
  - apply Bool.eqb_prop in Hflag. rewrite elem_of_cons, IH'. split.
    + intros [->|(c & it' & ?)]; [|by exists (S c), it'].
      exists 0, it. by rewrite Nat.add_0_r.
    + intros ([|c] & it' & Hl & Hf & ->); [|right; by exists c, it'].
      left. injection Hl as <-. by rewrite Nat.add_0_r.
  - apply Bool.eqb_false_iff in Hflag. rewrite IH'. split.
    + intros (c & it' & ?). by exists (S c), it'.
    + intros ([|c] & it' & Hl & Hf & ->); [|by exists c, it'].
      injection Hl as <-. done.
Qed.

(** X9: for a basis that [get_available_symmop] knows, every operation of
    [get_SymmData] is selected by exactly one of the two calls, with
    [use_compatible] true and false: the numbers of operations they return
    add up to the number of operations. *)
Theorem available_symmop_partition nat_ symmetry basis :
  basis = "Cartesian" ∨ basis = "Lattice" →
  ∃ compatible complement,
    get_available_symmop nat_ symmetry basis true = Ok compatible
    ∧ get_available_symmop nat_ symmetry basis false = Ok complement
    ∧ length compatible + length complement = length (get_SymmData symmetry).
Proof.
  unfold get_available_symmop.
  intros [-> | ->]; simpl; eexists _, _; (split; [done|]); (split; [done|]);
    apply select_symmop_length.
Qed.

Lemma available_symmop_partition_witness :
  ∃ compatible complement,
    get_available_symmop 1 Inputs.sheared_site "Cartesian" true = Ok compatible
    ∧ get_available_symmop 1 Inputs.sheared_site "Cartesian" false = Ok complement
    ∧ length compatible + length complement
      = length (get_SymmData Inputs.sheared_site).
Proof. apply (available_symmop_partition 1 Inputs.sheared_site "Cartesian"). by left. Defined.

(** X10: the operations that [get_available_symmop] returns are exactly the
    operations of [get_SymmData] whose compatibility flag for the basis
    equals [use_compatible], each with the 3x3 block of its rotation matrix
    and with the atom mapping of its own number among all operations (the
    column [counter] of [get_map_sym], not its number among the selected
    ones). *)
Theorem available_symmop_columns nat_ symmetry basis use ops op :
  get_available_symmop nat_ symmetry basis use = Ok ops →
  op ∈ ops
  ↔ ∃ counter it,
      get_SymmData symmetry !! counter = Some it
      ∧ basis_flag basis it = use
      ∧ op = symmop_column nat_ (get_map_sym symmetry) (basis_matrix basis it)
               counter.
Proof.
  unfold get_available_symmop, basis_flag, basis_matrix.
  destruct (String.eqb basis "Cartesian");
    [|destruct (String.eqb basis "Lattice"); [|done]];
    intros [= <-]; by rewrite select_symmop_elem.
Qed.

Lemma available_symmop_columns_witness :
  mkSymmOp Inputs.shear_b [0] ∈ [mkSymmOp Inputs.shear_a [0]; mkSymmOp Inputs.shear_b [0]]
  ↔ ∃ counter it,
      get_SymmData Inputs.sheared_site !! counter = Some it
      ∧ basis_flag "Cartesian" it = false
      ∧ mkSymmOp Inputs.shear_b [0]
        = symmop_column 1 (get_map_sym Inputs.sheared_site)
            (basis_matrix "Cartesian" it) counter.
Proof.
  apply (available_symmop_columns 1 Inputs.sheared_site "Cartesian" false).
  reflexivity.
Defined.

(** ** The index helpers *)

Section MinimumIndex.

Variables (n nat_ natmin : nat) (map_p2s : list (list nat)).

Local Abbreviation masked arr i :=
  (if in_primitive natmin map_p2s (nth i arr 0 / 3) then nth i arr 0 else 3 * nat_).

(** The second loop of [get_minimum_index_in_primitive] keeps the first slot
    that holds the least value. *)
Lemma minimum_index_fold_first arr k :
  let ind := map (λ i, masked arr i) (seq 0 n) in
  k ≤ n →
  ∃ minloc,
    foldl (λ '(minval, minloc) i,
             if nth i ind 0 <? minval then (nth i ind 0, i) else (minval, minloc))
          (nth 0 ind 0, 0) (seq 0 k)
      = (nth minloc ind 0, minloc)
    ∧ (minloc < k ∨ minloc = 0)
    ∧ (∀ j, j < k → nth minloc ind 0 ≤ nth j ind 0)
    ∧ (∀ j, j < minloc → nth minloc ind 0 < nth j ind 0).
Proof.
  intros ind. induction k as [|k IH]; intros Hk.
  - exists 0. simpl. split; [done|]. split; [by right|]. split; intros; lia.
  - destruct IH as (m & Hfold & Hm & Hmin & Hfirst); [lia|].
    rewrite seq_S, foldl_snoc, Hfold. simpl.
    destruct (Nat.ltb_spec (nth k ind 0) (nth m ind 0)).
    + exists k. split; [done|]. split; [lia|]. split; intros j Hj.
      * destruct (decide (j = k)) as [->|]; [done|]. specialize (Hmin j). lia.
      * specialize (Hmin j). lia.
    + exists m. split; [done|]. split; [lia|]. split; [|done]. intros j Hj.
      destruct (decide (j = k)) as [->|]; [done|]. apply Hmin. lia.
Qed.

End MinimumIndex.

(** X11: on an index tuple of [n] indices of the supercell with a
    primitive-cell atom among them, [get_minimum_index_in_primitive]
    returns a slot below [n] that holds the least index of a primitive-cell
    atom, and the first such slot when that index occurs more than once. *)
Theorem minimum_index_first_least n nat_ natmin map_p2s arr :
  valid_index n nat_ natmin map_p2s arr →
  let m := get_minimum_index_in_primitive n arr nat_ natmin map_p2s in
  m < n
  ∧ is_inprim_index (nth m arr 0) natmin map_p2s = true
  ∧ (∀ j, j < n → is_inprim_index (nth j arr 0) natmin map_p2s = true →
          nth m arr 0 ≤ nth j arr 0)
  ∧ (∀ j, j < m → is_inprim_index (nth j arr 0) natmin map_p2s = true →
          nth m arr 0 < nth j arr 0).
Proof.
  intros Hv m.
  destruct (minimum_index_spec n nat_ natmin map_p2s arr Hv) as (Hm & Hprim & Hmin).
  fold m in Hm, Hprim, Hmin. destruct Hv as (Hlen & Hlt & _).
  split; [done|]. split; [done|]. split.
  - intros j Hj Hp. apply Hmin; [|done].
    destruct (nth_lookup_or_length arr j 0) as [Hl|]; [|lia].
    by eapply list_elem_of_lookup_2.
  - intros j Hj Hp.
    destruct (minimum_index_fold_first n nat_ natmin map_p2s arr n)
      as (m' & Hfold & _ & _ & Hfirst); [done|].
    assert (m = m') as <-.
    { unfold m, get_minimum_index_in_primitive. by rewrite Hfold. }
    specialize (Hfirst j Hj). rewrite !nth_map_seq in Hfirst by lia.
    unfold is_inprim_index in Hprim, Hp. by rewrite Hprim, Hp in Hfirst.
Qed.

Lemma minimum_index_first_least_witness :
  let m := get_minimum_index_in_primitive 3 [4; 1; 1] 2 1 [[0]] in
  m < 3
  ∧ is_inprim_index (nth m [4; 1; 1] 0) 1 [[0]] = true
  ∧ (∀ j, j < 3 → is_inprim_index (nth j [4; 1; 1] 0) 1 [[0]] = true →
          nth m [4; 1; 1] 0 ≤ nth j [4; 1; 1] 0)
  ∧ (∀ j, j < m → is_inprim_index (nth j [4; 1; 1] 0) 1 [[0]] = true →
          nth m [4; 1; 1] 0 < nth j [4; 1; 1] 0).
Proof.
  apply (minimum_index_first_least 3 2 1 [[0]] [4; 1; 1]).
  split; [done|]. split.
  - repeat constructor.
  - apply Exists_cons_tl, Exists_cons_hd. reflexivity.
Defined.

(** X12: when no slot of the tuple belongs to an atom of the primitive cell,
    [get_minimum_index_in_primitive] returns slot 0, so that the swap that
    follows it changes nothing. *)
Theorem minimum_index_without_primitive n nat_ natmin map_p2s arr :
  (∀ i, i < n → is_inprim_index (nth i arr 0) natmin map_p2s = false) →
  get_minimum_index_in_primitive n arr nat_ natmin map_p2s = 0
  ∧ swap 0 (get_minimum_index_in_primitive n arr nat_ natmin map_p2s) arr = arr.
Proof.
  intros Hnone.
  destruct (minimum_index_fold_first n nat_ natmin map_p2s arr n)
    as (m & Hfold & Hm & _ & Hfirst); [done|].
  assert (get_minimum_index_in_primitive n arr nat_ natmin map_p2s = m) as ->.
  { unfold get_minimum_index_in_primitive. by rewrite Hfold. }
  assert (m = 0) as ->.
  { destruct m as [|m]; [done|]. specialize (Hfirst 0).
    rewrite !nth_map_seq in Hfirst by lia.
    pose proof (Hnone 0) as H0. pose proof (Hnone (S m)) as Hm'.
    unfold is_inprim_index in H0, Hm'. rewrite H0, Hm' in Hfirst by lia. lia. }
  split; [done|]. unfold swap.
  destruct arr as [|x arr]; done.
Qed.

Lemma minimum_index_without_primitive_witness :
  get_minimum_index_in_primitive 2 [5; 3] 2 1 [[0]] = 0
  ∧ swap 0 (get_minimum_index_in_primitive 2 [5; 3] 2 1 [[0]]) [5; 3] = [5; 3].
Proof.
  apply (minimum_index_without_primitive 2 2 1 [[0]] [5; 3]).
  intros i Hi. destruct i as [|[|i]]; [done..|lia].
Defined.

(** X13: the two overloads of [is_inprim] agree: a cluster has an atom in
    the primitive cell exactly when one of its flattened indices, whatever
    the components, passes the test on one index. *)
Theorem is_inprim_of_flattened n atmn xyz natmin map_p2s :
  (∀ i, i < n → nth i xyz 0 < 3) →
  is_inprim n atmn natmin map_p2s
  = existsb (λ x, is_inprim_index x natmin map_p2s) (flatten n atmn xyz).
Proof.
  intros Hxyz. unfold is_inprim, flatten. apply eq_true_iff_eq.
  rewrite !existsb_exists. split.
  - intros (i & Hi & Hp). exists (3 * nth i atmn 0 + nth i xyz 0).
    split; [apply in_map_iff; by exists i|].
    apply in_seq in Hi. unfold is_inprim_index.
    replace ((3 * nth i atmn 0 + nth i xyz 0) / 3) with (nth i atmn 0); [done|].
    specialize (Hxyz i). apply Nat.div_unique with (nth i xyz 0); lia.
  - intros (x & (i & <- & Hi)%in_map_iff & Hp). exists i. split; [done|].
    apply in_seq in Hi. unfold is_inprim_index in Hp.
    replace ((3 * nth i atmn 0 + nth i xyz 0) / 3) with (nth i atmn 0) in Hp;
      [done|].
    specialize (Hxyz i). apply Nat.div_unique with (nth i xyz 0); lia.
Qed.

Lemma is_inprim_of_flattened_witness :
  is_inprim 2 [1; 0] 1 [[0]]
  = existsb (λ x, is_inprim_index x 1 [[0]]) (flatten 2 [1; 0] [2; 1]).
Proof.
  apply (is_inprim_of_flattened 2 [1; 0] [2; 1] 1 [[0]]).
  intros i Hi. destruct i as [|[|i]]; simpl; lia.
Defined.

Lemma adjacent_Sorted (l : list nat) :
  (∀ i, i + 1 < length l → nth i l 0 ≤ nth (i + 1) l 0) ↔ Sorted le l.
Proof.
  induction l as [|x l IH]; simpl.
  { split; [constructor|]. intros _ i Hi. lia. }
  split.
  - intros Hadj. constructor.
    + apply IH. intros i Hi. apply (Hadj (S i)). lia.
    + destruct l as [|y l]; constructor. apply (Hadj 0). simpl. lia.
  - intros [Hs Hhd]%Sorted_inv i Hi. destruct i as [|i].
    + destruct Hhd; simpl in *; [lia|done].
    + apply IH; [done|lia].
Qed.

(** X14: [is_ascending(n, arr)] holds exactly when the first [n] elements of
    [arr] are in ascending order, equal neighbours allowed; it holds of
    every array when [n] is 0 or 1. *)
Theorem is_ascending_sorted n arr :
  n ≤ length arr →
  is_ascending n arr = true ↔ StronglySorted le (take n arr).
Proof.
  intros Hn. unfold is_ascending. rewrite forallb_forall.
  transitivity (Sorted le (take n arr)).
  2:{ split; [apply Sorted_StronglySorted; intros ???; lia
             |apply StronglySorted_Sorted]. }
  rewrite <-adjacent_Sorted, length_take, Nat.min_l by done.
  split.
  - intros Hall i Hi. specialize (Hall i).
    rewrite negb_true_iff, Nat.ltb_ge in Hall.
    rewrite !nth_lookup, !lookup_take_lt, <-!nth_lookup by lia.
    apply Hall, in_seq. lia.
  - intros Hadj i Hi%in_seq. rewrite negb_true_iff, Nat.ltb_ge.
    specialize (Hadj i).
    rewrite !nth_lookup, !lookup_take_lt, <-!nth_lookup in Hadj by lia.
    apply Hadj. lia.
Qed.

Lemma is_ascending_sorted_witness :
  is_ascending 2 [3; 3; 1] = true ↔ StronglySorted le (take 2 [3; 3; 1]).
Proof. apply (is_ascending_sorted 2 [3; 3; 1]). simpl. lia. Defined.

(** X15: [is_allzero] does not see a NaN: a vector of NaNs passes as all
    zero, with [loc] -1, whatever the tolerance. *)
Theorem is_allzero_ignores_nan vec tol :
  Forall is_nan vec → is_allzero vec tol = (true, (-1)%Z).
Proof.
  intros Hnan. unfold is_allzero.
  destruct (list_find _ _) as [[i x]|] eqn:Hfind; [|done].
  apply list_find_Some in Hfind as (Hi & Hx & _).
  eapply Forall_forall in Hnan; [|by eapply list_elem_of_lookup_2].
  unfold is_nan in Hnan. rewrite ltb_spec, abs_spec, Hnan in Hx.
  by destruct (Prim2SF tol).
Qed.

Lemma is_allzero_ignores_nan_witness :
  is_allzero [nan; (0 / 0)%float] eps8 = (true, (-1)%Z).
Proof.
  apply (is_allzero_ignores_nan [nan; (0 / 0)%float] eps8).
  repeat constructor.
Defined.

(** X16: under the identity matrix [coef_sym] is exactly 1 when the two
    component assignments are the same and exactly 0 when they differ. *)
Theorem coef_sym_identity_rotation n xyz1 xyz2 :
  length xyz1 = n → length xyz2 = n →
  Forall (λ d, d < 3) xyz1 → Forall (λ d, d < 3) xyz2 →
  coef_sym n identity3 xyz1 xyz2
  = if decide (xyz1 = xyz2) then 1%float else 0%float.
Proof. apply coef_sym_identity. Qed.

Lemma coef_sym_identity_rotation_witness :
  coef_sym 3 identity3 [0; 2; 1] [0; 1; 1]
  = if decide ([0; 2; 1] = [0; 1; 1]) then 1%float else 0%float.
Proof.
  apply (coef_sym_identity_rotation 3 [0; 2; 1] [0; 1; 1]);
    [done|done|repeat constructor..].
Defined.

(** X17: the canonical form of an index tuple (lines 206-210) depends on the
    indices it holds and not on their order: two arrangements of the same
    indices have the same canonical form, which is an arrangement of them
    that starts with the least index of a primitive-cell atom, and
    canonicalizing twice changes nothing. *)
Theorem canonical_form_of_arrangement n nat_ natmin map_p2s arr arr' :
  valid_index n nat_ natmin map_p2s arr → arr ≡ₚ arr' →
  canonicalize n nat_ natmin map_p2s arr = canonicalize n nat_ natmin map_p2s arr'
  ∧ canonicalize n nat_ natmin map_p2s arr ≡ₚ arr
  ∧ canonicalize n nat_ natmin map_p2s (canonicalize n nat_ natmin map_p2s arr)
    = canonicalize n nat_ natmin map_p2s arr
  ∧ is_inprim_index (nth 0 (canonicalize n nat_ natmin map_p2s arr) 0)
      natmin map_p2s = true
  ∧ ∀ x, x ∈ arr → is_inprim_index x natmin map_p2s = true →
         nth 0 (canonicalize n nat_ natmin map_p2s arr) 0 ≤ x.
Proof.
  intros Hv Hp. split_and!.
  - by apply canonicalize_Permutation.
  - by apply canonicalize_Permutation_self.
  - by apply canonicalize_idemp.
  - by apply canonicalize_front.
  - by destruct (canonicalize_spec n nat_ natmin map_p2s arr Hv)
      as (a & rest & -> & _ & _ & Hmin).
Qed.

Lemma canonical_form_of_arrangement_witness :
  canonicalize 3 2 1 [[0]] [4; 1; 2] = canonicalize 3 2 1 [[0]] [2; 4; 1]
  ∧ canonicalize 3 2 1 [[0]] [4; 1; 2] ≡ₚ [4; 1; 2]
  ∧ canonicalize 3 2 1 [[0]] (canonicalize 3 2 1 [[0]] [4; 1; 2])
    = canonicalize 3 2 1 [[0]] [4; 1; 2]
  ∧ is_inprim_index (nth 0 (canonicalize 3 2 1 [[0]] [4; 1; 2]) 0) 1 [[0]] = true
  ∧ ∀ x, x ∈ [4; 1; 2] → is_inprim_index x 1 [[0]] = true →
         nth 0 (canonicalize 3 2 1 [[0]] [4; 1; 2]) 0 ≤ x.
Proof.
  apply (canonical_form_of_arrangement 3 2 1 [[0]] [4; 1; 2] [2; 4; 1]).
  - split; [done|]. split; [repeat constructor|].
    apply Exists_cons_tl, Exists_cons_hd. reflexivity.
  - exact (perm_trans (perm_skip 4 (perm_swap 2 1 [])) (perm_swap 2 4 [1])).
Defined.

(** ** The candidate rows of the constraint deriver *)

Section Binary64Signs.

Local Open Scope float_scope.

Lemma Prim2SF_minus_one : Prim2SF (-1) = S754_finite true 4503599627370496 (-52).
Proof. reflexivity. Qed.

(** Multiplying by -1.0 is exact: it flips the sign. *)
Lemma mul_minus_one x : x * -1 = - x.
Proof.
  apply Prim2SF_inj. rewrite mul_spec, opp_spec, Prim2SF_minus_one.
  pose proof (Prim2SF_valid x) as Hv.
  destruct (Prim2SF x) as [[]|[]| |s m e]; try done.
  simpl in Hv. apply andb_prop in Hv as [Hc He].
  unfold SF64mul, SFmul, binary_round_aux.
  rewrite (shr_fexp_shifted m e Hc). cbn [shr_m loc_of_shr_record round_nearest_even].
  rewrite (shr_fexp_exact m e Hc). cbn [shr_m].
  rewrite He. by destruct s.
Qed.

Lemma abs_opp x : abs (- x) = abs x.
Proof.
  apply Prim2SF_inj. rewrite !abs_spec, opp_spec.
  by destruct (Prim2SF x).
Qed.

Lemma ltb_leb x y : (x <? y) = true → (x <=? y) = true.
Proof.
  rewrite ltb_spec, leb_spec. unfold SFltb, SFleb.
  by destruct (SFcompare _ _) as [[]|].
Qed.

Lemma opp_positive x : (x <? 0) = true → (0 <? - x) = true.
Proof.
  rewrite !ltb_spec, opp_spec, Prim2SF_zero.
  by destruct (Prim2SF x) as [[]|[]| |[]].
Qed.

Lemma above_positive tol m e x :
  Prim2SF tol = S754_finite false m e →
  (tol <? abs x) = true → (x <? 0) = false → (0 <? x) = true.
Proof.
  rewrite !ltb_spec, abs_spec, Prim2SF_zero. intros ->.
  by destruct (Prim2SF x) as [[]|[]| |[]].
Qed.

End Binary64Signs.

Section CandidateRows.

Variables (n nat_ natmin : nat) (map_p2s : list (list nat)).
Variable xyzcomponent : list (list nat).

Lemma accumulate_length lf rot atm xyz const_now xyz2 :
  length (accumulate n nat_ natmin map_p2s lf rot atm xyz const_now xyz2)
  = length const_now.
Proof.
  unfold accumulate. destruct (lf !! _); [|done]. by rewrite length_insert.
Qed.

(** A candidate row holds, at a column below [nparams], the coefficient
    that [is_allzero] found, made positive. *)
Lemma constraint_row_leading nparams lf list_tmp op it :
  constraint_row n nat_ natmin map_p2s xyzcomponent nparams lf list_tmp op = Some it →
  (∀ e, e ∈ it → col e < nparams)
  ∧ ∃ e, e ∈ it ∧ PrimFloat.ltb 0 (val e) = true
         ∧ PrimFloat.ltb eps8 (abs (val e)) = true.
Proof.
  unfold constraint_row. destruct (negb _); [done|].
  set (const_now := foldl _ _ _).
  assert (length const_now = nparams) as Hlen.
  { unfold const_now. apply foldl_invariant.
    - by rewrite length_insert, length_replicate.
    - intros c xyz2 _ Hc. by rewrite accumulate_length. }
  unfold is_allzero.
  destruct (list_find _ _) as [[i x]|] eqn:Hfind; [|done].
  apply list_find_Some in Hfind as (Hi & Hx%Is_true_true & _).
  rewrite Nat2Z.id, (nth_lookup_Some _ _ _ _ Hi).
  intros [= <-]. split.
  { intros e (j & Hj%elem_of_seq & He)%list_elem_of_omap.
    destruct (PrimFloat.leb _ _); [|done]. injection He as <-. simpl. lia. }
  assert (i < nparams) as Hin by (rewrite <-Hlen; by eapply lookup_lt_Some).
  set (flipped := if PrimFloat.ltb x 0 then _ else _).
  assert (PrimFloat.ltb 0 (nth i flipped 0%float) = true
          ∧ PrimFloat.ltb eps8 (abs (nth i flipped 0%float)) = true) as [Hpos Habove].
  { unfold flipped. destruct (PrimFloat.ltb x 0) eqn:Hneg.
    - rewrite (nth_lookup_Some _ _ 0%float (x * -1)%float)
        by (by rewrite list_lookup_fmap, Hi).
      rewrite mul_minus_one, abs_opp. split; [by apply opp_positive|done].
    - rewrite (nth_lookup_Some _ _ _ _ Hi). split; [|done].
      by eapply (above_positive eps8). }
  exists (mkElem i (nth i flipped 0%float)). split; [|done].
  apply list_elem_of_omap. exists i. split; [apply elem_of_seq; lia|].
  by rewrite (ltb_leb _ _ Habove).
Qed.

End CandidateRows.

Lemma scale_row_domain it k x :
  NoDup (col <$> it) → scale_row it !! k = Some x → k ∈ col <$> it.
Proof.
  intros Hnd Hk. destruct it as [|first rest]; [done|].
  destruct (decide (k ∈ col <$> first :: rest)) as [|Hout]; [done|].
  destruct (insert_fold_lookup (λ e, (val e * (1 / val first))%float)
              (first :: rest) ∅ Hnd) as [_ Hnone].
  unfold scale_row in Hk. by rewrite (Hnone k Hout) in Hk.
Qed.

Lemma constraint_list_leading n nat_ natmin map_p2s xyzcomponent nparams ops
    fc_table_in :
  Forall (λ it, (∀ e, e ∈ it → col e < nparams)
                ∧ ∃ e, e ∈ it ∧ PrimFloat.ltb 0 (val e) = true
                       ∧ PrimFloat.ltb eps8 (abs (val e)) = true)
    (constraint_list n nat_ natmin map_p2s xyzcomponent nparams ops fc_table_in).
Proof.
  unfold constraint_list. apply Forall_concat, Forall_fmap, Forall_forall.
  intros p _. apply Forall_forall. intros it (op & _ & Hrow)%list_elem_of_omap.
  by eapply constraint_row_leading.
Qed.

(** X18: every row that [get_constraint_symmetry] emits before the reducer
    runs holds at least one coefficient, and all its columns are parameter
    identifiers below [nparams]. *)
Theorem constraint_rows_within_parameters rref_sparse nat_ symmetry order basis
    fc_table_in nparams tolerance const_out0 rows :
  (0 ≤ order)%Z → 0 < nparams →
  get_constraint_symmetry rref_sparse nat_ symmetry order basis fc_table_in nparams
    tolerance const_out0 false = Ok rows →
  Forall (λ row : ConstDoubleEntry,
            row ≠ ∅ ∧ ∀ k x, row !! k = Some x → k < nparams) rows.
Proof.
  intros Horder Hn. unfold get_constraint_symmetry.
  destruct (Z.ltb_spec order 0) as [|_]; [lia|].
  destruct (Nat.eqb_spec nparams 0) as [|_]; [lia|].
  destruct (get_available_symmop _ _ _ _) as [ops|]; [|done]. intros [= <-].
  unfold canonicalize_rows. rewrite normalize_rows_scale.
  apply Forall_fmap, Forall_forall. intros it Hit%kept_rows_subseteq.
  pose proof (constraint_list_ascending (Z.to_nat (order + 2)) nat_
                (get_nat_prim symmetry) (get_map_p2s symmetry)
                (xyz_table (Z.to_nat (order + 2))) nparams ops fc_table_in) as Hasc.
  pose proof (constraint_list_leading (Z.to_nat (order + 2)) nat_
                (get_nat_prim symmetry) (get_map_p2s symmetry)
                (xyz_table (Z.to_nat (order + 2))) nparams ops fc_table_in) as Hlead.
  eapply Forall_forall in Hasc; [|exact Hit].
  eapply Forall_forall in Hlead; [|exact Hit].
  destruct Hlead as (Hcol & e & He & _).
  simpl. split.
  - destruct it as [|first rest]; [by apply elem_of_nil in He|].
    destruct (scale_row_lookup first rest Hasc) as (Hfirst & _).
    intros Hempty. by rewrite Hempty in Hfirst.
  - intros k x Hk.
    apply scale_row_domain in Hk; [|by apply ascending_columns_NoDup].
    apply list_elem_of_fmap in Hk as (e' & -> & He'). by apply Hcol.
Qed.

Lemma constraint_rows_within_parameters_witness :
  ∃ rows,
    get_constraint_symmetry no_reduction 1 Inputs.sheared_site 0 "Cartesian"
      Inputs.site_table 6 0 [] false = Ok rows
    ∧ rows ≠ []
    ∧ Forall (λ row : ConstDoubleEntry,
                row ≠ ∅ ∧ ∀ k x, row !! k = Some x → k < 6) rows.
Proof.
  eexists. split; [vm_compute; reflexivity|]. split; [done|].
  eapply (constraint_rows_within_parameters no_reduction 1 Inputs.sheared_site 0
            "Cartesian" Inputs.site_table 6 0%float [] _);
    [lia|lia|vm_compute; reflexivity].
Defined.

(** X19: every candidate row that the loops of lines 438-491 build holds a
    positive coefficient of magnitude above 1e-8 at a column below
    [nparams]: the coefficient that [is_allzero] reported, after the change
    of sign of line 473 when it was negative. *)
Theorem candidate_rows_hold_positive_coefficient n nat_ natmin map_p2s xyzcomponent
    nparams ops fc_table_in :
  Forall (λ it, ∃ e, e ∈ it ∧ col e < nparams
                     ∧ PrimFloat.ltb 0 (val e) = true
                     ∧ PrimFloat.ltb eps8 (abs (val e)) = true)
    (constraint_list n nat_ natmin map_p2s xyzcomponent nparams ops fc_table_in).
Proof.
  eapply Forall_impl; [apply constraint_list_leading|]. simpl.
  intros it (Hcol & e & He & Hpos & Habove).
  exists e. split_and!; [done|by apply Hcol|done..].
Qed.

(** ** [Fcs::init] *)

Lemma init_orders_return this cluster symmetry number_of_atoms k : ∀ s acc,
  ∃ tables,
    foldl (Tables.init_order this cluster symmetry number_of_atoms) (Ok acc) (seq s k)
      = Ok (acc ++ tables)
    ∧ length tables = k
    ∧ ∀ i, i < k →
        generate_force_constant_table (Z.of_nat (s + i)) number_of_atoms
          (Tables.get_cluster_list cluster (s + i)) symmetry "Cartesian" [] [] []
          (Tables.store_zeros this)
        = Ok (nth i tables ([], [], [])).
Proof.
  induction k as [|k IH]; intros s acc.
  { exists []. rewrite app_nil_r. split; [done|]. split; [done|]. lia. }
  destruct (generate_total (Z.of_nat s) number_of_atoms
              (Tables.get_cluster_list cluster s) symmetry "Cartesian" [] [] []
              (Tables.store_zeros this)) as [t Ht]; [by left|].
  destruct (IH (S s) (acc ++ [t])) as (tables & Hfold & Hlen & Hgen).
  exists (t :: tables). simpl. rewrite Ht, Hfold, <-(assoc_L (++)).
  split; [done|]. split; [by rewrite Hlen|].
  intros [|i] Hi; simpl.
  - by rewrite Nat.add_0_r.
  - rewrite <-Nat.add_succ_comm. apply Hgen. lia.
Qed.

(** X20: [Fcs::init] cannot end in the invalid-basis error: it always asks
    for the Cartesian basis. It leaves one table, one list of duplicate
    counts and one list of zero entries per order below [maxorder], each
    the output of [generate_force_constant_table] for that order started
    from empty vectors, whatever the object held before, and it keeps
    [store_zeros]. *)
Theorem init_fills_every_order this cluster symmetry number_of_atoms :
  (0 ≤ Tables.get_maxorder cluster)%Z →
  ∃ nd fc z,
    Tables.init this cluster symmetry number_of_atoms
      = Ok (Tables.mkFcs (Some nd) (Some fc) (Some z) (Tables.store_zeros this))
    ∧ length nd = Z.to_nat (Tables.get_maxorder cluster)
    ∧ length fc = Z.to_nat (Tables.get_maxorder cluster)
    ∧ length z = Z.to_nat (Tables.get_maxorder cluster)
    ∧ ∀ i, i < Z.to_nat (Tables.get_maxorder cluster) →
        generate_force_constant_table (Z.of_nat i) number_of_atoms
          (Tables.get_cluster_list cluster i) symmetry "Cartesian" [] [] []
          (Tables.store_zeros this)
        = Ok (nth i fc [], nth i nd [], nth i z []).
Proof.
  intros _. unfold Tables.init.
  destruct (init_orders_return this cluster symmetry number_of_atoms
              (Z.to_nat (Tables.get_maxorder cluster)) 0 [])
    as (tables & -> & Hlen & Hgen).
  eexists _, _, _. split; [done|].
  rewrite !length_map. split_and!; [done..|].
  intros i Hi. pose proof (Hgen i Hi) as Hi'. simpl in Hi'. rewrite Hi'.
  destruct (nth_lookup_or_length tables i ([], [], [])) as [Hl|]; [|lia].
  change (map ?f ?l) with (f <$> l).
  rewrite (nth_lookup_Some (_ <$> tables) i [] (nth i tables ([], [], [])).1.1)
    by (by rewrite list_lookup_fmap, Hl).
  rewrite (nth_lookup_Some (_ <$> tables) i [] (nth i tables ([], [], [])).1.2)
    by (by rewrite list_lookup_fmap, Hl).
  rewrite (nth_lookup_Some (_ <$> tables) i [] (nth i tables ([], [], [])).2)
    by (by rewrite list_lookup_fmap, Hl).
  by destruct (nth i tables _) as [[? ?] ?].
Qed.

Lemma init_fills_every_order_witness :
  let cluster := Tables.mkCluster 1 (λ _, [[0; 0]]) in
  ∃ nd fc z,
    Tables.init Tables.set_default_variables cluster Inputs.site 1
      = Ok (Tables.mkFcs (Some nd) (Some fc) (Some z) true)
    ∧ length nd = 1 ∧ length fc = 1 ∧ length z = 1
    ∧ ∀ i, i < 1 →
        generate_force_constant_table (Z.of_nat i) 1 [[0; 0]] Inputs.site
          "Cartesian" [] [] [] true
        = Ok (nth i fc [], nth i nd [], nth i z []).
Proof.
  apply (init_fills_every_order Tables.set_default_variables
           (Tables.mkCluster 1 (λ _, [[0; 0]])) Inputs.site 1).
  simpl. lia.
Defined.

(** ** The readers of the table *)

Lemma inprim_index_cases n symmetry :
  (Fitting.inprim_index n symmetry = (-1)%Z
   ∧ ∀ i, i < get_nat_prim symmetry →
          nth 0 (nth i (get_map_p2s symmetry) []) 0 ≠ n / 3)
  ∨ ∃ i, Fitting.inprim_index n symmetry = Z.of_nat (3 * i + n mod 3)
         ∧ i < get_nat_prim symmetry
         ∧ nth 0 (nth i (get_map_p2s symmetry) []) 0 = n / 3
         ∧ ∀ j, j < i → nth 0 (nth j (get_map_p2s symmetry) []) 0 ≠ n / 3.
Proof.
  unfold Fitting.inprim_index.
  destruct (list_find _ _) as [[k i]|] eqn:Hfind.
  - right. apply list_find_Some in Hfind as (Hk & Hi & Hfirst).
    apply lookup_seq in Hk as [-> Hk]. simpl in *.
    exists k. split_and!; [done..|].
    intros j Hj. apply (Hfirst j j); [|done]. apply lookup_seq. split; [done|lia].
  - left. split; [done|]. intros i Hi.
    eapply list_find_None, Forall_forall in Hfind; [done|].
    apply elem_of_seq. lia.
Qed.

Lemma inprim_index_minus_one n symmetry :
  Fitting.inprim_index n symmetry = (-1)%Z
  ↔ is_inprim_index n (get_nat_prim symmetry) (get_map_p2s symmetry) = false.
Proof.
  unfold is_inprim_index, in_primitive.
  destruct (inprim_index_cases n symmetry) as [[-> Hnone]|(i & -> & Hi & Heq & _)].
  - split; [intros _|done]. apply not_true_is_false.
    intros (j & Hj%in_seq & Hp%Nat.eqb_eq)%existsb_exists.
    apply (Hnone j); [lia|done].
  - split; [lia|]. intros Hf. exfalso.
    apply not_true_iff_false in Hf. apply Hf, existsb_exists.
    exists i. split; [apply in_seq; lia|by apply Nat.eqb_eq].
Qed.

(** X21: [Fitting::inprim_index] and the overload of [Fcs::is_inprim] on one
    index agree: the index is -1 exactly when the atom of [n] is not in the
    primitive cell. *)
Theorem inprim_index_agrees_with_is_inprim n symmetry :
  Fitting.inprim_index n symmetry = (-1)%Z
  ↔ is_inprim_index n (get_nat_prim symmetry) (get_map_p2s symmetry) = false.
Proof. apply inprim_index_minus_one. Qed.

(** X22: an index that [Fitting::inprim_index] returns is below
    [3 * nat_prim], it keeps the component of [n], and it leads back to
    [n]: [3 * map_p2s[k / 3][0] + k % 3] is [n]. When the atom of [n] is
    listed twice in [map_p2s], the first place counts. *)
Theorem inprim_index_round_trip n symmetry k :
  Fitting.inprim_index n symmetry = Z.of_nat k →
  k < 3 * get_nat_prim symmetry
  ∧ k mod 3 = n mod 3
  ∧ 3 * nth 0 (nth (k / 3) (get_map_p2s symmetry) []) 0 + k mod 3 = n
  ∧ ∀ j, j < k / 3 → nth 0 (nth j (get_map_p2s symmetry) []) 0 ≠ n / 3.
Proof.
  destruct (inprim_index_cases n symmetry) as [[-> _]|(i & -> & Hi & Heq & Hfirst)];
    [lia|].
  intros <-%(inj Z.of_nat).
  pose proof (Nat.mod_upper_bound n 3) as Hc.
  assert ((3 * i + n mod 3) / 3 = i) as Hdiv
    by (symmetry; apply Nat.div_unique with (n mod 3); lia).
  assert ((3 * i + n mod 3) mod 3 = n mod 3) as Hmod
    by (symmetry; apply Nat.mod_unique with i; lia).
  rewrite Hdiv, Hmod, Heq. split_and!; [lia|done| |done].
  symmetry. apply Nat.div_mod_eq.
Qed.

Lemma inprim_index_round_trip_witness :
  Fitting.inprim_index 7 (mkSymmetry [] [] 2 [[4]; [2]]) = Z.of_nat 4
  ∧ 4 < 3 * 2
  ∧ 4 mod 3 = 7 mod 3
  ∧ 3 * nth 0 (nth (4 / 3) [[4]; [2]] []) 0 + 4 mod 3 = 7
  ∧ ∀ j, j < 4 / 3 → nth 0 (nth j [[4]; [2]] []) 0 ≠ 7 / 3.
Proof.
  split; [reflexivity|].
  apply (inprim_index_round_trip 7 (mkSymmetry [] [] 2 [[4]; [2]]) 4).
  reflexivity.
Defined.

(** X23: for every entry of a table, live or zero, the row number that
    [calc_matrix_elements] takes from [inprim_index] of the first index of
    the entry is a row of the primitive cell: it is not -1 and lies below
    [3 * nat_prim]. *)
Theorem entries_have_primitive_row order nat_ pairs symm_in basis fc0 nd0 z0 store
    fc nd z :
  (0 ≤ order)%Z →
  (∀ a c, nth c (nth a (get_map_sym symm_in) []) 0 < nat_) →
  generate_force_constant_table order nat_ pairs symm_in basis fc0 nd0 z0 store
    = Ok (fc, nd, z) →
  Forall (λ e, (0 ≤ Fitting.inprim_index (nth 0 (elems e) 0)%nat symm_in
                < 3 * Z.of_nat (get_nat_prim symm_in))%Z) (fc ++ z).
Proof.
  intros Horder Hmap Hgen.
  destruct (generate_indexed _ _ _ _ _ _ _ _ _ _ _ _ Horder Hmap Hgen)
    as (found & _ & Hk).
  apply Forall_forall. intros e He.
  destruct (Hk (elems e)) as (_ & Hfront & _); [by apply list_elem_of_fmap_2|].
  destruct (inprim_index_cases (nth 0 (elems e) 0) symm_in)
    as [[Hm _]|(i & Hi & Hlt & _)].
  - apply inprim_index_minus_one in Hm. congruence.
  - rewrite Hi. pose proof (Nat.mod_upper_bound (nth 0 (elems e) 0) 3). lia.
Qed.

Lemma entries_have_primitive_row_witness :
  ∃ fc nd z,
    generate_force_constant_table 0 3 [[0; 1]] Inputs.chain3 "Cartesian" [] [] [] true
      = Ok (fc, nd, z)
    ∧ Forall (λ e, (0 ≤ Fitting.inprim_index (nth 0 (elems e) 0)%nat Inputs.chain3
                    < 3 * Z.of_nat (get_nat_prim Inputs.chain3))%Z) (fc ++ z).
Proof.
  eexists _, _, _. split; [vm_compute; reflexivity|].
  eapply (entries_have_primitive_row 0 3 [[0; 1]] Inputs.chain3 "Cartesian"
            [] [] [] true).
  - lia.
  - intros a c.
    destruct a as [|[|[|[|a]]]], c as [|[|[|[|c]]]]; simpl; lia.
  - vm_compute. reflexivity.
Defined.

(** ** The factorial and the multiplicity factor *)

Lemma Zfact_pos n : (1 ≤ Zfact n)%Z.
Proof. induction n as [|n IH]; simpl Zfact; [lia|]. nia. Qed.

Lemma Zfact_mono n m : n ≤ m → (Zfact n ≤ Zfact m)%Z.
Proof.
  induction 1 as [|m _ IH]; [lia|]. simpl Zfact.
  pose proof (Zfact_pos m). nia.
Qed.

Lemma int_mul_Some a b r :
  Fitting.int_mul a b = Some r → r = (a * b)%Z ∧ (r ≤ Fitting.int_max)%Z.
Proof.
  unfold Fitting.int_mul.
  destruct (Z.leb_spec Fitting.int_min (a * b)), (Z.leb_spec (a * b) Fitting.int_max);
    simpl; [|done..].
  by intros [= <-].
Qed.

(** A value that [factorial] returns is the factorial, and it fits. *)
Lemma factorial_rec_sound fuel : ∀ n r,
  Fitting.factorial_rec fuel n = Some r →
  (0 ≤ n)%Z ∧ r = Zfact (Z.to_nat n) ∧ (r ≤ Fitting.int_max)%Z.
Proof.
  assert (∀ n r, ((n =? 1) || (n =? 0))%Z = true → Some 1%Z = Some r →
                 (0 ≤ n)%Z ∧ r = Zfact (Z.to_nat n) ∧ (r ≤ Fitting.int_max)%Z)
    as Hbase.
  { intros n r [->%Z.eqb_eq| ->%Z.eqb_eq]%orb_prop [= <-]; done. }
  induction fuel as [|fuel IH]; intros n r; simpl.
  - destruct ((n =? 1) || (n =? 0))%Z eqn:Hb; [by apply Hbase|done].
  - destruct ((n =? 1) || (n =? 0))%Z eqn:Hb; [by apply Hbase|].
    apply orb_false_elim in Hb as [H1%Z.eqb_neq H0%Z.eqb_neq].
    destruct (Fitting.factorial_rec fuel (n - 1)) as [r'|] eqn:Hr; [|done]. simpl.
    destruct (IH _ _ Hr) as (Hn & -> & _).
    intros [-> Hfit]%int_mul_Some. split; [lia|]. split; [|done].
    replace (Z.to_nat n) with (S (Z.to_nat (n - 1))) by lia.
    simpl Zfact. f_equal. lia.
Qed.

Lemma factorial_value n :
  Fitting.factorial n
  = if ((0 <=? n) && (n <=? 12))%Z then Some (Zfact (Z.to_nat n)) else None.
Proof.
  destruct (Z.leb_spec 0 n) as [Hn|Hn]; simpl.
  2:{ unfold Fitting.factorial. replace (Z.to_nat n) with 0 by lia. simpl.
      destruct (Z.eqb_spec n 1), (Z.eqb_spec n 0); simpl; try lia; done. }
  destruct (Z.leb_spec n 12) as [Hm|Hm].
  - assert (n ∈ Z.of_nat <$> seq 0 13) as Hin.
    { apply list_elem_of_fmap. exists (Z.to_nat n).
      split; [lia|apply elem_of_seq; lia]. }
    simpl in Hin.
    repeat (apply elem_of_cons in Hin as [->|Hin]; [by vm_compute|]).
    by apply elem_of_nil in Hin.
  - destruct (Fitting.factorial n) as [r|] eqn:Hr; [|done].
    apply factorial_rec_sound in Hr as (_ & -> & Hfit).
    pose proof (Zfact_mono 13 (Z.to_nat n)) as Hmono.
    assert (Zfact 13 = 6227020800%Z) as H13 by (by vm_compute).
    unfold Fitting.int_max in Hfit. lia.
Qed.

(** X24: [Fitting::factorial(n)] returns [n!] for every [n] from 0 to 12;
    for any other argument it yields no value: from 13 on the product
    leaves the range of [int], and below 0 the recursion does not end. *)
Theorem factorial_defined_up_to_12 n :
  Fitting.factorial n
  = if ((0 <=? n) && (n <=? 12))%Z then Some (Zfact (Z.to_nat n)) else None.
Proof. apply factorial_value. Qed.

Section Gamma.

Lemma occ_notin v p : v ∉ p → occ v p = 0.
Proof.
  induction p as [|x p IH]; [done|]. rewrite not_elem_of_cons, occ_cons.
  intros [Hne Hp]. rewrite decide_False by done. by rewrite IH.
Qed.

Lemma occ_Permutation v l l' : l ≡ₚ l' → occ v l = occ v l'.
Proof. intros Hp. unfold occ. by rewrite Hp. Qed.

Lemma occ_snoc v p y : occ v (p ++ [y]) = occ v p + if decide (y = v) then 1 else 0.
Proof.
  rewrite occ_app, occ_cons. change (occ v []) with 0.
  destruct (decide (y = v)); lia.
Qed.

Lemma occ_self v : occ v [v] = 1.
Proof. rewrite occ_cons, decide_True by done. done. Qed.

Lemma Zfact_mul a b : (Zfact a * Zfact b ≤ Zfact (a + b))%Z.
Proof.
  induction b as [|b IH].
  - rewrite Nat.add_0_r. simpl. lia.
  - rewrite Nat.add_succ_r.
    change (Zfact (S b)) with (Z.of_nat (S b) * Zfact b)%Z.
    change (Zfact (S (a + b))) with (Z.of_nat (S (a + b)) * Zfact (a + b))%Z.
    pose proof (Zfact_pos a). pose proof (Zfact_pos b). nia.
Qed.

Lemma sum_list_insert_S l : ∀ i c,
  l !! i = Some c → sum_list (<[i := S c]> l) = S (sum_list l).
Proof.
  induction l as [|x l IH]; intros [|i] c Hl; simpl in *; try done.
  - injection Hl as ->. done.
  - rewrite (IH i c Hl). lia.
Qed.

Lemma StronglySorted_lt_NoDup (l : list nat) : StronglySorted lt l → NoDup l.
Proof.
  induction 1 as [|k l _ IH Hk]; [constructor|].
  apply NoDup_cons. split; [|done].
  intros Hin. eapply Forall_forall in Hk; [|done]. lia.
Qed.

Lemma sorted_lookup_le s : ∀ i j x y,
  StronglySorted le s → s !! i = Some x → s !! j = Some y → i ≤ j → x ≤ y.
Proof.
  induction s as [|a s IH]; intros i j x y Hs Hi Hj Hij; [done|].
  apply StronglySorted_inv in Hs as [Hs Ha].
  destruct i as [|i], j as [|j]; simpl in *; try lia.
  - injection Hi as ->. injection Hj as ->. done.
  - injection Hi as ->. eapply Forall_forall in Ha; [done|].
    by eapply list_elem_of_lookup_2.
  - eapply IH; [done..|lia].
Qed.

(** The product of factorials as the loop of lines 1262-1264 builds it. *)
Lemma product_loop nsame J :
  J ≤ length nsame → sum_list nsame ≤ 12 →
  foldl (λ denom i,
           d ← denom; f ← Fitting.factorial (Z.of_nat (nth i nsame 0));
           Fitting.int_mul d f)
        (Some 1%Z) (seq 0 J)
  = Some (foldr (λ c acc, (Zfact c * acc)%Z) 1%Z (take J nsame))
  ∧ (foldr (λ c acc, (Zfact c * acc)%Z) 1%Z (take J nsame)
     ≤ Zfact (sum_list (take J nsame)))%Z.
Proof.
  intros HJ Hsum. induction J as [|J IH]; [done|].
  destruct IH as [IH Hle]; [lia|].
  destruct (nth_lookup_or_length nsame J 0) as [Hl|]; [|lia].
  rewrite seq_S, foldl_snoc, IH, (take_S_r _ _ _ Hl). rewrite Nat.add_0_l.
  assert (sum_list (take J nsame ++ [nth J nsame 0]) ≤ sum_list nsame) as Hpre.
  { rewrite <-(take_S_r _ _ _ Hl). rewrite <-(take_drop (S J) nsame) at 2.
    rewrite sum_list_with_app. lia. }
  rewrite sum_list_with_app in Hpre |- *. simpl in Hpre |- *.
  rewrite Nat.add_0_r in *.
  assert (∀ l x, foldr (λ c acc, (Zfact c * acc)%Z) 1%Z (l ++ [x])
                 = (foldr (λ c acc, (Zfact c * acc)%Z) 1%Z l * Zfact x)%Z) as Hsnoc.
  { intros l x. induction l as [|y l IHl]; simpl; [lia|]. rewrite IHl. lia. }
  rewrite Hsnoc.
  set (P := foldr _ _ (take J nsame)) in *.
  set (c := nth J nsame 0) in *.
  assert (P * Zfact c ≤ Zfact (sum_list (take J nsame) + c))%Z as Hbound.
  { etransitivity; [|apply Zfact_mul]. pose proof (Zfact_pos c). nia. }
  split; [|done].
  rewrite factorial_value.
  destruct (Z.leb_spec 0 (Z.of_nat c)); [|lia].
  destruct (Z.leb_spec (Z.of_nat c) 12); [|lia]. simpl.
  rewrite Nat2Z.id. unfold Fitting.int_mul.
  pose proof (Zfact_mono (sum_list (take J nsame) + c) 12) as Hmono.
  assert (Zfact 12 = 479001600%Z) as H12 by (by vm_compute).
  assert (1 ≤ P * Zfact c)%Z.
  { assert (1 ≤ P)%Z.
    { unfold P. clear. induction (take J nsame) as [|y l IHl]; simpl; [lia|].
      pose proof (Zfact_pos y). nia. }
    pose proof (Zfact_pos c). nia. }
  unfold Fitting.int_min, Fitting.int_max.
  destruct (Z.leb_spec (-2147483648) (P * Zfact c)); [|lia].
  destruct (Z.leb_spec (P * Zfact c) 2147483647); [done|lia].
Qed.

Variables (n : nat) (arr : list nat).
Hypothesis n_positive : 1 ≤ n.
Hypothesis n_slots : n ≤ length arr.

Local Abbreviation s := (Fitting.insort (map (λ i, nth i arr 0) (seq 0 n))).

Lemma slots_take : map (λ i, nth i arr 0) (seq 0 n) = take n arr.
Proof.
  rewrite <-(map_nth_seq (take n arr) n) by (rewrite length_take; lia).
  apply map_ext_in. intros i Hi%in_seq.
  by rewrite !nth_lookup, lookup_take_lt by lia.
Qed.

Lemma sorted_copy : StronglySorted le s ∧ s ≡ₚ take n arr ∧ length s = n.
Proof.
  unfold Fitting.insort. rewrite slots_take. split_and!.
  - apply (StronglySorted_merge_sort le).
  - apply merge_sort_Permutation.
  - rewrite merge_sort_Permutation, length_take. lia.
Qed.

(** The loop of lines 1249-1258 after the indices [1..k]. *)
Lemma gamma_loop k :
  k < n →
  ∃ d0 x nsame,
    foldl (Fitting.gamma_step arr s (nth 0 arr 0))
          (<[0 := 1]> (replicate n 0), 0, 1, 1) (seq 1 k)
      = (nsame, length d0, S (length d0), occ (nth 0 arr 0) (take (S k) arr))
    ∧ s !! k = Some x
    ∧ StronglySorted lt (d0 ++ [x])
    ∧ (∀ v, v ∈ d0 ++ [x] ↔ v ∈ take (S k) s)
    ∧ length nsame = n
    ∧ length d0 ≤ k
    ∧ sum_list nsame = S k
    ∧ (∀ j v, (d0 ++ [x]) !! j = Some v →
              nsame !! j = Some (occ v (take (S k) s)))
    ∧ ∀ j, S (length d0) ≤ j → j < n → nsame !! j = Some 0.
Proof.
  destruct sorted_copy as (Hsorted & Hperm & Hlen).
  induction k as [|k IH]; intros Hk.
  - destruct (lookup_lt_is_Some_2 s 0) as [x Hx]; [lia|].
    destruct (lookup_lt_is_Some_2 arr 0) as [a Ha]; [lia|].
    exists [], x, (<[0 := 1]> (replicate n 0)). simpl.
    rewrite (take_S_r _ _ _ Hx), (take_S_r _ _ _ Ha), !take_0. simpl.
    rewrite (nth_lookup_Some _ _ _ _ Ha).
    split_and!; try done.
    + by rewrite occ_self.
    + repeat constructor.
    + rewrite length_insert, length_replicate. done.
    + destruct n as [|m]; [lia|]. simpl. rewrite sum_list_replicate. lia.
    + intros [|j] v Hj; [|done]. injection Hj as <-.
      rewrite list_lookup_insert_eq by (rewrite length_replicate; lia).
      by rewrite occ_self.
    + intros j Hj Hjn. rewrite list_lookup_insert_ne by lia.
      apply lookup_replicate. split; [done|lia].
  - destruct IH as (d0 & x & nsame & Hfold & Hx & Hd & Hmem & Hns & Hd0 & Hsum
                    & Hcount & Hzero); [lia|].
    destruct (lookup_lt_is_Some_2 s (S k)) as [y Hy]; [lia|].
    destruct (lookup_lt_is_Some_2 arr (S k)) as [a Ha]; [lia|].
    rewrite seq_S, foldl_snoc, Hfold. unfold Fitting.gamma_step.
    change (1 + k) with (S k). rewrite Nat.sub_1_r. simpl Nat.pred.
    rewrite (nth_lookup_Some _ _ _ _ Hx), (nth_lookup_Some _ _ _ _ Hy),
      (nth_lookup_Some _ _ _ _ Ha).
    rewrite (take_S_r _ (S k) _ Hy), (take_S_r arr (S k) _ Ha), occ_snoc.
    assert (x ≤ y) as Hxy by (eapply (sorted_lookup_le s k (S k)); [done..|lia]).
    assert (∀ v, v ∈ take (S k) s → v ≤ x) as Hbelow.
    { intros v (i & Hi & Hik)%elem_of_take.
      eapply (sorted_lookup_le s i k); [done..|lia]. }
    assert (∀ v, v ∈ d0 → v < x) as Hd0x.
    { intros v Hv. eapply StronglySorted_app_1_elem_of; [exact Hd|done|left]. }
    assert ((if a =? nth 0 arr 0 then
               S (occ (nth 0 arr 0) (take (S k) arr))
             else occ (nth 0 arr 0) (take (S k) arr))
            = occ (nth 0 arr 0) (take (S k) arr)
              + (if decide (a = nth 0 arr 0) then 1 else 0)) as ->.
    { destruct (Nat.eqb_spec a (nth 0 arr 0)), (decide (a = nth 0 arr 0)); lia. }
    destruct (Nat.eqb_spec y x) as [->|Hne].
    + assert (nsame !! length d0 = Some (occ x (take (S k) s))) as Hlast.
      { apply Hcount. by rewrite lookup_app_r, Nat.sub_diag by lia. }
      rewrite (nth_lookup_Some _ _ _ _ Hlast).
      exists d0, x, (<[length d0 := S (occ x (take (S k) s))]> nsame).
      split_and!; try done.
      * intros v. rewrite Hmem, elem_of_app, list_elem_of_singleton.
        split; [tauto|]. intros [?| ->]; [done|].
        apply elem_of_take. exists k. split; [done|lia].
      * by rewrite length_insert.
      * lia.
      * rewrite (sum_list_insert_S _ _ _ Hlast). lia.
      * intros j v Hj. rewrite occ_snoc.
        destruct (decide (j = length d0)) as [->|Hjne].
        -- rewrite lookup_app_r, Nat.sub_diag in Hj by lia. injection Hj as <-.
           rewrite list_lookup_insert_eq by (by eapply lookup_lt_Some).
           rewrite decide_True by done. f_equal. lia.
        -- rewrite list_lookup_insert_ne by done.
           rewrite (Hcount j v Hj). f_equal.
           assert (v ∈ d0) as Hv.
           { apply lookup_app_Some in Hj as [Hj|[Hge Hj]];
               [by eapply list_elem_of_lookup_2|].
             destruct (j - length d0) as [|m] eqn:E; [lia|done]. }
           apply Hd0x in Hv. rewrite decide_False by lia. lia.
      * intros j Hj Hjn. rewrite list_lookup_insert_ne by lia. by apply Hzero.
    + assert (x < y) as Hlt by lia.
      assert (nsame !! S (length d0) = Some 0) as Hnext by (apply Hzero; lia).
      rewrite (nth_lookup_Some _ _ _ _ Hnext).
      exists (d0 ++ [x]), y, (<[S (length d0) := 1]> nsame).
      assert (length (d0 ++ [x]) = S (length d0)) as Hlen'
        by (rewrite length_app; simpl; lia).
      rewrite Hlen'. split_and!; try done.
      * apply StronglySorted_app_2; [|done|repeat constructor].
        intros v w Hv ->%list_elem_of_singleton. apply Hmem, Hbelow in Hv. lia.
      * intros v. rewrite (elem_of_app (d0 ++ [x])), Hmem, elem_of_app. done.
      * by rewrite length_insert.
      * lia.
      * rewrite (sum_list_insert_S _ _ _ Hnext). lia.
      * intros j v Hj. rewrite occ_snoc.
        destruct (decide (j = S (length d0))) as [->|Hjne].
        -- rewrite lookup_app_r, Hlen', Nat.sub_diag in Hj by lia.
           injection Hj as <-.
           rewrite list_lookup_insert_eq by (rewrite Hns; lia).
           rewrite decide_True by done. f_equal.
           rewrite occ_notin; [done|]. intros Hin%Hbelow. lia.
        -- rewrite list_lookup_insert_ne by done.
           assert ((d0 ++ [x]) !! j = Some v) as Hj'.
           { apply lookup_app_Some in Hj as [Hj|[Hge Hj]]; [done|].
             rewrite Hlen' in Hge, Hj.
             destruct (j - S (length d0)) as [|m] eqn:E; [lia|done]. }
           rewrite (Hcount j v Hj'). f_equal.
           assert (v ≤ x) as Hvx.
           { apply Hbelow, Hmem. by eapply list_elem_of_lookup_2. }
           rewrite decide_False by lia. lia.
      * intros j Hj Hjn. rewrite list_lookup_insert_ne by lia. apply Hzero; lia.
Qed.

Hypothesis n_small : n ≤ 12.

Lemma gamma_value :
  ∃ d, NoDup d ∧ (∀ v, v ∈ d ↔ v ∈ take n arr)
    ∧ Fitting.gamma n arr
      = Some (PrimFloat.div
                (Z_to_float (Z.of_nat (occ (nth 0 arr 0) (take n arr))))
                (Z_to_float (multiplicity_product (take n arr) d))).
Proof.
  destruct sorted_copy as (Hsorted & Hperm & Hlen).
  destruct (gamma_loop (n - 1)) as (d0 & x & nsame & Hfold & Hx & Hd & Hmem & Hns
                                    & Hd0 & Hsum & Hcount & Hzero); [lia|].
  replace (S (n - 1)) with n in * by lia.
  rewrite (take_ge s n) in Hmem, Hcount by lia.
  exists (d0 ++ [x]). split_and!.
  - by apply StronglySorted_lt_NoDup.
  - intros v. by rewrite Hmem, Hperm.
  - unfold Fitting.gamma. rewrite Hfold.
    destruct (product_loop nsame (S (length d0))) as [-> _]; [lia..|]. simpl.
    do 3 f_equal. unfold multiplicity_product.
    assert (take (S (length d0)) nsame
            = (λ v, occ v (take n arr)) <$> (d0 ++ [x])) as ->.
    { apply list_eq. intros j. rewrite list_lookup_fmap.
      destruct ((d0 ++ [x]) !! j) as [v|] eqn:Hj; simpl.
      - assert (j < S (length d0)) as Hlt.
        { apply lookup_lt_Some in Hj. rewrite length_app in Hj. simpl in Hj. lia. }
        rewrite lookup_take_lt by done.
        by rewrite (Hcount j v Hj), (occ_Permutation v _ _ Hperm).
      - apply lookup_ge_None in Hj. rewrite length_app in Hj. simpl in Hj.
        apply lookup_take_ge. lia. }
    generalize (d0 ++ [x]). intros d. induction d as [|v d IHd]; [done|].
    rewrite fmap_cons. simpl. by rewrite IHd.
Qed.

End Gamma.

Lemma multiplicity_product_Permutation l l' d d' :
  l ≡ₚ l' → d ≡ₚ d' → multiplicity_product l d = multiplicity_product l' d'.
Proof.
  intros Hl Hd. unfold multiplicity_product.
  transitivity (foldr (λ v acc, (Zfact (occ v l) * acc)%Z) 1%Z d').
  - clear Hl. induction Hd as [|v d d' _ IH|v w d|d d' d'' _ IH1 _ IH2]; simpl.
    + done.
    + by rewrite IH.
    + lia.
    + by rewrite IH1.
  - clear Hd. induction d' as [|u d' IHd]; simpl; [done|].
    by rewrite IHd, (occ_Permutation u l l' Hl).
Qed.

(** X25: for an array of at most 12 indices [Fitting::gamma(n, arr)] is the
    number of slots among the first [n] that hold the index of slot 0,
    divided by the product, over the distinct indices among the first [n],
    of the factorials of the numbers of slots that hold them; no product
    leaves the range of [int]. *)
Theorem gamma_multiplicity n arr :
  1 ≤ n → n ≤ 12 → n ≤ length arr →
  ∃ d, NoDup d ∧ (∀ v, v ∈ d ↔ v ∈ take n arr)
    ∧ Fitting.gamma n arr
      = Some (PrimFloat.div
                (Z_to_float (Z.of_nat (occ (nth 0 arr 0) (take n arr))))
                (Z_to_float (multiplicity_product (take n arr) d))).
Proof. intros Hn Hs Hl. by apply gamma_value. Qed.

Lemma gamma_multiplicity_witness :
  ∃ d, NoDup d ∧ (∀ v, v ∈ d ↔ v ∈ take 3 [5; 2; 5])
    ∧ Fitting.gamma 3 [5; 2; 5]
      = Some (PrimFloat.div
                (Z_to_float (Z.of_nat (occ (nth 0 [5; 2; 5] 0) (take 3 [5; 2; 5]))))
                (Z_to_float (multiplicity_product (take 3 [5; 2; 5]) d))).
Proof. apply (gamma_multiplicity 3 [5; 2; 5]); simpl; lia. Defined.

(** X26: [Fitting::gamma] depends on the index of slot 0 and on the indices
    behind it, not on the order of the slots behind slot 0. *)
Theorem gamma_ignores_order_of_tail x t t' :
  length t < 12 → t ≡ₚ t' →
  Fitting.gamma (S (length t)) (x :: t) = Fitting.gamma (S (length t)) (x :: t').
Proof.
  intros Hlen Hp.
  destruct (gamma_value (S (length t)) (x :: t)) as (d & Hnd & Hd & ->);
    [lia|simpl; lia|lia|].
  destruct (gamma_value (S (length t)) (x :: t')) as (d' & Hnd' & Hd' & ->);
    [lia|simpl; rewrite <-Hp; lia|lia|].
  assert (take (S (length t)) (x :: t) = x :: t) as Ht
    by (apply take_ge; simpl; lia).
  assert (take (S (length t)) (x :: t') = x :: t') as Ht'
    by (apply take_ge; simpl; rewrite <-Hp; lia).
  rewrite Ht in *. rewrite Ht' in *. simpl nth.
  assert (x :: t ≡ₚ x :: t') as Hxp by by constructor.
  rewrite (occ_Permutation x _ _ Hxp).
  rewrite (multiplicity_product_Permutation (x :: t) (x :: t') d d' Hxp); [done|].
  apply NoDup_Permutation; [done..|].
  intros v. by rewrite Hd, Hd', Hxp.
Qed.

Lemma gamma_ignores_order_of_tail_witness :
  Fitting.gamma (S (length [2; 5; 7])) (5 :: [2; 5; 7])
  = Fitting.gamma (S (length [2; 5; 7])) (5 :: [7; 5; 2]).
Proof.
  apply (gamma_ignores_order_of_tail 5 [2; 5; 7] [7; 5; 2]).
  - simpl. lia.
  - exact (perm_trans (perm_skip 2 (perm_swap 7 5 []))
             (perm_trans (perm_swap 7 2 [5]) (perm_skip 7 (perm_swap 5 2 [])))).
Defined.

(** ** The multiplication of the data by the translations *)

Section DataMultiplier.

Variable symmetry : Symmetry.
Variable nat_ : nat.

Local Abbreviation image_of s j := (nth s (nth j (get_map_sym symmetry) []) 0).

Lemma translate_data_length set tmp s :
  length (Fitting.translate_data symmetry nat_ set tmp s) = length tmp.
Proof.
  unfold Fitting.translate_data. apply foldl_invariant; [done|].
  intros tmp' j _ <-. simpl. by rewrite !length_insert.
Qed.

(** One atom of the loop of lines 1197-1202. *)
Lemma translate_atom_lookup set tmp s j :
  3 * image_of s j + 3 ≤ length tmp →
  let tmp' := foldl (λ tmp k, <[3 * image_of s j + k := nth (3 * j + k) set 0%float]> tmp)
                    tmp (seq 0 3) in
  length tmp' = length tmp
  ∧ (∀ k, k < 3 → tmp' !! (3 * image_of s j + k) = Some (nth (3 * j + k) set 0%float))
  ∧ ∀ p, ¬ (3 * image_of s j ≤ p < 3 * image_of s j + 3) → tmp' !! p = tmp !! p.
Proof.
  intros Hlen. simpl. split; [by rewrite !length_insert|]. split.
  - intros k Hk. destruct k as [|[|[|k]]]; [| | |lia].
    + rewrite !list_lookup_insert_ne by lia.
      apply list_lookup_insert_eq. lia.
    + rewrite list_lookup_insert_ne by lia.
      apply list_lookup_insert_eq. rewrite length_insert. lia.
    + apply list_lookup_insert_eq. rewrite !length_insert. lia.
  - intros p Hp. rewrite !list_lookup_insert_ne by lia. done.
Qed.

(** A translation that maps the atoms one to one moves every value of the
    set to the place of the image of its atom. *)
Lemma translate_data_lookup set tmp s :
  length tmp = 3 * nat_ →
  (∀ j, j < nat_ → image_of s j < nat_) →
  (∀ j j', j < nat_ → j' < nat_ → image_of s j = image_of s j' → j = j') →
  ∀ j k, j < nat_ → k < 3 →
    Fitting.translate_data symmetry nat_ set tmp s !! (3 * image_of s j + k)
    = Some (nth (3 * j + k) set 0%float).
Proof.
  intros Hlen Hran Hinj. unfold Fitting.translate_data.
  assert (∀ J, J ≤ nat_ →
    let tmp' := foldl (λ tmp j,
                  foldl (λ tmp k, <[3 * image_of s j + k
                                     := nth (3 * j + k) set 0%float]> tmp)
                        tmp (seq 0 3)) tmp (seq 0 J) in
    length tmp' = 3 * nat_
    ∧ ∀ j k, j < J → k < 3 →
        tmp' !! (3 * image_of s j + k) = Some (nth (3 * j + k) set 0%float))
    as Hloop.
  { induction J as [|J IH]; intros HJ; cbv zeta.
    { simpl. split; [done|]. intros; lia. }
    rewrite (seq_S J 0), foldl_snoc. rewrite Nat.add_0_l.
    destruct IH as [Hl Hdone]; [lia|]. cbv zeta in Hl, Hdone.
    set (prev := foldl _ tmp (seq 0 J)) in *.
    destruct (translate_atom_lookup set prev s J) as (Hl' & Hnew & Hold).
    { specialize (Hran J). lia. }
    split; [by rewrite Hl'|].
    intros j k Hj Hk. destruct (decide (j = J)) as [->|Hne]; [by apply Hnew|].
    rewrite Hold; [apply Hdone; lia|].
    assert (image_of s j ≠ image_of s J) as Hdiff.
    { intros Heq. apply Hne, Hinj; [lia..|done]. }
    lia. }
  intros j k Hj Hk. by apply (Hloop nat_).
Qed.

Variable tr : Fitting.Translations.

(** The translations that map the atoms of the supercell one to one. *)
Local Abbreviation one_to_one itran :=
  ((∀ j, j < nat_ → image_of (nth itran (Fitting.symnum_tran tr) 0) j < nat_)
   ∧ ∀ j j', j < nat_ → j' < nat_ →
       image_of (nth itran (Fitting.symnum_tran tr) 0) j
       = image_of (nth itran (Fitting.symnum_tran tr) 0) j' → j = j').

(** The rows that one data set contributes. *)
Lemma multiply_set_rows data_out set :
  ∃ rows,
    Fitting.multiply_set symmetry tr nat_ data_out set = data_out ++ rows
    ∧ length rows = Fitting.ntran tr
    ∧ Forall (λ row, length row = 3 * nat_) rows
    ∧ ∀ itran, itran < Fitting.ntran tr → one_to_one itran →
        ∃ row, rows !! itran = Some row
          ∧ ∀ j k, j < nat_ → k < 3 →
              row !! (3 * image_of (nth itran (Fitting.symnum_tran tr) 0) j + k)
              = Some (nth (3 * j + k) set 0%float).
Proof.
  unfold Fitting.multiply_set.
  match goal with |- context [foldl ?f _ _] => set (step := f) end.
  assert (∀ T, ∃ rows tmp,
    foldl step (data_out, replicate (3 * nat_) 0%float) (seq 0 T)
      = (data_out ++ rows, tmp)
    ∧ length tmp = 3 * nat_
    ∧ length rows = T
    ∧ Forall (λ row, length row = 3 * nat_) rows
    ∧ ∀ itran, itran < T → one_to_one itran →
        ∃ row, rows !! itran = Some row
          ∧ ∀ j k, j < nat_ → k < 3 →
              row !! (3 * image_of (nth itran (Fitting.symnum_tran tr) 0) j + k)
              = Some (nth (3 * j + k) set 0%float)) as Hloop.
  { induction T as [|T (rows & tmp & Hfold & Htmp & Hlen & Hall & Hrows)].
    { exists [], (replicate (3 * nat_) 0%float). simpl.
      rewrite app_nil_r, length_replicate. split_and!; [done..|]. intros; lia. }
    rewrite seq_S, foldl_snoc, Hfold. rewrite Nat.add_0_l. unfold step at 1.
    set (row := Fitting.translate_data symmetry nat_ set tmp
                  (nth T (Fitting.symnum_tran tr) 0)).
    assert (length row = 3 * nat_) as Hrow
      by (unfold row; by rewrite translate_data_length).
    exists (rows ++ [row]), row. split_and!.
    - cbv zeta. by rewrite <-(assoc_L (++)).
    - done.
    - rewrite length_app. simpl. lia.
    - apply Forall_app. split; [done|]. by constructor.
    - intros itran Hit Hone. destruct (decide (itran = T)) as [->|Hne].
      + exists row. split; [by rewrite lookup_app_r, Hlen, Nat.sub_diag by lia|].
        destruct Hone as [Hran Hinj]. by apply translate_data_lookup.
      + destruct (Hrows itran) as (row' & Hl & Hv); [lia|done|].
        exists row'. split; [|done]. by apply lookup_app_l_Some. }
  destruct (Hloop (Fitting.ntran tr)) as (rows & tmp & Hfold & _ & Hlen & Hall & Hrows).
  exists rows. by rewrite Hfold.
Qed.

(** The rows that the first [N] data sets contribute. *)
Lemma multiply_sets_rows data_in data_out N :
  ∃ sets,
    foldl (λ out i, Fitting.multiply_set symmetry tr nat_ out (nth i data_in []))
          data_out (seq 0 N)
      = data_out ++ mjoin sets
    ∧ length sets = N
    ∧ Forall (λ rows, length rows = Fitting.ntran tr) sets
    ∧ Forall (Forall (λ row, length row = 3 * nat_)) sets
    ∧ ∀ i itran, i < N → itran < Fitting.ntran tr → one_to_one itran →
        ∃ rows row, sets !! i = Some rows ∧ rows !! itran = Some row
          ∧ ∀ j k, j < nat_ → k < 3 →
              row !! (3 * image_of (nth itran (Fitting.symnum_tran tr) 0) j + k)
              = Some (nth (3 * j + k) (nth i data_in []) 0%float).
Proof.
  induction N as [|N (sets & Hfold & Hlen & Hcount & Hshape & Hrows)].
  { exists []. simpl. rewrite app_nil_r. split_and!; [done..|]. intros; lia. }
  rewrite seq_S, foldl_snoc, Hfold. rewrite Nat.add_0_l.
  destruct (multiply_set_rows (data_out ++ mjoin sets) (nth N data_in []))
    as (rows & -> & Hn & Hall & Hnew).
  exists (sets ++ [rows]). split_and!.
  - rewrite join_app. simpl. by rewrite app_nil_r, <-(assoc_L (++)).
  - rewrite length_app. simpl. lia.
  - apply Forall_app. split; [done|]. by constructor.
  - apply Forall_app. split; [done|]. by constructor.
  - intros i itran Hi Hit Hone. destruct (decide (i = N)) as [->|Hne].
    + destruct (Hnew itran Hit Hone) as (row & Hl & Hv).
      exists rows, row. split; [|done].
      by rewrite lookup_app_r, Hlen, Nat.sub_diag by lia.
    + destruct (Hrows i itran) as (rows' & row & Hl & Hl' & Hv); [lia|done..|].
      exists rows', row. split; [|done]. by apply lookup_app_l_Some.
Qed.

End DataMultiplier.

(** X27: [data_multiplier] ends in its error exactly when there are fewer
    data sets than [ndata_used]; otherwise it leaves the rows that
    [data_out] held and appends [ndata_used * ntran] rows of
    [3 * nat_prim * ntran] values each. *)
Theorem data_multiplier_appends data_in data_out ndata_used symmetry tr :
  match Fitting.data_multiplier data_in data_out ndata_used symmetry tr with
  | Exit where_ message =>
      (Z.of_nat (length data_in) < ndata_used)%Z
      ∧ where_ = "data_multiplier"
      ∧ message = "Number of data sets is insufficient."
  | Ok out =>
      (ndata_used ≤ Z.of_nat (length data_in))%Z
      ∧ ∃ new, out = data_out ++ new
          ∧ length new = Z.to_nat ndata_used * Fitting.ntran tr
          ∧ Forall (λ row, length row
                           = 3 * (get_nat_prim symmetry * Fitting.ntran tr)) new
  end.
Proof.
  unfold Fitting.data_multiplier.
  destruct (Z.ltb_spec (Z.of_nat (length data_in)) ndata_used); [done|].
  split; [done|].
  destruct (multiply_sets_rows symmetry (get_nat_prim symmetry * Fitting.ntran tr)
              tr data_in data_out (Z.to_nat ndata_used))
    as (sets & -> & Hlen & Hcount & Hshape & _).
  exists (mjoin sets). split; [done|]. split; [|by apply Forall_join].
  rewrite length_join, <-Hlen. clear -Hcount.
  induction Hcount as [|rows sets Hrows _ IH]; [done|].
  rewrite fmap_cons. simpl. rewrite Hrows, IH. lia.
Qed.

(** X28: along a translation that maps the atoms of the supercell one to
    one, [data_multiplier] moves every value of a data set to the place of
    the image of its atom: row [i * ntran + itran] of the appended rows
    holds at [3 * map_sym[j][symnum_tran[itran]] + k] the value
    [data_in[i][3 * j + k]]. *)
Theorem data_multiplier_translates data_in data_out ndata_used symmetry tr out
    i itran :
  Fitting.data_multiplier data_in data_out ndata_used symmetry tr = Ok out →
  let nat_ := get_nat_prim symmetry * Fitting.ntran tr in
  let s := nth itran (Fitting.symnum_tran tr) 0 in
  i < Z.to_nat ndata_used → itran < Fitting.ntran tr →
  3 * nat_ ≤ length (nth i data_in []) →
  (∀ j, j < nat_ → nth s (nth j (get_map_sym symmetry) []) 0 < nat_) →
  (∀ j j', j < nat_ → j' < nat_ →
     nth s (nth j (get_map_sym symmetry) []) 0
     = nth s (nth j' (get_map_sym symmetry) []) 0 → j = j') →
  ∃ row,
    out !! (length data_out + (i * Fitting.ntran tr + itran)) = Some row
    ∧ ∀ j k, j < nat_ → k < 3 →
        row !! (3 * nth s (nth j (get_map_sym symmetry) []) 0 + k)
        = Some (nth (3 * j + k) (nth i data_in []) 0%float).
Proof.
  unfold Fitting.data_multiplier.
  destruct (Z.ltb_spec (Z.of_nat (length data_in)) ndata_used); [done|].
  intros [= <-] Hi Hit _ Hran Hinj.
  set (nat_ := get_nat_prim symmetry * Fitting.ntran tr) in *.
  destruct (multiply_sets_rows symmetry nat_ tr data_in data_out
              (Z.to_nat ndata_used))
    as (sets & -> & Hlen & Hcount & Hshape & Hrows).
  destruct (Hrows i itran Hi Hit (conj Hran Hinj)) as (rows & row & Hl & Hl' & Hv).
  exists row. split; [|done].
  rewrite lookup_app_r by lia.
  replace (length data_out + (i * Fitting.ntran tr + itran) - length data_out)
    with (i * Fitting.ntran tr + itran) by lia.
  apply (join_lookup_Some_same_length' (Fitting.ntran tr)); [done..|].
  by exists rows.
Qed.

Lemma data_multiplier_translates_witness :
  ∃ out,
    Fitting.data_multiplier [[1; 2; 3; 4; 5; 6; 7; 8; 9]%float] [] 1 Inputs.chain3
      (Fitting.mkTranslations 3 [0; 1; 2]) = Ok out
    ∧ ∃ row,
        out !! (0 + (0 * 3 + 1)) = Some row
        ∧ ∀ j k, j < 3 → k < 3 →
            row !! (3 * nth 1 (nth j (get_map_sym Inputs.chain3) []) 0 + k)
            = Some (nth (3 * j + k) [1; 2; 3; 4; 5; 6; 7; 8; 9]%float 0%float).
Proof.
  eexists. split; [vm_compute; reflexivity|].
  eapply (data_multiplier_translates [[1; 2; 3; 4; 5; 6; 7; 8; 9]%float] [] 1
            Inputs.chain3 (Fitting.mkTranslations 3 [0; 1; 2]) _ 0 1).
  - vm_compute. reflexivity.
  - simpl. lia.
  - simpl. lia.
  - simpl. lia.
  - intros j Hj. simpl in Hj. destruct j as [|[|[|j]]]; simpl; lia.
  - intros j j' Hj Hj'. simpl in Hj, Hj'.
    destruct j as [|[|[|j]]], j' as [|[|[|j']]]; simpl; lia.
Defined.

(** ** The expansion of the fitted parameters *)

Lemma nth_insert_ne {A} (l : list A) i j x d :
  i ≠ j → nth j (<[i := x]> l) d = nth j l d.
Proof. intros Hne. by rewrite !nth_lookup, list_lookup_insert_ne. Qed.

(** A loop of writes at pairwise distinct places. *)
Lemma write_loop {X} (key : X → nat) (val : X → float) (l : list X) : ∀ po,
  NoDup (key <$> l) → Forall (λ x, key x < length po) l →
  length (foldl (λ po x, <[key x := val x]> po) po l) = length po
  ∧ (∀ x, x ∈ l → foldl (λ po x, <[key x := val x]> po) po l !! key x = Some (val x))
  ∧ ∀ p, p ∉ key <$> l → foldl (λ po x, <[key x := val x]> po) po l !! p = po !! p.
Proof.
  induction l as [|a l IH]; intros po Hnd Hlt; simpl.
  { split; [done|]. split; [by intros x ?%elem_of_nil|done]. }
  rewrite fmap_cons in Hnd. apply NoDup_cons in Hnd as [Ha Hnd].
  apply Forall_cons in Hlt as [Hka Hlt].
  destruct (IH (<[key a := val a]> po) Hnd) as (Hlen & Hin & Hout).
  { eapply Forall_impl; [done|]. simpl. intros x. by rewrite length_insert. }
  rewrite length_insert in Hlen. split; [done|]. split.
  - intros x [->|Hx]%elem_of_cons; [|by apply Hin].
    rewrite (Hout (key a) Ha). by apply list_lookup_insert_eq.
  - intros p Hp. apply not_elem_of_cons in Hp as [Hne Hp].
    rewrite (Hout p Hp). by apply list_lookup_insert_ne.
Qed.

Section RecoverOrder.

Import Recover.

Variables (param_in : list float) (nequiv : list (list nat)).
Variable constraint : Constraint.

Lemma combination_ext ishift po po' r :
  (∀ k, k < length (ConstraintTypeRelate.alpha r) →
        nth (nth k (ConstraintTypeRelate.p_index_orig r) 0 + ishift) po 0%float
        = nth (nth k (ConstraintTypeRelate.p_index_orig r) 0 + ishift) po' 0%float) →
  combination ishift po r = combination ishift po' r.
Proof.
  intros Hagree. unfold combination.
  assert (∀ K, K ≤ length (ConstraintTypeRelate.alpha r) →
    foldl (λ tmp k,
             PrimFloat.add tmp
               (PrimFloat.mul (nth k (ConstraintTypeRelate.alpha r) 0%float)
                  (nth (nth k (ConstraintTypeRelate.p_index_orig r) 0 + ishift)
                       po 0%float))) 0%float (seq 0 K)
    = foldl (λ tmp k,
             PrimFloat.add tmp
               (PrimFloat.mul (nth k (ConstraintTypeRelate.alpha r) 0%float)
                  (nth (nth k (ConstraintTypeRelate.p_index_orig r) 0 + ishift)
                       po' 0%float))) 0%float (seq 0 K)) as Hloop.
  { induction K as [|K IH]; intros HK; [done|].
    rewrite seq_S, !foldl_snoc, IH, Nat.add_0_l by lia.
    by rewrite Hagree by lia. }
  by apply Hloop.
Qed.

(** The loop over the relations writes, for every relation, minus its
    combination as the parameters stand when the loop starts. *)
Lemma relate_loop ishift (l : list ConstraintTypeRelate.t) init : ∀ po,
  (∀ r r' k, r ∈ l → r' ∈ l → k < length (ConstraintTypeRelate.alpha r') →
             nth k (ConstraintTypeRelate.p_index_orig r') 0
             ≠ ConstraintTypeRelate.p_index_target r) →
  (∀ r k, r ∈ l → k < length (ConstraintTypeRelate.alpha r) →
          nth (nth k (ConstraintTypeRelate.p_index_orig r) 0 + ishift) po 0%float
          = nth (nth k (ConstraintTypeRelate.p_index_orig r) 0 + ishift) init 0%float) →
  foldl (λ po r, <[ConstraintTypeRelate.p_index_target r + ishift
                   := (- combination ishift po r)%float]> po) po l
  = foldl (λ po r, <[ConstraintTypeRelate.p_index_target r + ishift
                     := (- combination ishift init r)%float]> po) po l.
Proof.
  induction l as [|a l IH]; intros po Hsep Hagree; simpl; [done|].
  rewrite (combination_ext ishift po init a)
    by (intros k Hk; apply Hagree; [left|done]).
  apply IH.
  - intros r r' k Hr Hr'. apply Hsep; by right.
  - intros r k Hr Hk. rewrite nth_insert_ne.
    + apply Hagree; [by right|done].
    + specialize (Hsep a r k). intros Heq. apply Hsep; [left|by right|done|lia].
Qed.

(** One order of the expansion. *)
Lemma recover_order_spec po ishift iparam i :
  assigned_once (length (nth i nequiv [])) constraint i →
  ishift + length (nth i nequiv []) ≤ length po →
  ∃ po',
    recover_order param_in nequiv constraint (po, ishift, iparam) i
      = (po', ishift + length (nth i nequiv []),
         iparam + length (nth i (index_bimap constraint) []))
    ∧ length po' = length po
    ∧ (∀ p, ¬ (ishift ≤ p < ishift + length (nth i nequiv [])) → po' !! p = po !! p)
    ∧ (∀ f, f ∈ nth i (const_fix constraint) [] →
            po' !! (ConstraintTypeFix.p_index_target f + ishift)
            = Some (ConstraintTypeFix.val_to_fix f))
    ∧ (∀ it, it ∈ nth i (index_bimap constraint) [] →
             po' !! (it.2 + ishift) = Some (nth (it.1 + iparam) param_in 0%float))
    ∧ (∀ r, r ∈ nth i (const_relate constraint) [] →
            po' !! (ConstraintTypeRelate.p_index_target r + ishift)
            = Some (- combination ishift po' r)%float).
Proof.
  intros (Hnd & Hlt & Hrel) Hfit. unfold recover_order.
  set (size := length (nth i nequiv [])) in *.
  set (fixes := nth i (const_fix constraint) []) in *.
  set (pairs := nth i (index_bimap constraint) []) in *.
  set (rels := nth i (const_relate constraint) []) in *.
  apply NoDup_app in Hnd as (Hnd1 & Hd1 & Hnd23).
  apply NoDup_app in Hnd23 as (Hnd2 & Hd2 & Hnd3).
  apply Forall_app in Hlt as [Hlt1 Hlt23]. apply Forall_app in Hlt23 as [Hlt2 Hlt3].
  assert (∀ {X} (key : X → nat) (l : list X),
            NoDup (key <$> l) → NoDup ((λ x, key x + ishift) <$> l)) as Hshift.
  { intros X key l Hl. rewrite (list_fmap_compose key (λ p, p + ishift)).
    apply NoDup_fmap_2; [|done]. intros p q. lia. }
  assert (∀ {X} (key : X → nat) (l : list X) (po : list float),
            Forall (λ p, p < size) (key <$> l) → length po = length po →
            ishift + size ≤ length po →
            Forall (λ x, key x + ishift < length po) l) as Hrange.
  { intros X key l po0 Hl _ Hle. apply Forall_fmap in Hl.
    eapply Forall_impl; [done|]. simpl. lia. }
  assert (∀ {X} (key : X → nat) (l : list X) p,
            Forall (λ p, p < size) (key <$> l) →
            p ∈ (λ x, key x + ishift) <$> l →
            ∃ x, x ∈ l ∧ p = key x + ishift ∧ key x < size) as Hkey.
  { intros X key l p Hl (x & -> & Hx)%list_elem_of_fmap. exists x.
    split; [done|]. split; [done|].
    apply Forall_fmap in Hl. by eapply Forall_forall in Hl. }
  (* the fixed parameters *)
  destruct (write_loop (λ f, ConstraintTypeFix.p_index_target f + ishift)
              ConstraintTypeFix.val_to_fix fixes po)
    as (Hlen1 & Hin1 & Hout1); [by apply Hshift|by apply Hrange|].
  set (po1 := foldl _ po fixes) in *.
  (* the fitted parameters *)
  destruct (write_loop (λ it : nat * nat, it.2 + ishift)
              (λ it, nth (it.1 + iparam) param_in 0%float) pairs po1)
    as (Hlen2 & Hin2 & Hout2);
    [by apply (Hshift _ snd)|apply (Hrange _ snd); [done|done|lia]|].
  set (po2 := foldl _ po1 pairs) in *.
  (* the relations *)
  rewrite (relate_loop ishift rels po2 po2); [|
    intros r r' k Hr Hr' Hk; eapply Forall_forall in Hrel; [|exact Hr'];
    destruct (Hrel k Hk) as [_ Hnotin]; intros Heq; apply Hnotin; rewrite Heq;
    by apply list_elem_of_fmap_2|done].
  destruct (write_loop (λ r, ConstraintTypeRelate.p_index_target r + ishift)
              (λ r, (- combination ishift po2 r)%float) rels po2)
    as (Hlen3 & Hin3 & Hout3); [by apply Hshift|apply Hrange; [done|done|lia]|].
  set (po3 := foldl _ po2 rels) in *.
  exists po3. split; [done|]. split; [lia|]. split_and!.
  - intros p Hp. rewrite Hout3, Hout2, Hout1; [done|..];
      intros (x & _ & -> & ?)%Hkey; try done; lia.
  - intros f Hf. rewrite Hout3, Hout2; [by apply Hin1|..].
    + intros (it & Hit & Heq & _)%(Hkey _ snd); [|done].
      apply (Hd1 (ConstraintTypeFix.p_index_target f));
        [by apply list_elem_of_fmap_2|].
      apply elem_of_app. left. apply list_elem_of_fmap. exists it.
      split; [lia|done].
    + intros (r & Hr & Heq & _)%Hkey; [|done].
      apply (Hd1 (ConstraintTypeFix.p_index_target f));
        [by apply list_elem_of_fmap_2|].
      apply elem_of_app. right. apply list_elem_of_fmap. exists r.
      split; [lia|done].
  - intros it Hit. rewrite Hout3; [by apply Hin2|].
    intros (r & Hr & Heq & _)%Hkey; [|done].
    apply (Hd2 it.2); [by apply list_elem_of_fmap_2|].
    apply list_elem_of_fmap. exists r. split; [lia|done].
  - intros r Hr. rewrite (Hin3 r Hr). do 2 f_equal.
    apply combination_ext. intros k Hk.
    rewrite (nth_lookup po2 _ 0%float), (nth_lookup po3 _ 0%float), Hout3; [done|].
    intros (r' & Hr' & Heq & _)%Hkey; [|done].
    eapply Forall_forall in Hrel; [|exact Hr].
    destruct (Hrel k Hk) as [_ Hnotin]. apply Hnotin.
    apply list_elem_of_fmap. exists r'. split; [lia|done].
Qed.

End RecoverOrder.

Lemma total_size_S {A} (sizes : list (list A)) i :
  Recover.total_size sizes (S i)
  = Recover.total_size sizes i + length (nth i sizes []).
Proof.
  unfold Recover.total_size. rewrite seq_S, map_app, sum_list_with_app. simpl. lia.
Qed.

Lemma total_size_mono {A} (sizes : list (list A)) i j :
  i ≤ j → Recover.total_size sizes i ≤ Recover.total_size sizes j.
Proof. induction 1 as [|j _ IH]; [done|]. rewrite total_size_S. lia. Qed.

Section RecoverAll.

Import Recover.

Variables (param_in : list float) (nequiv : list (list nat)).
Variable constraint : Constraint.
Variable maxorder : nat.

Hypothesis well_formed :
  ∀ j, j < maxorder → assigned_once (length (nth j nequiv [])) constraint j.

Local Abbreviation expanded' := (expanded param_in nequiv constraint).

Lemma recover_loop po I :
  I ≤ maxorder → length po = total_size nequiv maxorder →
  ∃ po',
    foldl (recover_order param_in nequiv constraint) (po, 0, 0) (seq 0 I)
      = (po', total_size nequiv I, total_size (index_bimap constraint) I)
    ∧ length po' = length po
    ∧ ∀ i, i < I → expanded' po' i.
Proof.
  intros HI Hlen. induction I as [|I IH].
  { exists po. split; [done|]. split; [done|]. intros; lia. }
  destruct IH as (po1 & Hfold & Hlen1 & Hdone); [lia|].
  rewrite seq_S, foldl_snoc, Hfold, Nat.add_0_l.
  pose proof (total_size_mono nequiv (S I) maxorder HI) as Hfit.
  rewrite total_size_S in Hfit.
  destruct (recover_order_spec param_in nequiv constraint po1
              (total_size nequiv I) (total_size (index_bimap constraint) I) I)
    as (po2 & -> & Hlen2 & Hout & Hfix & Hfree & Hrel);
    [apply well_formed; lia|lia|].
  exists po2. rewrite !total_size_S. split; [done|]. split; [lia|].
  intros i Hi. destruct (decide (i = I)) as [->|Hne]; [by split_and!|].
  destruct (Hdone i) as (Hfix' & Hfree' & Hrel'); [lia|].
  destruct (well_formed i) as (_ & Hlt & Hwf); [lia|].
  apply Forall_app in Hlt as [Hlt1 Hlt23]. apply Forall_app in Hlt23 as [Hlt2 Hlt3].
  pose proof (total_size_mono nequiv (S i) I) as Hblock.
  rewrite total_size_S in Hblock.
  split_and!.
  - intros f Hf. rewrite Hout; [by apply Hfix'|].
    apply Forall_fmap in Hlt1. eapply Forall_forall in Hlt1; [|exact Hf].
    simpl in Hlt1. lia.
  - intros it Hit. rewrite Hout; [by apply Hfree'|].
    apply Forall_fmap in Hlt2. eapply Forall_forall in Hlt2; [|exact Hit].
    simpl in Hlt2. lia.
  - intros r Hr. rewrite Hout.
    + rewrite (Hrel' r Hr). do 2 f_equal. apply combination_ext.
      intros k Hk. rewrite (nth_lookup po1 _ 0%float), (nth_lookup po2 _ 0%float).
      rewrite Hout; [done|].
      eapply Forall_forall in Hwf; [|exact Hr]. destruct (Hwf k Hk) as [Hlt _]. lia.
    + apply Forall_fmap in Hlt3. eapply Forall_forall in Hlt3; [|exact Hr].
      simpl in Hlt3. lia.
Qed.

Lemma recover_expanded param_out i :
  total_size nequiv maxorder ≠ length param_in → i < maxorder →
  let out := recover_original_forceconstants (Z.of_nat maxorder) param_in param_out
               nequiv constraint in
  length out = total_size nequiv maxorder ∧ expanded' out i.
Proof.
  intros Hne Hi. unfold recover_original_forceconstants. rewrite Nat2Z.id.
  destruct (Nat.eqb_spec (total_size nequiv maxorder) (length param_in)); [done|].
  destruct (recover_loop
              (take (total_size nequiv maxorder) param_out
               ++ replicate (total_size nequiv maxorder - length param_out) 0%float)
              maxorder) as (po' & -> & Hlen & Hall).
  - done.
  - rewrite length_app, length_take, length_replicate. lia.
  - simpl. split; [|by apply Hall].
    rewrite Hlen, length_app, length_take, length_replicate. lia.
Qed.

End RecoverAll.

(** X29: when the number of parameters differs from the number of fitted
    ones and every order of the constraint description assigns every
    parameter at most once, [recover_original_forceconstants] returns one
    value per parameter, with every fixed parameter at its fixed value
    and every fitted parameter at the place that the bimap gives it:
    [param_out[right + ishift] = param_in[left + iparam]], where [ishift]
    and [iparam] count the parameters and the fitted parameters of the
    orders before. *)
Theorem recovered_parameters_in_place maxorder param_in param_out nequiv
    constraint i :
  Recover.total_size nequiv maxorder ≠ length param_in →
  (∀ j, j < maxorder → assigned_once (length (nth j nequiv [])) constraint j) →
  i < maxorder →
  let out := Recover.recover_original_forceconstants (Z.of_nat maxorder) param_in
               param_out nequiv constraint in
  length out = Recover.total_size nequiv maxorder
  ∧ (∀ f, f ∈ nth i (Recover.const_fix constraint) [] →
          out !! (Recover.ConstraintTypeFix.p_index_target f
                  + Recover.total_size nequiv i)
          = Some (Recover.ConstraintTypeFix.val_to_fix f))
  ∧ (∀ left right, (left, right) ∈ nth i (Recover.index_bimap constraint) [] →
          out !! (right + Recover.total_size nequiv i)
          = Some (nth (left + Recover.total_size (Recover.index_bimap constraint) i)
                      param_in 0%float)).
Proof.
  intros Hne Hwf Hi.
  destruct (recover_expanded param_in nequiv constraint maxorder Hwf param_out i
              Hne Hi) as (Hlen & Hfix & Hfree & _).
  split; [done|]. split; [done|]. intros left right Hin. by apply (Hfree (left, right)).
Qed.

(** X30: under the same conditions every relation of the constraint
    description holds of the parameters that
    [recover_original_forceconstants] returns: the target of a relation is
    minus the combination of the returned parameters that the relation
    names, summed in the order of the loop. *)
Theorem recovered_parameters_satisfy_relations maxorder param_in param_out nequiv
    constraint i r :
  Recover.total_size nequiv maxorder ≠ length param_in →
  (∀ j, j < maxorder → assigned_once (length (nth j nequiv [])) constraint j) →
  i < maxorder →
  r ∈ nth i (Recover.const_relate constraint) [] →
  let out := Recover.recover_original_forceconstants (Z.of_nat maxorder) param_in
               param_out nequiv constraint in
  out !! (Recover.ConstraintTypeRelate.p_index_target r + Recover.total_size nequiv i)
  = Some (- Recover.combination (Recover.total_size nequiv i) out r)%float.
Proof.
  intros Hne Hwf Hi Hr.
  destruct (recover_expanded param_in nequiv constraint maxorder Hwf param_out i
              Hne Hi) as (_ & _ & _ & Hrel).
  by apply Hrel.
Qed.

Lemma recovered_parameters_in_place_witness :
  let constraint :=
    Recover.mkConstraint [[Recover.ConstraintTypeFix.mk 0 2%float]]
      [[Recover.ConstraintTypeRelate.mk 2 [0.5%float] [1]]] [[(0, 1)]] in
  let out := Recover.recover_original_forceconstants (Z.of_nat 1) [3%float] []
               [[1; 1; 1]] constraint in
  length out = Recover.total_size [[1; 1; 1]] 1
  ∧ (∀ f, f ∈ nth 0 (Recover.const_fix constraint) [] →
          out !! (Recover.ConstraintTypeFix.p_index_target f
                  + Recover.total_size [[1; 1; 1]] 0)
          = Some (Recover.ConstraintTypeFix.val_to_fix f))
  ∧ (∀ left right, (left, right) ∈ nth 0 (Recover.index_bimap constraint) [] →
          out !! (right + Recover.total_size [[1; 1; 1]] 0)
          = Some (nth (left + Recover.total_size (Recover.index_bimap constraint) 0)
                      [3%float] 0%float)).
Proof.
  apply (recovered_parameters_in_place 1 [3%float] [] [[1; 1; 1]]
           (Recover.mkConstraint [[Recover.ConstraintTypeFix.mk 0 2%float]]
              [[Recover.ConstraintTypeRelate.mk 2 [0.5%float] [1]]] [[(0, 1)]]) 0).
  - vm_compute. lia.
  - intros j Hj. assert (j = 0) as -> by lia. split_and!.
    + simpl. repeat (apply NoDup_cons; split; [|]);
        rewrite ?elem_of_cons, ?elem_of_nil; try lia. constructor.
    + simpl. repeat constructor.
    + constructor; [|done]. simpl. intros k Hk. assert (k = 0) as -> by lia.
      simpl. split; [lia|]. rewrite list_elem_of_singleton. lia.
  - lia.
Defined.

Lemma recovered_parameters_satisfy_relations_witness :
  let constraint :=
    Recover.mkConstraint [[Recover.ConstraintTypeFix.mk 0 2%float]]
      [[Recover.ConstraintTypeRelate.mk 2 [0.5%float] [1]]] [[(0, 1)]] in
  let r := Recover.ConstraintTypeRelate.mk 2 [0.5%float] [1] in
  let out := Recover.recover_original_forceconstants (Z.of_nat 1) [3%float] []
               [[1; 1; 1]] constraint in
  out !! (Recover.ConstraintTypeRelate.p_index_target r
          + Recover.total_size [[1; 1; 1]] 0)
  = Some (- Recover.combination (Recover.total_size [[1; 1; 1]] 0) out r)%float.
Proof.
  apply (recovered_parameters_satisfy_relations 1 [3%float] [] [[1; 1; 1]]
           (Recover.mkConstraint [[Recover.ConstraintTypeFix.mk 0 2%float]]
              [[Recover.ConstraintTypeRelate.mk 2 [0.5%float] [1]]] [[(0, 1)]]) 0
           (Recover.ConstraintTypeRelate.mk 2 [0.5%float] [1])).
  - vm_compute. lia.
  - intros j Hj. assert (j = 0) as -> by lia. split_and!.
    + simpl. repeat (apply NoDup_cons; split; [|]);
        rewrite ?elem_of_cons, ?elem_of_nil; try lia. constructor.
    + simpl. repeat constructor.
    + constructor; [|done]. simpl. intros k Hk. assert (k = 0) as -> by lia.
      simpl. split; [lia|]. rewrite list_elem_of_singleton. lia.
  - lia.
  - left.
Defined.
